(** * Note Definitions plugin: the definition index, the consolidated
      parser, the phrase scanner and the write paths, embedded from the
      TypeScript sources.

    Text is modelled by [string], and the model is exact on ASCII text:
    the ASCII letters carry case, the ASCII white-space characters are the
    ones [trim] removes and [A-Za-z0-9_] are the word characters of [\b];
    every other code unit is a caseless symbol.  Offsets and line numbers
    are [nat].  A JavaScript [Map] keeps its keys in insertion order, which
    [getAllDefinitions] observes, so it is an association list with unique
    keys.  A loop whose end is not plain from its header runs on a budget
    of turns, and a call can end in a value, in an exception or with the
    budget used up. *)

From Stdlib Require Import List String Ascii Bool Arith Lia.
From Stdlib Require Import Sorting.Sorted Sorting.Permutation.
Import ListNotations.
Open Scope string_scope.
Open Scope list_scope.
Open Scope nat_scope.

(** [===] on strings. *)
Infix "==" := String.eqb (at level 70, no associativity).

(* ------------------------------------------------------------------ *)
(** ** JavaScript strings and arrays *)

Module Js.

Definition nl : string := String (ascii_of_nat 10) EmptyString.

Definition code (c : ascii) : nat := nat_of_ascii c.

Definition isUpper (c : ascii) : bool := (65 <=? code c) && (code c <=? 90).
Definition isLower (c : ascii) : bool := (97 <=? code c) && (code c <=? 122).
Definition isDigit (c : ascii) : bool := (48 <=? code c) && (code c <=? 57).

Definition lowerChar (c : ascii) : ascii :=
  if isUpper c then ascii_of_nat (code c + 32) else c.
Definition upperChar (c : ascii) : ascii :=
  if isLower c then ascii_of_nat (code c - 32) else c.

(** [String.prototype.toLowerCase]. *)
Fixpoint toLowerCase (s : string) : string :=
  match s with
  | EmptyString => EmptyString
  | String c s' => String (lowerChar c) (toLowerCase s')
  end.

(** White space and line terminators stripped by [trim]. *)
Definition isSpace (c : ascii) : bool :=
  ((9 <=? code c) && (code c <=? 13)) || (code c =? 32).

(** Word characters of the regular-expression class [\w]. *)
Definition isWordChar (c : ascii) : bool :=
  isUpper c || isLower c || isDigit c || (code c =? 95).

Fixpoint trimStart (s : string) : string :=
  match s with
  | EmptyString => EmptyString
  | String c s' => if isSpace c then trimStart s' else s
  end.

Fixpoint trimEnd (s : string) : string :=
  match s with
  | EmptyString => EmptyString
  | String c s' =>
      let r := trimEnd s' in
      if isSpace c && (r == "") then EmptyString else String c r
  end.

Definition trim (s : string) : string := trimEnd (trimStart s).

(** [s.startsWith(p)]. *)
Definition startsWith (s p : string) : bool := prefix p s.

(** [s.substring(a, b)]: both ends clamped to the length, then ordered. *)
Definition substring2 (s : string) (a b : nat) : string :=
  let a' := Nat.min a (length s) in
  let b' := Nat.min b (length s) in
  substring (Nat.min a' b') (Nat.max a' b' - Nat.min a' b') s.

(** [s.substring(a)]. *)
Definition substring1 (s : string) (a : nat) : string :=
  substring2 s a (length s).

(** [s.endsWith(p)]. *)
Definition endsWith (s p : string) : bool :=
  (length p <=? length s)
  && (substring1 s (length s - length p) == p).

(** [s.split(c)] for a one-character separator: never the empty array. *)
Fixpoint split (sep : ascii) (s : string) : list string :=
  match s with
  | EmptyString => [EmptyString]
  | String c s' =>
      if Ascii.eqb c sep then EmptyString :: split sep s'
      else match split sep s' with
           | h :: t => String c h :: t
           | [] => [String c EmptyString]
           end
  end.

(** [a.join(sep)]. *)
Definition join (sep : string) (a : list string) : string := concat sep a.

(** [a.slice(from, to)]. *)
Definition slice {A} (a : list A) (from to : nat) : list A :=
  firstn (to - from) (skipn from a).

(** [a.slice(from)]. *)
Definition sliceFrom {A} (a : list A) (from : nat) : list A := skipn from a.

(** [a.includes(x)] on an array of strings. *)
Definition includes (a : list string) (x : string) : bool :=
  existsb (String.eqb x) a.

(** [a.sort(cmp)]: stable; [cmp x y] tells that [x] has to go after [y]
    (the comparator's result is positive). *)
Section Sort.
Context {A : Type} (after : A -> A -> bool).

Fixpoint insert (x : A) (l : list A) : list A :=
  match l with
  | [] => [x]
  | y :: l' => if after x y then y :: insert x l' else x :: l
  end.

Definition sort (l : list A) : list A := fold_right insert [] l.
End Sort.

End Js.

(* ------------------------------------------------------------------ *)
(** ** types.ts *)

Inductive SourceType := consolidated | atomic.

(** [interface Definition]. *)
Record Defn := mkDefn {
  phrase : string;
  aliases : list string;
  content : string;
  sourceFile : string;
  sourceType : SourceType;
  lineNumber : option nat;
  blockId : option string
}.

Inductive DividerPattern := hyphens | both.

(** What a call produces: a value, a thrown exception, or nothing because
    the loop budget of the model ran out. *)
Inductive Outcome (A : Type) :=
| Ok (a : A)
| Throw
| OutOfFuel.
Arguments Ok {A} a.
Arguments Throw {A}.
Arguments OutOfFuel {A}.

Definition bind {A B} (m : Outcome A) (k : A -> Outcome B) : Outcome B :=
  match m with
  | Ok a => k a
  | Throw => Throw
  | OutOfFuel => OutOfFuel
  end.

Notation "x <- m ;; k" := (bind m (fun x => k))
  (at level 61, m at next level, right associativity).

(** [lines[i]] followed by a method call: [undefined] outside the array,
    on which the call throws a TypeError. *)
Definition at_ (lines : list string) (i : nat) : Outcome string :=
  match nth_error lines i with
  | Some l => Ok l
  | None => Throw
  end.

(* ------------------------------------------------------------------ *)
(** ** parsers/ConsolidatedParser.ts *)

Module ConsolidatedParser.
Import Js.

Definition isDivider (dividerPattern : DividerPattern) (line : string) : bool :=
  if line == "---" then true
  else match dividerPattern with
       | both => line == "___"
       | hyphens => false
       end.

(** The test of [parse] and [parseBlock] for a phrase header. *)
Definition isHeader (line : string) : bool :=
  startsWith line "# " && (2 <? length line).

(** [aliasText.split(',').map(a => a.trim()).filter(a => a.length > 0)] *)
Definition parseAliases (aliasText : string) : list string :=
  filter (fun a => 0 <? length a) (map trim (split "," aliasText)).

(** The content loop of [parseBlock]:
    [while (i < lines.length) { divider: i++, break; header: break;
       contentLines.push(line); i++ }]. *)
Fixpoint contentLoop (fuel : nat) (pat : DividerPattern) (lines : list string)
    (i : nat) (contentLines : list string) : Outcome (nat * list string) :=
  match fuel with
  | 0 => OutOfFuel
  | S fuel' =>
      if i <? List.length lines then
        line <- at_ lines i ;;
        if isDivider pat (trim line) then Ok (i + 1, contentLines)
        else if isHeader (trim line) then Ok (i, contentLines)
        else contentLoop fuel' pat lines (i + 1) (contentLines ++ [line])
      else Ok (i, contentLines)
  end.

(** [while (contentLines.length > 0 && contentLines[0].trim() === '')
      contentLines.shift()] *)
Fixpoint shiftBlank (contentLines : list string) : list string :=
  match contentLines with
  | [] => []
  | l :: rest => if trim l == "" then shiftBlank rest else contentLines
  end.

(** [while (contentLines.length > 0 &&
           contentLines[contentLines.length - 1].trim() === '')
      contentLines.pop()] *)
Fixpoint popBlank (contentLines : list string) : list string :=
  match contentLines with
  | [] => []
  | l :: rest =>
      match popBlank rest with
      | [] => if trim l == "" then [] else [l]
      | r => l :: r
      end
  end.

Definition parseBlock (pat : DividerPattern) (lines : list string)
    (startIndex : nat) (filePath : string) : Outcome (option Defn * nat) :=
  l0 <- at_ lines startIndex ;;
  let phraseLine := trim l0 in
  let phrase := trim (substring1 phraseLine 2) in
  if phrase == "" then Ok (None, startIndex + 1)
  else
    let i := startIndex + 1 in
    r <- (if i <? List.length lines then
            l1 <- at_ lines i ;;
            let nextLine := trim l1 in
            if startsWith nextLine "*" && endsWith nextLine "*"
               && (2 <? length nextLine)
            then
              let aliasText := substring2 nextLine 1 (length nextLine - 1) in
              Ok (parseAliases aliasText, i + 1)
            else Ok ([], i)
          else Ok ([], i)) ;;
    let '(aliases, i) := r in
    c <- contentLoop (S (List.length lines)) pat lines i [] ;;
    let '(i, contentLines) := c in
    let contentLines := popBlank (shiftBlank contentLines) in
    let content := join nl contentLines in
    Ok (Some {| phrase := phrase; aliases := aliases; content := content;
                sourceFile := filePath; sourceType := consolidated;
                lineNumber := Some (startIndex + 1); blockId := None |},
        i).

(** The front-matter loop of [parse]:
    [while (i < lines.length && lines[i].trim() !== '---') i++]. *)
Fixpoint skipFrontmatter (fuel : nat) (lines : list string) (i : nat)
    : Outcome nat :=
  match fuel with
  | 0 => OutOfFuel
  | S fuel' =>
      if i <? List.length lines then
        l <- at_ lines i ;;
        if negb (trim l == "---") then skipFrontmatter fuel' lines (i + 1)
        else Ok i
      else Ok i
  end.

(** The main loop of [parse]. *)
Fixpoint parseLoop (fuel : nat) (pat : DividerPattern) (lines : list string)
    (filePath : string) (i : nat) (definitions : list Defn)
    : Outcome (list Defn) :=
  match fuel with
  | 0 => OutOfFuel
  | S fuel' =>
      if i <? List.length lines then
        l <- at_ lines i ;;
        if (i =? 0) && (trim l == "---") then
          j <- skipFrontmatter (S (List.length lines)) lines (i + 1) ;;
          parseLoop fuel' pat lines filePath (j + 1) definitions
        else
          let line := trim l in
          if isHeader line then
            result <- parseBlock pat lines i filePath ;;
            let '(definition, endIndex) := result in
            let definitions :=
              match definition with
              | Some d => definitions ++ [d]
              | None => definitions
              end in
            parseLoop fuel' pat lines filePath endIndex definitions
          else parseLoop fuel' pat lines filePath (i + 1) definitions
      else Ok definitions
  end.

Definition parse (pat : DividerPattern) (content filePath : string)
    : Outcome (list Defn) :=
  let lines := split (ascii_of_nat 10) content in
  parseLoop (S (List.length lines)) pat lines filePath 0 [].

End ConsolidatedParser.

(* ------------------------------------------------------------------ *)
(** ** [Map<string, V>]: keys in insertion order *)

Module JsMap.

Definition t (V : Type) := list (string * V).

Definition empty {V} : t V := [].

Fixpoint get {V} (m : t V) (k : string) : option V :=
  match m with
  | [] => None
  | (k', v) :: m' => if k' == k then Some v else get m' k
  end.

Definition has {V} (m : t V) (k : string) : bool :=
  match get m k with Some _ => true | None => false end.

(** [m.set(k, v)]: an existing key keeps its place, a new one goes last. *)
Fixpoint set {V} (m : t V) (k : string) (v : V) : t V :=
  match m with
  | [] => [(k, v)]
  | (k', v') :: m' => if k' == k then (k, v) :: m' else (k', v') :: set m' k v
  end.

Definition delete {V} (m : t V) (k : string) : t V :=
  filter (fun e => negb (fst e == k)) m.

Definition entries {V} (m : t V) : list (string * V) := m.
Definition keys {V} (m : t V) : list string := map fst m.
Definition values {V} (m : t V) : list V := map snd m.

End JsMap.

(** [interface DefinitionCache]. *)
Record DefinitionCache := mkCache {
  definitions : JsMap.t (list Defn);
  fileIndex : JsMap.t (list string);
  lastUpdate : nat
}.

(* ------------------------------------------------------------------ *)
(** ** managers/DefinitionManager.ts *)

Module DefinitionManager.
Import Js.

(** The cache the constructor builds. *)
Definition emptyCache : DefinitionCache :=
  {| definitions := JsMap.empty; fileIndex := JsMap.empty; lastUpdate := 0 |}.

Definition clearCache (c : DefinitionCache) (now : nat) : DefinitionCache :=
  {| definitions := JsMap.empty; fileIndex := JsMap.empty; lastUpdate := now |}.

(** [if (!m.has(k)) m.set(k, []); m.get(k)!.push(x)]: the key is there
    when [get] is called. *)
Definition pushUnder {V} (m : JsMap.t (list V)) (k : string) (x : V)
    : JsMap.t (list V) :=
  let m := if negb (JsMap.has m k) then JsMap.set m k [] else m in
  match JsMap.get m k with
  | Some l => JsMap.set m k (l ++ [x])
  | None => m
  end.

Definition addToCache (c : DefinitionCache) (definition : Defn)
    : DefinitionCache :=
  let normalizedPhrase := toLowerCase (phrase definition) in
  let defs := pushUnder (definitions c) normalizedPhrase definition in
  let defs :=
    fold_left (fun defs alias => pushUnder defs (toLowerCase alias) definition)
              (aliases definition) defs in
  let files := pushUnder (fileIndex c) (sourceFile definition)
                         (phrase definition) in
  {| definitions := defs; fileIndex := files; lastUpdate := lastUpdate c |}.

Definition removeFromCache (c : DefinitionCache) (filePath : string)
    : DefinitionCache :=
  match JsMap.get (fileIndex c) filePath with
  | None => c
  | Some phrases =>
      let defs :=
        fold_left
          (fun m e =>
             JsMap.set m (fst e)
               (filter (fun d => negb (sourceFile d == filePath)) (snd e)))
          (JsMap.entries (definitions c)) (definitions c) in
      let defs :=
        fold_left
          (fun m e =>
             if List.length (snd e) =? 0 then JsMap.delete m (fst e) else m)
          (JsMap.entries defs) defs in
      {| definitions := defs;
         fileIndex := JsMap.delete (fileIndex c) filePath;
         lastUpdate := lastUpdate c |}
  end.

(** [contextFiles && contextFiles.length > 0] *)
Definition hasContext (contextFiles : option (list string)) : option (list string) :=
  match contextFiles with
  | Some (f :: fs) => Some (f :: fs)
  | _ => None
  end.

Definition getDefinition (c : DefinitionCache) (phrase : string)
    (contextFiles : option (list string)) : option Defn :=
  let normalized := toLowerCase phrase in
  match JsMap.get (definitions c) normalized with
  | None => None
  | Some [] => None
  | Some (d0 :: rest) =>
      match hasContext contextFiles with
      | Some ctx =>
          match filter (fun d => includes ctx (sourceFile d)) (d0 :: rest) with
          | d :: _ => Some d
          | [] => None
          end
      | None => Some d0
      end
  end.

Definition getDefinitions (c : DefinitionCache) (phrase : string)
    (contextFiles : option (list string)) : list Defn :=
  let normalized := toLowerCase phrase in
  match JsMap.get (definitions c) normalized with
  | None => []
  | Some [] => []
  | Some (d0 :: rest) =>
      match hasContext contextFiles with
      | Some ctx => filter (fun d => includes ctx (sourceFile d)) (d0 :: rest)
      | None => d0 :: rest
      end
  end.

(** The key of the [seen] set: [`${def.sourceFile}:${def.phrase}`]. *)
Definition seenKey (def : Defn) : string :=
  sourceFile def ++ ":" ++ phrase def.

(** One turn of the inner loop of [getAllDefinitions]; the state is
    [(allDefs, seen)]. *)
Definition visit (contextFiles : option (list string))
    (st : list Defn * list string) (def : Defn) : list Defn * list string :=
  let '(allDefs, seen) := st in
  let key := seenKey def in
  if includes seen key then st
  else
    let seen := seen ++ [key] in
    match hasContext contextFiles with
    | Some ctx =>
        if includes ctx (sourceFile def) then (allDefs ++ [def], seen)
        else (allDefs, seen)
    | None => (allDefs ++ [def], seen)
    end.

Definition getAllDefinitions (c : DefinitionCache)
    (contextFiles : option (list string)) : list Defn :=
  fst (fold_left (fun st defs => fold_left (visit contextFiles) defs st)
                 (JsMap.values (definitions c)) ([], [])).

(** [Set.add] on an insertion-ordered set of strings. *)
Definition setAdd (s : list string) (x : string) : list string :=
  if includes s x then s else s ++ [x].

Definition getAllPhrases (c : DefinitionCache)
    (contextFiles : option (list string)) : list string :=
  fold_left (fun phrases def =>
               fold_left setAdd (aliases def) (setAdd phrases (phrase def)))
            (getAllDefinitions c contextFiles) [].

Definition isDefinitionFile (c : DefinitionCache) (filePath : string) : bool :=
  JsMap.has (fileIndex c) filePath.

(** [if (!folder) return false; return filePath.startsWith(folder)] *)
Definition isInDefinitionFolder (definitionFolder filePath : string) : bool :=
  if definitionFolder == "" then false
  else startsWith filePath definitionFolder.

(** The manager as the file-system handlers see it: the cache, the
    configured folder, and the file the pending debounce timer will reload
    ([None] when no timer is pending). *)
Record Manager := mkManager {
  cache : DefinitionCache;
  definitionFolder : string;
  fileWatcherDebounceTimer : option string
}.

Section Handlers.
(** What [loadDefinitionFile] parses out of the file at a path (nothing
    when the read or the parse fails). *)
Variable loadDefinitionFile : string -> list Defn.

Definition reloadFile (m : Manager) (path : string) : Manager :=
  let c := removeFromCache (cache m) path in
  let c := fold_left addToCache (loadDefinitionFile path) c in
  {| cache := c; definitionFolder := definitionFolder m;
     fileWatcherDebounceTimer := fileWatcherDebounceTimer m |}.

(** [clearTimeout] of a pending timer, then [setTimeout] for this file. *)
Definition onFileChange (m : Manager) (path : string) : Manager :=
  if negb (isInDefinitionFolder (definitionFolder m) path) then m
  else {| cache := cache m; definitionFolder := definitionFolder m;
          fileWatcherDebounceTimer := Some path |}.

Definition onFileDelete (m : Manager) (path : string) : Manager :=
  if negb (isInDefinitionFolder (definitionFolder m) path) then m
  else {| cache := removeFromCache (cache m) path;
          definitionFolder := definitionFolder m;
          fileWatcherDebounceTimer := fileWatcherDebounceTimer m |}.

Definition onFileRename (m : Manager) (path oldPath : string) : Manager :=
  if negb (isInDefinitionFolder (definitionFolder m) oldPath)
     && negb (isInDefinitionFolder (definitionFolder m) path)
  then m
  else
    let m := {| cache := removeFromCache (cache m) oldPath;
                definitionFolder := definitionFolder m;
                fileWatcherDebounceTimer := fileWatcherDebounceTimer m |} in
    if isInDefinitionFolder (definitionFolder m) path
    then reloadFile m path
    else m.
End Handlers.

End DefinitionManager.

(* ------------------------------------------------------------------ *)
(** ** The regular expressions the scanner builds

    [new RegExp(`\\b${escaped}\\b`, 'gi')] on the fragment the escaping
    leaves: word-boundary assertions and single characters. *)

Module RegExp.
Import Js.

Inductive Atom :=
| WordBoundary
| Lit (c : ascii).

(** The syntax characters of a pattern: [. * + ? ^ $ { } ( ) | [ ] \]. *)
Definition isSyntaxChar (c : ascii) : bool :=
  existsb (Ascii.eqb c)
    ["."; "*"; "+"; "?"; "^"; "$"; "{"; "}"; "("; ")"; "|"; "["; "]"; "\"]%char.

(** [phrase.replace(/[.*+?^${}()|[\]\\]/g, '\\$&')] *)
Fixpoint escape (phrase : string) : string :=
  match phrase with
  | EmptyString => EmptyString
  | String c rest =>
      if isSyntaxChar c then String "\" (String c (escape rest))
      else String c (escape rest)
  end.

(** The constructor: [None] is the SyntaxError of a pattern outside the
    fragment. *)
Fixpoint compile (source : string) : option (list Atom) :=
  match source with
  | EmptyString => Some []
  | String c rest =>
      if Ascii.eqb c "\" then
        match rest with
        | EmptyString => None
        | String e rest' =>
            if Ascii.eqb e "b" then option_map (cons WordBoundary) (compile rest')
            else if isSyntaxChar e then option_map (cons (Lit e)) (compile rest')
            else None
        end
      else if isSyntaxChar c then None
      else option_map (cons (Lit c)) (compile rest)
  end.

(** Case folding of the [i] flag: both sides are upper-cased. *)
Definition canonicalize (c : ascii) : ascii := upperChar c.

Definition wordAt (text : string) (i : nat) : bool :=
  match get i text with
  | Some c => isWordChar c
  | None => false
  end.

(** [\b] at offset [i]: exactly one of the two neighbours is a word
    character. *)
Definition isBoundary (text : string) (i : nat) : bool :=
  xorb (match i with 0 => false | S j => wordAt text j end) (wordAt text i).

(** Match the atoms at offset [i]; the result is the end offset. *)
Fixpoint matchAt (atoms : list Atom) (text : string) (i : nat) : option nat :=
  match atoms with
  | [] => Some i
  | WordBoundary :: rest =>
      if isBoundary text i then matchAt rest text i else None
  | Lit c :: rest =>
      match get i text with
      | Some t =>
          if Ascii.eqb (canonicalize t) (canonicalize c)
          then matchAt rest text (i + 1)
          else None
      | None => None
      end
  end.

Fixpoint search (n : nat) (atoms : list Atom) (text : string) (i : nat)
    : option (nat * nat) :=
  match n with
  | 0 => None
  | S n' =>
      match matchAt atoms text i with
      | Some e => Some (i, e)
      | None => search n' atoms text (i + 1)
      end
  end.

(** [regex.exec(text)] of a global expression whose [lastIndex] is given:
    the leftmost match at or after it, as (index, end); the caller's next
    [lastIndex] is the end. *)
Definition exec (atoms : list Atom) (text : string) (lastIndex : nat)
    : option (nat * nat) :=
  if lastIndex <=? length text
  then search (S (length text - lastIndex)) atoms text lastIndex
  else None.

End RegExp.

(* ------------------------------------------------------------------ *)
(** ** managers/EditorManager.ts *)

Module EditorManager.
Import Js.

(** [{ phrase, from, to }] *)
Record Match := mkMatch {
  phrase : string;
  from : nat;
  to : nat
}.

(** [matches.some(m => (from >= m.from && from < m.to) ||
                       (to > m.from && to <= m.to))] *)
Definition overlaps (matches : list Match) (from_ to_ : nat) : bool :=
  existsb (fun m => ((from m <=? from_) && (from_ <? to m))
                    || ((from m <? to_) && (to_ <=? to m)))
          matches.

(** [while ((match = regex.exec(text)) !== null) { ... }] *)
Fixpoint scan (fuel : nat) (regex : list RegExp.Atom) (text : string)
    (lastIndex : nat) (matches : list Match) : Outcome (list Match) :=
  match fuel with
  | 0 => OutOfFuel
  | S fuel' =>
      match RegExp.exec regex text lastIndex with
      | None => Ok matches
      | Some (index, e) =>
          let match0 := substring2 text index e in
          let from_ := index in
          let to_ := from_ + length match0 in
          let matches :=
            if negb (overlaps matches from_ to_)
            then matches ++ [{| phrase := match0; from := from_; to := to_ |}]
            else matches in
          scan fuel' regex text e matches
      end
  end.

(** [for (const phrase of sortedPhrases) { ... }] *)
Fixpoint scanPhrases (fuel : nat) (text : string) (sortedPhrases : list string)
    (matches : list Match) : Outcome (list Match) :=
  match sortedPhrases with
  | [] => Ok matches
  | phrase_ :: rest =>
      let escaped := RegExp.escape phrase_ in
      match RegExp.compile ("\b" ++ escaped ++ "\b") with
      | None => Throw
      | Some regex =>
          matches <- scan fuel regex text 0 matches ;;
          scanPhrases fuel text rest matches
      end
  end.

(** [fuel] bounds the turns of each [while] loop. *)
Definition findPhrases (fuel : nat) (text : string) (phrases : list string)
    : Outcome (list Match) :=
  let sortedPhrases := sort (fun a b => length a <? length b) phrases in
  matches <- scanPhrases fuel text sortedPhrases [] ;;
  Ok (sort (fun a b => from b <? from a) matches).

End EditorManager.

(* ------------------------------------------------------------------ *)
(** ** The vault the write paths act on

    A host call is a step that either rejects, leaving the vault as it is,
    or takes effect as a whole: [faults] tells, call by call, which ones
    reject ([true]); a call on a missing file or on a folder rejects too.
    What an earlier call wrote stays written when a later one rejects. *)

Module Vault.

Inductive Node :=
| File (content : string)
| Folder.

Record World := mkWorld {
  files : JsMap.t Node;
  faults : list bool
}.

(** A promise: its value, or [None] when it rejects, and the world after. *)
Definition IO (A : Type) := World -> option A * World.

Definition ret {A} (a : A) : IO A := fun w => (Some a, w).
Definition throw {A} : IO A := fun w => (None, w).
Definition bindIO {A B} (m : IO A) (k : A -> IO B) : IO B :=
  fun w => match m w with
           | (Some a, w') => k a w'
           | (None, w') => (None, w')
           end.

(** The host decides whether the call at hand goes through. *)
Definition hostCall : IO unit :=
  fun w => match faults w with
           | [] => (Some tt, w)
           | true :: fs => (None, {| files := files w; faults := fs |})
           | false :: fs => (Some tt, {| files := files w; faults := fs |})
           end.

(** [vault.getAbstractFileByPath(path)] *)
Definition getAbstractFileByPath (w : World) (path : string) : option Node :=
  JsMap.get (files w) path.

(** [await vault.read(file)] *)
Definition read (path : string) : IO string :=
  bindIO hostCall (fun _ w =>
    match JsMap.get (files w) path with
    | Some (File c) => (Some c, w)
    | _ => (None, w)
    end).

(** [await vault.modify(file, data)] *)
Definition modify (path data : string) : IO unit :=
  bindIO hostCall (fun _ w =>
    match JsMap.get (files w) path with
    | Some (File _) =>
        (Some tt, {| files := JsMap.set (files w) path (File data);
                     faults := faults w |})
    | _ => (None, w)
    end).

(** [await vault.delete(file)] *)
Definition delete (path : string) : IO unit :=
  bindIO hostCall (fun _ w =>
    match JsMap.get (files w) path with
    | Some _ =>
        (Some tt, {| files := JsMap.delete (files w) path;
                     faults := faults w |})
    | None => (None, w)
    end).

(** [await fileManager.renameFile(file, newPath)] *)
Definition renameFile (path newPath : string) : IO unit :=
  bindIO hostCall (fun _ w =>
    match JsMap.get (files w) path, JsMap.get (files w) newPath with
    | Some n, None =>
        (Some tt, {| files := JsMap.set (JsMap.delete (files w) path) newPath n;
                     faults := faults w |})
    | _, _ => (None, w)
    end).

(** [await fileManager.processFrontMatter(file, fn)]: the host reads the
    note, lets [fn] change the front matter and saves it; [rewrite] is the
    resulting change of the file's text. *)
Definition processFrontMatter (path : string) (rewrite : string -> string)
    : IO unit :=
  bindIO hostCall (fun _ w =>
    match JsMap.get (files w) path with
    | Some (File c) =>
        (Some tt, {| files := JsMap.set (files w) path (File (rewrite c));
                     faults := faults w |})
    | _ => (None, w)
    end).

End Vault.

Notation "x <~ m ;; k" := (Vault.bindIO m (fun x => k))
  (at level 61, m at next level, right associativity).

(* ------------------------------------------------------------------ *)
(** ** managers/UIManager.ts: the write paths *)

Module UIManager.
Import Js Vault.

(** [file.name]: the last segment of the path. *)
Definition fileName (path : string) : string :=
  last (split "/" path) path.

(** The loop that finds the end of a block:
    [while (endLine < lines.length) { divider or header: break; endLine++ }];
    [n] bounds its turns by the number of lines. *)
Fixpoint blockEnd (n : nat) (lines : list string) (endLine : nat) : nat :=
  match n with
  | 0 => endLine
  | S n' =>
      match nth_error lines endLine with
      | None => endLine
      | Some l =>
          let line := trim l in
          if (line == "---") || (line == "___")
             || (startsWith line "# " && (2 <? length line))
          then endLine
          else blockEnd n' lines (endLine + 1)
      end
  end.

Definition isDividerLine (lines : list string) (i : nat) : bool :=
  match nth_error lines i with
  | Some l => (trim l == "---") || (trim l == "___")
  | None => false
  end.

Definition appendToConsolidatedFile (filePath phrase_ : string)
    (aliases_ : list string) (content_ : string) : IO unit :=
  fun w =>
    match getAbstractFileByPath w filePath with
    | None | Some Folder => (None, w)
    | Some (File _) =>
        (existingContent <~ read filePath ;;
         let newBlock := (nl ++ "# " ++ phrase_ ++ nl)%string in
         let newBlock :=
           if 0 <? List.length aliases_
           then (newBlock ++ nl ++ "*" ++ join ", " aliases_ ++ "*" ++ nl)%string
           else newBlock in
         let newBlock :=
           (newBlock ++ nl ++ content_ ++ nl ++ nl ++ "---" ++ nl)%string in
         modify filePath (existingContent ++ newBlock)) w
    end.

Definition deleteConsolidatedDefinition (file : string) (definition : Defn)
    : IO unit :=
  content_ <~ read file ;;
  let lines := split (ascii_of_nat 10) content_ in
  match lineNumber definition with
  | None | Some 0 => throw
  | Some (S startLine) =>
      let endLine := blockEnd (List.length lines) lines (startLine + 1) in
      let endLine :=
        if (endLine <? List.length lines) && isDividerLine lines endLine
        then endLine + 1 else endLine in
      let newLines := slice lines 0 startLine ++ sliceFrom lines endLine in
      modify file (join nl newLines)
  end.

Definition deleteAtomicDefinition (file : string) : IO unit :=
  delete file.

Definition updateConsolidatedDefinition (file : string) (definition : Defn)
    (newPhrase : string) (newAliases : list string) (newContent : string)
    : IO unit :=
  content_ <~ read file ;;
  let lines := split (ascii_of_nat 10) content_ in
  match lineNumber definition with
  | None | Some 0 => throw
  | Some (S startLine) =>
      let endLine := blockEnd (List.length lines) lines (startLine + 1) in
      let newBlock := ("# " ++ newPhrase)%string in
      let newBlock :=
        if 0 <? List.length newAliases
        then (newBlock ++ nl ++ nl ++ "*" ++ join ", " newAliases ++ "*")%string
        else newBlock in
      let newBlock := (newBlock ++ nl ++ nl ++ newContent)%string in
      let newLines :=
        slice lines 0 startLine ++ [newBlock] ++ sliceFrom lines endLine in
      modify file (join nl newLines)
  end.

(** The front-matter search of [updateAtomicDefinition]:
    [for (i = 1; i < lines.length; i++) if (lines[i].trim() === '---')
       { contentStart = i + 1; break; }] *)
Fixpoint frontmatterEnd (n : nat) (lines : list string) (i : nat) : nat :=
  match n with
  | 0 => 0
  | S n' =>
      match nth_error lines i with
      | None => 0
      | Some l => if trim l == "---" then i + 1
                  else frontmatterEnd n' lines (i + 1)
      end
  end.

Section HostCalls.
(** The text the host saves when the callback of [processFrontMatter]
    has set [frontmatter.aliases] to the list (or deleted the key for
    the empty list). *)
Variable setAliases : list string -> string -> string.
(** [path.replace(name, replacement)] *)
Variable replace : string -> string -> string -> string.

Definition updateAtomicDefinition (file : string) (definition : Defn)
    (newPhrase : string) (newAliases : list string) (newContent : string)
    : IO unit :=
  _ <~ processFrontMatter file (setAliases newAliases) ;;
  content_ <~ read file ;;
  let lines := split (ascii_of_nat 10) content_ in
  match nth_error lines 0 with
  | None => throw
  | Some l0 =>
      let contentStart :=
        if trim l0 == "---"
        then frontmatterEnd (List.length lines) lines 1 else 0 in
      let frontmatterLines := slice lines 0 contentStart in
      let newLines := frontmatterLines ++ [""; newContent] in
      _ <~ modify file (join nl newLines) ;;
      if negb (newPhrase == phrase definition) then
        let newPath := replace file (fileName file) (newPhrase ++ ".md") in
        renameFile file newPath
      else ret tt
  end.
End HostCalls.

End UIManager.

(* ------------------------------------------------------------------ *)
(** ** A host for sample runs

    How a note reads once [processFrontMatter] has set or deleted the
    [aliases] key (a block-style list, the other keys kept), and
    [String.prototype.replace] for a replacement text without [$]. *)

Module Host.
Import Js.

Definition isAliasLine (l : string) : bool :=
  startsWith l "aliases:" || startsWith l "  - ".

Definition aliasLines (aliases_ : list string) : list string :=
  match aliases_ with
  | [] => []
  | _ => "aliases:" :: map (fun a => ("  - " ++ a)%string) aliases_
  end.

Definition setAliases (aliases_ : list string) (content_ : string) : string :=
  let lines := split (ascii_of_nat 10) content_ in
  let hasFrontMatter :=
    match lines with
    | l0 :: rest => (trim l0 == "---") && existsb (fun l => trim l == "---") rest
    | [] => false
    end in
  if hasFrontMatter then
    let n := UIManager.frontmatterEnd (List.length lines) lines 1 in
    let keys := filter (fun l => negb (isAliasLine l)) (slice lines 1 (n - 1)) in
    join nl (["---"] ++ keys ++ aliasLines aliases_ ++ ["---"]
             ++ sliceFrom lines n)
  else
    match aliases_ with
    | [] => content_
    | _ => join nl (["---"] ++ aliasLines aliases_ ++ ["---"; content_])
    end.

Definition replace (s pattern replacement : string) : string :=
  match index 0 pattern s with
  | Some k =>
      (substring 0 k s ++ replacement
       ++ substring (k + length pattern) (length s - (k + length pattern)) s)
      %string
  | None => s
  end.

End Host.

(* ------------------------------------------------------------------ *)
(** ** Sample data *)

Definition widgetInput : string :=
  Js.join Js.nl
    ["# Widget"; "*gadget*"; ""; "A small mechanical device."; "";
     "---"; ""; "# Gizmo"; ""; "Another small device."].

Definition cpuDef : Defn :=
  {| phrase := "CPU"; aliases := ["Central Processing Unit"];
     content := "The part of a computer that runs the programs.";
     sourceFile := "defs/a.md"; sourceType := consolidated;
     lineNumber := Some 1; blockId := None |}.

Definition ramDef : Defn :=
  {| phrase := "RAM"; aliases := ["memory"];
     content := "Working storage.";
     sourceFile := "defs/b.md"; sourceType := consolidated;
     lineNumber := Some 1; blockId := None |}.

Definition termDef : Defn :=
  {| phrase := "Term"; aliases := []; content := "A word.";
     sourceFile := "a.md"; sourceType := atomic;
     lineNumber := None; blockId := None |}.

Definition atomicNote : string :=
  Js.join Js.nl ["---"; "def-type: atomic"; "aliases:"; "  - old"; "---";
                 ""; "old body"].

Definition atomicDef : Defn :=
  {| phrase := "CPU"; aliases := ["old"]; content := "old body";
     sourceFile := "defs/CPU.md"; sourceType := atomic;
     lineNumber := None; blockId := None |}.

(** Two blocks of one file under the same header. *)
Definition fooFirst : Defn :=
  {| phrase := "Foo"; aliases := []; content := "first";
     sourceFile := "defs/a.md"; sourceType := consolidated;
     lineNumber := Some 1; blockId := None |}.

Definition fooSecond : Defn :=
  {| phrase := "Foo"; aliases := []; content := "second";
     sourceFile := "defs/a.md"; sourceType := consolidated;
     lineNumber := Some 5; blockId := None |}.

(** States the cache can be in: the constructor's, and what [addToCache]
    and [removeFromCache] make of one. *)
Inductive Reachable : DefinitionCache -> Prop :=
| Reachable_empty : Reachable DefinitionManager.emptyCache
| Reachable_add c d :
    Reachable c -> Reachable (DefinitionManager.addToCache c d)
| Reachable_remove c p :
    Reachable c -> Reachable (DefinitionManager.removeFromCache c p).

(** The list stored under a key, empty when the key is absent. *)
Definition stored (m : JsMap.t (list Defn)) (k : string) : list Defn :=
  match JsMap.get m k with
  | Some l => l
  | None => []
  end.

(** Every Definition held by some key. *)
Definition allStored (c : DefinitionCache) : list Defn :=
  List.concat (JsMap.values (definitions c)).

Lemma Defn_eq_dec (a b : Defn) : {a = b} + {a <> b}.
Proof.
  repeat decide equality.
Defined.

(* ------------------------------------------------------------------ *)
(** ** managers/DefinitionManager.ts: the debounce timer *)

Module Debounce.
Import DefinitionManager.

Section Timer.
Variable loadDefinitionFile : string -> list Defn.

(** The timer set by [onFileChange] goes off: its callback is
    [await this.reloadFile(file)] for the file of the call that set it. *)
Definition timerFires (m : Manager) : Manager :=
  match fileWatcherDebounceTimer m with
  | Some path =>
      let m' := reloadFile loadDefinitionFile m path in
      {| cache := cache m'; definitionFolder := definitionFolder m';
         fileWatcherDebounceTimer := None |}
  | None => m
  end.
End Timer.

End Debounce.

(* ------------------------------------------------------------------ *)
(** ** What [parseYaml] makes of a front matter

    The parser is the host's; of its result the sources read the keys
    [def-type] and [aliases] only. *)

(** [parsed.aliases]: absent or falsy other than the empty string, a
    sequence (each element as [String(a)] renders it), a string, or a
    truthy value of another shape. *)
Inductive YamlAliases :=
| NoAliases
| AliasSeq (items : list string)
| AliasString (s : string)
| AliasOther.

Record FrontMatter := mkFrontMatter {
  (** the value of [def-type] when it is a string *)
  fmDefType : option string;
  fmAliases : YamlAliases
}.

(** The call throws, returns nothing to read keys of, or an object. *)
Inductive Yaml :=
| YamlThrows
| YamlNull
| YamlObject (fm : FrontMatter).

(** [TFile]: what the parsers read of it. *)
Record TFile := mkTFile {
  path : string;
  basename : string
}.

(* ------------------------------------------------------------------ *)
(** ** parsers/AtomicParser.ts *)

Module AtomicParser.
Import Js.

(** [for (let i = 1; i < lines.length; i++)
       if (lines[i].trim() === '---') { endIndex = i; break; }]:
    [None] is the [-1] the loop leaves when no line closes; [n] bounds
    the turns by the number of lines. *)
Fixpoint findClose (n : nat) (lines : list string) (i : nat) : option nat :=
  match n with
  | 0 => None
  | S n' =>
      match nth_error lines i with
      | None => None
      | Some l => if trim l == "---" then Some i
                  else findClose n' lines (i + 1)
      end
  end.

(** [lines.length < 2 || lines[0].trim() !== '---'] *)
Definition noOpening (lines : list string) : bool :=
  (List.length lines <? 2)
  || match nth_error lines 0 with
     | Some l0 => negb (trim l0 == "---")
     | None => true
     end.

Definition extractFrontmatter (content_ : string) : option string :=
  let lines := split (ascii_of_nat 10) content_ in
  if noOpening lines then None
  else
    match findClose (List.length lines) lines 1 with
    | None => None
    | Some endIndex => Some (join nl (slice lines 1 endIndex))
    end.

Definition extractContent (content_ : string) : string :=
  let lines := split (ascii_of_nat 10) content_ in
  if noOpening lines then trim content_
  else
    match findClose (List.length lines) lines 1 with
    | None => trim content_
    | Some endIndex =>
        let contentLines := sliceFrom lines (endIndex + 1) in
        let contentLines := ConsolidatedParser.shiftBlank contentLines in
        trim (join nl contentLines)
    end.

Section Yaml.
Variable parseYaml : string -> Yaml.

Definition extractAliases (content_ : string) : list string :=
  match extractFrontmatter content_ with
  | None => []
  | Some frontmatter =>
      if frontmatter == "" then []
      else
        match parseYaml frontmatter with
        | YamlObject parsed =>
            match fmAliases parsed with
            | AliasSeq items =>
                filter (fun a => 0 <? length a) (map trim items)
            | AliasString s => if s == "" then [] else [trim s]
            | NoAliases | AliasOther => []
            end
        | YamlNull | YamlThrows => []
        end
  end.

Definition parse (file : TFile) (content_ : string) : Defn :=
  {| phrase := basename file;
     aliases := extractAliases content_;
     content := extractContent content_;
     sourceFile := path file;
     sourceType := atomic;
     lineNumber := None;
     blockId := None |}.
End Yaml.

End AtomicParser.

(* ------------------------------------------------------------------ *)
(** ** managers/DefinitionManager.ts: loading a file *)

Module Loader.
Import Js DefinitionManager.

Section Yaml.
Variable parseYaml : string -> Yaml.

Definition getDefinitionType (content_ : string) : SourceType :=
  let lines := split (ascii_of_nat 10) content_ in
  if AtomicParser.noOpening lines then consolidated
  else
    match AtomicParser.findClose (List.length lines) lines 1 with
    | None => consolidated
    | Some endIndex =>
        let frontmatterText := join nl (slice lines 1 endIndex) in
        match parseYaml frontmatterText with
        | YamlObject frontmatter =>
            match fmDefType frontmatter with
            | Some defType =>
                if defType == "consolidated" then consolidated
                else if defType == "atomic" then atomic
                else consolidated
            | None => consolidated
            end
        | YamlNull | YamlThrows => consolidated
        end
    end.

(** The Definitions [loadDefinitionFile] goes on to add, from what
    [vault.read] gave ([None] when it rejected): nothing when the read or
    the parser fails. *)
Definition parsedDefinitions (pat : DividerPattern) (file : TFile)
    (read : option string) : list Defn :=
  match read with
  | None => []
  | Some content_ =>
      match getDefinitionType content_ with
      | consolidated =>
          match ConsolidatedParser.parse pat content_ (path file) with
          | Ok definitions => definitions
          | Throw | OutOfFuel => []
          end
      | atomic => [AtomicParser.parse parseYaml file content_]
      end
  end.

Definition loadDefinitionFile (pat : DividerPattern) (file : TFile)
    (read : option string) (c : DefinitionCache) : DefinitionCache :=
  fold_left addToCache (parsedDefinitions pat file read) c.
End Yaml.

End Loader.

(* ------------------------------------------------------------------ *)
(** ** The dialog: [DefinitionModal.submit] *)

Module DefinitionModal.
Import Js.

(** What [submit] hands to [onSubmit], or [None] when it stops at a
    notice: the trimmed phrase, the aliases, the trimmed content and the
    selected file. *)
Definition submit (phrase_ aliases_ content_ : string)
    (availableFiles : list string) (selectedFile : string)
    : option (string * list string * string * string) :=
  if trim phrase_ == "" then None
  else if trim content_ == "" then None
  else if (0 <? List.length availableFiles) && (selectedFile == "") then None
  else
    let aliasArray :=
      filter (fun a => 0 <? length a) (map trim (split "," aliases_)) in
    Some (trim phrase_, aliasArray, trim content_, selectedFile).

End DefinitionModal.

(* ------------------------------------------------------------------ *)
(** ** The context as the callers pass it

    [contextFiles] is declared [string[]].  [EditorManager.getContextFiles]
    hands over an array; [getContextFilesFromEditor],
    [showPopoverForPhrase] and the commands of [UIManager] hand over the
    value under [def-context] in the front matter of the note as YAML
    left it, which is a string when the note names one file.  The
    queries then run the same lines on it: [contextFiles.length] and
    [contextFiles.includes] are those of the string. *)

(** An element of a YAML sequence: a string, or anything else. *)
Inductive RawItem :=
| ItemString (s : string)
| ItemOther.

(** The value under [def-context].  [RawFalsy] is a missing key (or a
    note without front matter, or no note), [null], [false] and [0];
    [RawOther] is [true], a number other than 0 or a mapping, which is
    taken to have no [length] key. *)
Inductive RawContext :=
| RawFalsy
| RawArray (items : list RawItem)
| RawString (s : string)
| RawOther.

Module Context.
Import Js.

(** The value as a condition: the empty string is falsy. *)
Definition truthy (v : RawContext) : bool :=
  match v with
  | RawFalsy => false
  | RawString s => negb (s == "")
  | RawArray _ | RawOther => true
  end.

(** [contextFiles && contextFiles.length > 0] *)
Definition hasLength (contextFiles : RawContext) : bool :=
  match contextFiles with
  | RawArray items => 0 <? List.length items
  | RawString s => 0 <? length s
  | RawFalsy | RawOther => false
  end.

(** [String.prototype.includes]: [x] stands somewhere in [s]. *)
Fixpoint stringIncludes (s x : string) : bool :=
  prefix x s
  || match s with
     | EmptyString => false
     | String _ s' => stringIncludes s' x
     end.

(** [contextFiles.includes(x)], of the array or of the string; it is
    called only where [hasLength] holds. *)
Definition includes (contextFiles : RawContext) (x : string) : bool :=
  match contextFiles with
  | RawArray items =>
      existsb (fun item => match item with
                           | ItemString s => s == x
                           | ItemOther => false
                           end) items
  | RawString s => stringIncludes s x
  | RawFalsy | RawOther => false
  end.

(** A context of the declared type, as a value. *)
Definition typed (contextFiles : option (list string)) : RawContext :=
  match contextFiles with
  | Some l => RawArray (map ItemString l)
  | None => RawFalsy
  end.

End Context.

(** [getDefinition], [getAllDefinitions] and [getAllPhrases] of
    managers/DefinitionManager.ts on such a value. *)
Module RawQueries.
Import Js.

Definition getDefinition (c : DefinitionCache) (phrase : string)
    (contextFiles : RawContext) : option Defn :=
  let normalized := toLowerCase phrase in
  match JsMap.get (definitions c) normalized with
  | None => None
  | Some [] => None
  | Some (d0 :: rest) =>
      if Context.hasLength contextFiles then
        match filter (fun d => Context.includes contextFiles (sourceFile d))
                     (d0 :: rest) with
        | d :: _ => Some d
        | [] => None
        end
      else Some d0
  end.

Definition visit (contextFiles : RawContext)
    (st : list Defn * list string) (def : Defn) : list Defn * list string :=
  let '(allDefs, seen) := st in
  let key := DefinitionManager.seenKey def in
  if Js.includes seen key then st
  else
    let seen := seen ++ [key] in
    if Context.hasLength contextFiles then
      if Context.includes contextFiles (sourceFile def)
      then (allDefs ++ [def], seen)
      else (allDefs, seen)
    else (allDefs ++ [def], seen).

Definition getAllDefinitions (c : DefinitionCache)
    (contextFiles : RawContext) : list Defn :=
  fst (fold_left (fun st defs => fold_left (visit contextFiles) defs st)
                 (JsMap.values (definitions c)) ([], [])).

Definition getAllPhrases (c : DefinitionCache)
    (contextFiles : RawContext) : list string :=
  fold_left (fun phrases def =>
               fold_left DefinitionManager.setAdd (aliases def)
                         (DefinitionManager.setAdd phrases (phrase def)))
            (getAllDefinitions c contextFiles) [].

End RawQueries.

(** The note in the active view: [None] without a view or a file, else
    its path and its [def-context] value. *)
Definition ActiveNote : Type := option (string * RawContext).

(* ------------------------------------------------------------------ *)
(** ** managers/EditorManager.ts: decorations and the hover *)

Module Decorations.
Import Js EditorManager.

(** [getContextFiles]: an array, or [undefined]. *)
Definition getContextFiles (active : ActiveNote) : RawContext :=
  match active with
  | None => RawFalsy
  | Some (_, defContext) =>
      if negb (Context.truthy defContext) then RawFalsy
      else
        match defContext with
        | RawArray items => RawArray items
        | RawString s => RawArray [ItemString s]
        | RawOther => RawArray [ItemOther]
        | RawFalsy => RawFalsy
        end
  end.

(** [buildDecorations]: the spans that get the underline, each with its
    [data-phrase]. *)
Definition buildDecorations (fuel : nat) (c : DefinitionCache)
    (active : ActiveNote) (text : string) : Outcome (list Match) :=
  let contextFiles := getContextFiles active in
  let phrases := RawQueries.getAllPhrases c contextFiles in
  if List.length phrases =? 0 then Ok []
  else findPhrases fuel text phrases.

(** What [showPopoverForPhrase] does. *)
Inductive Popover :=
| ShowUsages (phrase : string)
| Show (definition : Defn)
| NoPopover.

Definition showPopoverForPhrase (c : DefinitionCache) (active : ActiveNote)
    (phrase : string) : Popover :=
  let lookup contextFiles :=
    match RawQueries.getDefinition c phrase contextFiles with
    | Some definition => Show definition
    | None => NoPopover
    end in
  match active with
  | Some (path, defContext) =>
      if DefinitionManager.isDefinitionFile c path then ShowUsages phrase
      else if Context.truthy defContext then lookup defContext
      else lookup RawFalsy
  | None => lookup RawFalsy
  end.

End Decorations.

(* ------------------------------------------------------------------ *)
(** ** managers/EditorManager.ts: the phrase under the cursor *)

Module EditorCursor.
Import Js EditorManager.

(** [while ((match = regex.exec(line)) !== null) {
       if (pos >= start && pos <= end) return match[0]; }] *)
Fixpoint cursorScan (fuel : nat) (regex : list RegExp.Atom) (line : string)
    (pos lastIndex : nat) : Outcome (option string) :=
  match fuel with
  | 0 => OutOfFuel
  | S fuel' =>
      match RegExp.exec regex line lastIndex with
      | None => Ok None
      | Some (index, e) =>
          let match0 := substring2 line index e in
          let start := index in
          let end_ := start + length match0 in
          if (start <=? pos) && (pos <=? end_) then Ok (Some match0)
          else cursorScan fuel' regex line pos e
      end
  end.

(** [for (const phrase of phrases) { ... } return null] *)
Fixpoint cursorPhrases (fuel : nat) (line : string) (pos : nat)
    (phrases : list string) : Outcome (option string) :=
  match phrases with
  | [] => Ok None
  | phrase_ :: rest =>
      let escaped := RegExp.escape phrase_ in
      match RegExp.compile ("\b" ++ escaped ++ "\b") with
      | None => Throw
      | Some regex =>
          found <- cursorScan fuel regex line pos 0 ;;
          match found with
          | Some match0 => Ok (Some match0)
          | None => cursorPhrases fuel line pos rest
          end
      end
  end.

(** [getContextFilesFromEditor]: the [def-context] value as it is, or
    [undefined]. *)
Definition getContextFilesFromEditor (active : ActiveNote) : RawContext :=
  match active with
  | None => RawFalsy
  | Some (_, defContext) =>
      if negb (Context.truthy defContext) then RawFalsy else defContext
  end.

(** [line] is the line of the cursor and [pos] its column. *)
Definition getDefinitionAtCursor (fuel : nat) (c : DefinitionCache)
    (active : ActiveNote) (line : string) (pos : nat)
    : Outcome (option string) :=
  let contextFiles := getContextFilesFromEditor active in
  let phrases := RawQueries.getAllPhrases c contextFiles in
  cursorPhrases fuel line pos phrases.

End EditorCursor.

(* ------------------------------------------------------------------ *)
(** ** managers/DefinitionManager.ts: [findUsages] *)

Module Usages.
Import Js.

(** [{ file, line, text }] *)
Record Usage := mkUsage {
  file : string;
  line : nat;
  text : string
}.

(** [regex.test(line)] with [lastIndex] at 0, where the loop puts it
    back after every line. *)
Definition test (regex : list RegExp.Atom) (line_ : string) : bool :=
  match RegExp.exec regex line_ 0 with
  | Some _ => true
  | None => false
  end.

(** [for (let i = 0; i < lines.length; i++)], from line [i] on. *)
Fixpoint scanLines (regex : list RegExp.Atom) (path_ : string)
    (lines : list string) (i : nat) (usages : list Usage) : list Usage :=
  match lines with
  | [] => usages
  | line_ :: rest =>
      let usages :=
        if test regex line_
        then usages ++ [{| file := path_; line := i + 1; text := trim line_ |}]
        else usages in
      scanLines regex path_ rest (i + 1) usages
  end.

(** The loop over [vault.getMarkdownFiles()]: each file comes with what
    [vault.read] gives for it, [None] when the read fails. *)
Fixpoint scanFiles (regex : list RegExp.Atom) (c : DefinitionCache)
    (files : list (string * option string)) (usages : list Usage)
    : list Usage :=
  match files with
  | [] => usages
  | (path_, read) :: rest =>
      if DefinitionManager.isDefinitionFile c path_
      then scanFiles regex c rest usages
      else
        match read with
        | Some content_ =>
            let lines := split (ascii_of_nat 10) content_ in
            scanFiles regex c rest (scanLines regex path_ lines 0 usages)
        | None => scanFiles regex c rest usages
        end
  end.

Definition findUsages (c : DefinitionCache)
    (files : list (string * option string)) (phrase_ : string)
    : Outcome (list Usage) :=
  let escaped := RegExp.escape phrase_ in
  match RegExp.compile ("\b" ++ escaped ++ "\b") with
  | None => Throw
  | Some regex => Ok (scanFiles regex c files [])
  end.

End Usages.

(* ------------------------------------------------------------------ *)
(** ** A sample vault *)

(** A consolidated file with one block, and a vault that holds it and
    lets every call through. *)
Definition ramFile : string :=
  Js.join Js.nl ["# RAM"; ""; "Working storage."; ""; "---"; ""].

Definition ramVault : Vault.World :=
  {| Vault.files := [("defs/a.md", Vault.File ramFile)];
     Vault.faults := [] |}.

(** The block of [ramFile] as the parser returns it. *)
Definition ramBlock : Defn :=
  {| phrase := "RAM"; aliases := []; content := "Working storage.";
     sourceFile := "defs/a.md"; sourceType := consolidated;
     lineNumber := Some 1; blockId := None |}.

(** A loader that finds [cpuDef] in its file and nothing elsewhere, and
    a manager whose cache holds [cpuDef] and [ramDef]. *)
Definition cpuLoader (p : string) : list Defn :=
  if p == "defs/a.md" then [cpuDef] else [].

Definition cpuManager : DefinitionManager.Manager :=
  {| DefinitionManager.cache :=
       DefinitionManager.addToCache
         (DefinitionManager.addToCache DefinitionManager.emptyCache cpuDef)
         ramDef;
     DefinitionManager.definitionFolder := "defs";
     DefinitionManager.fileWatcherDebounceTimer := None |}.

(** A YAML reader for [atomicNote]. *)
Definition atomicYaml (_ : string) : Yaml :=
  YamlObject {| fmDefType := Some "atomic"; fmAliases := AliasSeq ["old"] |}.

(** Files of a vault as [findUsages] meets them: a note that mentions
    the CPU, the definition file of [cpuDef], and a note that cannot be
    read. *)
Definition usageFiles : list (string * option string) :=
  [("notes/today.md",
    Some (Js.join Js.nl ["The CPU is hot."; "Nothing here."; " a cpu again "]));
   ("defs/a.md", Some "# CPU");
   ("notes/locked.md", None)].

(** A YAML reader that finds [def-type: atomic] and a blank string under
    [aliases]. *)
Definition blankAliasYaml (_ : string) : Yaml :=
  YamlObject {| fmDefType := Some "atomic"; fmAliases := AliasString " " |}.

(* ------------------------------------------------------------------ *)
(** ** managers/DefinitionManager.ts: loading the folder *)

(** A child of a folder: a file with its extension and with what
    [vault.read] gives for it ([None] when the read fails), or a folder
    with its children. *)
#[warnings="-register-all"]
Inductive Entry :=
| EFile (file : TFile) (extension : string) (read : option string)
| EFolder (children : list Entry).

Module FolderLoad.
Import Js DefinitionManager.

Section Yaml.
Variable parseYaml : string -> Yaml.
Variable pat : DividerPattern.

(** One turn of the loop of [loadDefinitionsFromFolder]: an [md] file is
    loaded, a folder is walked, anything else is passed over. *)
Fixpoint loadChild (child : Entry) (c : DefinitionCache) : DefinitionCache :=
  match child with
  | EFile file extension read =>
      if extension == "md"
      then Loader.loadDefinitionFile parseYaml pat file read c
      else c
  | EFolder children =>
      (fix loop (l : list Entry) (c : DefinitionCache) : DefinitionCache :=
         match l with
         | [] => c
         | child' :: rest => loop rest (loadChild child' c)
         end) children c
  end.

(** [for (const child of folder.children) ...] *)
Definition loadDefinitionsFromFolder (children : list Entry)
    (c : DefinitionCache) : DefinitionCache :=
  fold_left (fun c child => loadChild child c) children c.

(** [folder] is what [getAbstractFileByPath] gives for the definition
    folder; [now] and [later] are the clock at [clearCache] and after
    the walk. *)
Definition loadDefinitions (definitionFolder : string)
    (folder : option Entry) (now later : nat) (c : DefinitionCache)
    : DefinitionCache :=
  if definitionFolder == "" then c
  else
    let c := clearCache c now in
    match folder with
    | None => c
    | Some (EFile _ _ _) => c
    | Some (EFolder children) =>
        let c := loadDefinitionsFromFolder children c in
        {| definitions := definitions c; fileIndex := fileIndex c;
           lastUpdate := later |}
    end.

End Yaml.

End FolderLoad.

(** A definition folder: a consolidated file, a picture, and a
    sub-folder with an atomic note. *)
Definition sampleFolder : Entry :=
  EFolder
    [EFile {| path := "defs/a.md"; basename := "a" |} "md" (Some ramFile);
     EFile {| path := "defs/pic.png"; basename := "pic" |} "png" None;
     EFolder
       [EFile {| path := "defs/notes/CPU.md"; basename := "CPU" |} "md"
              (Some atomicNote)]].

(* ------------------------------------------------------------------ *)
(** ** Vocabulary of the statements *)

Section IndexVocabulary.
Import DefinitionManager.

(** The keys a Definition is filed under. *)
Definition keysOf (d : Defn) : list string :=
  Js.toLowerCase (phrase d) :: map Js.toLowerCase (aliases d).

(** How often a key occurs in a list of keys. *)
Fixpoint countKey (k : string) (ks : list string) : nat :=
  match ks with
  | [] => 0
  | k0 :: ks' => (if k0 == k then 1 else 0) + countKey k ks'
  end.

(** The Definitions of a list whose key has not been seen, in order. *)
Fixpoint firstSeen (seen : list string) (l : list Defn) : list Defn :=
  match l with
  | [] => []
  | d :: l' =>
      if Js.includes seen (seenKey d) then firstSeen seen l'
      else d :: firstSeen (seen ++ [seenKey d]) l'
  end.

(** What holds of every reachable cache. *)
Record CacheInv (c : DefinitionCache) : Prop := {
  inv_keys : NoDup (JsMap.keys (definitions c));
  inv_nonempty : forall k, JsMap.get (definitions c) k <> Some [];
  inv_owner : forall k d,
    In d (stored (definitions c) k) ->
    JsMap.has (fileIndex c) (sourceFile d) = true;
  inv_phrase : forall f phs ph,
    JsMap.get (fileIndex c) f = Some phs -> In ph phs ->
    exists d, In d (stored (definitions c) (Js.toLowerCase ph))
              /\ phrase d = ph /\ sourceFile d = f
}.

End IndexVocabulary.

Section ParserVocabulary.
Import Js ConsolidatedParser.
Variables (lines : list string) (filePath : string).

Fixpoint allSpace (s : string) : bool :=
  match s with
  | EmptyString => true
  | String c s' => isSpace c && allSpace s'
  end.

(** No line from [a] up to [b] is a phrase header. *)
Definition noHeaderIn (a b : nat) : Prop :=
  forall n l, a <= n < b -> nth_error lines n = Some l ->
              isHeader (trim l) = false.

(** Line [n] lies in the front matter: the first line is [---] and no
    line after it and before [n] is. *)
Definition inFrontMatter (n : nat) : Prop :=
  (exists l0, nth_error lines 0 = Some l0 /\ trim l0 = "---")
  /\ forall j l, 1 <= j < n -> nth_error lines j = Some l -> trim l <> "---".

(** A Definition the parser may return for these lines. *)
Definition fromHeader (d : Defn) : Prop :=
  exists n l,
    nth_error lines n = Some l
    /\ isHeader (trim l) = true
    /\ lineNumber d = Some (n + 1)
    /\ phrase d = trim (substring1 (trim l) 2)
    /\ phrase d <> ""
    /\ sourceFile d = filePath.

End ParserVocabulary.

Section ScannerVocabulary.
Import Js RegExp EditorManager.

(** The atoms of a phrase taken literally. *)
Fixpoint lits (p : string) : list Atom :=
  match p with
  | EmptyString => []
  | String c p' => Lit c :: lits p'
  end.

(** [\bphrase\b] *)
Definition wordRegExp (p : string) : list Atom :=
  WordBoundary :: lits p ++ [WordBoundary].

(** Half-open spans that share no offset. *)
Definition Disjoint (a b : Match) : Prop := to a <= from b \/ to b <= from a.

(** The spans the loop for one expression examines from [lastIndex] on:
    what [exec] returns there, and what it returns on resuming at the end
    of an examined span. *)
Inductive ExaminedFrom (regex : list Atom) (text : string)
  : nat -> nat -> nat -> Prop :=
| Examined_here lastIndex i e :
    exec regex text lastIndex = Some (i, e) ->
    ExaminedFrom regex text lastIndex i e
| Examined_later lastIndex i0 e0 i e :
    exec regex text lastIndex = Some (i0, e0) ->
    ExaminedFrom regex text e0 i e ->
    ExaminedFrom regex text lastIndex i e.

Variables (text : string) (P : list string).

(** A span of the text that reads as one of the phrases. *)
Definition Span (m : Match) : Prop :=
  from m < to m
  /\ to m <= length text
  /\ phrase m = substring (from m) (to m - from m) text
  /\ exists p, In p P /\ toLowerCase (phrase m) = toLowerCase p.

(** A span that is at least [n] long. *)
Definition Good (n : nat) (m : Match) : Prop :=
  Span m /\ n <= to m - from m.

End ScannerVocabulary.

Section WriteVocabulary.
Import Js Vault.

(** The front matter of the lines closes at line [e]: the first line is
    [---], line [e] is the first line after it that is [---] too. *)
Definition closesAt (lines : list string) (e : nat) : Prop :=
  1 <= e
  /\ (exists l0, nth_error lines 0 = Some l0 /\ trim l0 = "---")
  /\ (exists le, nth_error lines e = Some le /\ trim le = "---")
  /\ forall j l, 1 <= j < e -> nth_error lines j = Some l -> trim l <> "---".

(** The first [k] lines are the front matter with its two [---] lines;
    [k] is 0 when the lines have no front matter that closes. *)
Definition frontMatterThrough (lines : list string) (k : nat) : Prop :=
  (k = 0 /\ forall e, ~ closesAt lines e)
  \/ (exists e, k = e + 1 /\ closesAt lines e).

(** [data] is [text] with its body replaced: the front matter of [text]
    through its closing line, a blank line, and [body]. *)
Definition withNewBody (text body data : string) : Prop :=
  exists k,
    frontMatterThrough (split (ascii_of_nat 10) text) k
    /\ data = join nl (firstn k (split (ascii_of_nat 10) text) ++ [""; body]).

(** A promise that writes the file at most once, as its last step. *)
Definition SingleWrite (path : string) (m : IO unit) : Prop :=
  forall w w' r,
    m w = (r, w') ->
    match r with
    | None => files w' = files w
    | Some _ => exists data, files w' = JsMap.set (files w) path (File data)
    end.

End WriteVocabulary.

Section QueryVocabulary.
Import DefinitionManager.

(** The copies of loaded Definitions that go under a key. *)
Definition filedUnder (k : string) (ds : list Defn) : list Defn :=
  flat_map (fun d => repeat d (countKey k (keysOf d))) ds.

(** The Definitions of a list that do not come from a file. *)
Definition notFrom (p : string) (l : list Defn) : list Defn :=
  filter (fun d => negb (sourceFile d == p)) l.

End QueryVocabulary.

Section BlockVocabulary.
Import Js ConsolidatedParser.

(** The block whose header is line [i] parses to [d]. *)
Definition blockAt (pat : DividerPattern) (lines : list string)
    (filePath : string) (i : nat) (d : Defn) : Prop :=
  exists l e,
    nth_error lines i = Some l
    /\ isHeader (trim l) = true
    /\ parseBlock pat lines i filePath = Ok (Some d, e).

(** What the line right after header [i] gives as aliases: the names
    between its asterisks when it is an alias line, nothing otherwise. *)
Definition aliasesAfter (lines : list string) (i : nat) : list string :=
  match nth_error lines (i + 1) with
  | Some l1 =>
      if startsWith (trim l1) "*" && endsWith (trim l1) "*"
         && (2 <? length (trim l1))
      then parseAliases (substring2 (trim l1) 1 (length (trim l1) - 1))
      else []
  | None => []
  end.

(** A line that may stand in the content of a block. *)
Definition contentLine (pat : DividerPattern) (lines : list string)
    (l : string) : Prop :=
  In l lines /\ isDivider pat (trim l) = false /\ isHeader (trim l) = false.

(** A list of lines that neither starts nor ends with a blank line. *)
Definition noBlankEnds (cl : list string) : Prop :=
  (forall l rest, cl = l :: rest -> trim l <> "")
  /\ (forall pre l, cl = pre ++ [l] -> trim l <> "").

(** The line number of a Definition, 0 when it has none. *)
Definition lineOf (d : Defn) : nat :=
  match lineNumber d with
  | Some n => n
  | None => 0
  end.

End BlockVocabulary.

Section TextVocabulary.
Import Js.

(** No newline in the string. *)
Fixpoint oneLine (s : string) : bool :=
  match s with
  | EmptyString => true
  | String c s' => negb (Ascii.eqb c (ascii_of_nat 10)) && oneLine s'
  end.

(** The character does not occur in the string. *)
Fixpoint without (c : ascii) (s : string) : bool :=
  match s with
  | EmptyString => true
  | String x s' => negb (Ascii.eqb x c) && without c s'
  end.

(** Empty, or starting with a character that is not white space. *)
Definition headNotSpace (s : string) : Prop :=
  match s with
  | EmptyString => True
  | String c _ => isSpace c = false
  end.

(** An alias as the parsers mean to keep it: not empty, no white space
    around it. *)
Definition cleanAlias (a : string) : Prop := a <> "" /\ trim a = a.

End TextVocabulary.

Section OccurrenceVocabulary.
Import Js RegExp.

(** A string as the [i] flag compares it: every code unit replaced by
    its canonical form. *)
Fixpoint folded (s : string) : string :=
  match s with
  | EmptyString => EmptyString
  | String c s' => String (canonicalize c) (folded s')
  end.

(** Every code unit of the string is an ASCII character. *)
Fixpoint isAscii (s : string) : bool :=
  match s with
  | EmptyString => true
  | String c s' => (code c <? 128) && isAscii s'
  end.

(** The [n] code units of the text from offset [i] on stand between two
    word boundaries. *)
Definition wholeWordAt (n : nat) (text : string) (i : nat) : Prop :=
  isBoundary text i = true
  /\ isBoundary text (i + n) = true
  /\ i + n <= length text.

(** The phrase stands in the text at offset [i] as a whole word, as the
    expression [\bphrase\b] with the [i] flag sees it: a word boundary
    on either side, and between them code units with the canonical forms
    of those of the phrase. *)
Definition occursAt (p text : string) (i : nat) : Prop :=
  wholeWordAt (length p) text i
  /\ folded (substring i (length p) text) = folded p.

End OccurrenceVocabulary.

Section FolderVocabulary.

(** The [md] files below an entry, depth first, each with what reading
    it gives. *)
Fixpoint mdFiles (e : Entry) : list (TFile * option string) :=
  match e with
  | EFile file extension read =>
      if extension == "md" then [(file, read)] else []
  | EFolder children => flat_map mdFiles children
  end.

(** The [md] files below what the definition folder resolves to: none
    when the path is missing or names a file. *)
Definition mdFilesOf (folder : option Entry) : list (TFile * option string) :=
  match folder with
  | Some (EFolder children) => flat_map mdFiles children
  | _ => []
  end.

End FolderVocabulary.

(* ================================================================== *)
(** * Properties *)

(** ** Strings *)

Lemma eqb_true_iff (a b : string) : (a == b) = true <-> a = b.
Proof. apply String.eqb_eq. Qed.

Lemma eqb_false_iff (a b : string) : (a == b) = false <-> a <> b.
Proof. apply String.eqb_neq. Qed.

Lemma prefix_app (p s : string) :
  prefix p s = true <-> exists rest, s = (p ++ rest)%string.
Proof.
  revert s; induction p as [|c p IH]; intros s; simpl.
  - split; [intros _; now exists s | intros _; now destruct s].
  - destruct s as [|c' s].
    + split; [discriminate | intros [r Hr]; discriminate].
    + simpl. destruct (Ascii.ascii_dec c c') as [->|Hne].
      * rewrite IH. split; intros [r Hr]; exists r.
        -- now rewrite Hr.
        -- now inversion Hr.
      * split; [discriminate | intros [r Hr]; inversion Hr; congruence].
Qed.

(* ------------------------------------------------------------------ *)
(** ** The model on small inputs *)

Example trim_both_ends : Js.trim "  # Widget  " = "# Widget".
Proof. reflexivity. Qed.

Example split_keeps_empty_fields : Js.split "," "a,,b," = ["a"; ""; "b"; ""].
Proof. reflexivity. Qed.

Example parse_skips_front_matter :
  ConsolidatedParser.parse hyphens
    (Js.join Js.nl ["---"; "def-type: consolidated"; "# Not a block"; "---";
                    "# Term"; "*t, the term ,*"; "Body."; "___"; "More."])
    "d.md"
  = Ok [ {| phrase := "Term"; aliases := ["t"; "the term"];
            content := Js.join Js.nl ["Body."; "___"; "More."];
            sourceFile := "d.md"; sourceType := consolidated;
            lineNumber := Some 5; blockId := None |} ].
Proof. vm_compute. reflexivity. Qed.

Example parse_both_dividers :
  ConsolidatedParser.parse both
    (Js.join Js.nl ["# A"; "one"; "___"; "stray"; "# B"; ""; "two"; ""])
    "d.md"
  = Ok [ {| phrase := "A"; aliases := []; content := "one";
            sourceFile := "d.md"; sourceType := consolidated;
            lineNumber := Some 1; blockId := None |};
         {| phrase := "B"; aliases := []; content := "two";
            sourceFile := "d.md"; sourceType := consolidated;
            lineNumber := Some 5; blockId := None |} ].
Proof. vm_compute. reflexivity. Qed.

Example parse_unterminated_front_matter :
  ConsolidatedParser.parse hyphens
    (Js.join Js.nl ["---"; "# Lost"; "text"]) "d.md" = Ok [].
Proof. vm_compute. reflexivity. Qed.

Example scan_gadget :
  EditorManager.findPhrases 29 "I bought a gadget yesterday"
    ["Widget"; "gadget"; "Gizmo"]
  = Ok [ {| EditorManager.phrase := "gadget";
            EditorManager.from := 11; EditorManager.to := 17 |} ].
Proof. vm_compute. reflexivity. Qed.

Example scan_is_case_insensitive_and_whole_word :
  EditorManager.findPhrases 40 "The CPU, a cpu; cpus and C.P.U. (c.p.u.x)"
    ["cpu"; "c.p.u."]
  = Ok [ {| EditorManager.phrase := "CPU";
            EditorManager.from := 4; EditorManager.to := 7 |};
         {| EditorManager.phrase := "cpu";
            EditorManager.from := 11; EditorManager.to := 14 |};
         {| EditorManager.phrase := "c.p.u.";
            EditorManager.from := 33; EditorManager.to := 39 |} ].
Proof. vm_compute. reflexivity. Qed.

Example escape_keeps_the_phrase_literal :
  RegExp.escape "a.b (c)" = "a\.b \(c\)".
Proof. reflexivity. Qed.

Example removal_prunes_keys :
  JsMap.keys
    (definitions
       (DefinitionManager.removeFromCache
          (DefinitionManager.addToCache
             (DefinitionManager.addToCache DefinitionManager.emptyCache cpuDef)
             ramDef)
          "defs/b.md"))
  = ["cpu"; "central processing unit"].
Proof. reflexivity. Qed.

(* ------------------------------------------------------------------ *)
(** ** The consolidated parser on the sample file *)

(** C6, as the code has it: the sample parses to Widget (line 1, alias
    gadget) and Gizmo (no alias); each line number is the 1-indexed line
    of the block's header, which for Gizmo is line 8. *)
Theorem parse_widget_sample :
  ConsolidatedParser.parse hyphens widgetInput "defs.md"
  = Ok [ {| phrase := "Widget"; aliases := ["gadget"];
            content := "A small mechanical device.";
            sourceFile := "defs.md"; sourceType := consolidated;
            lineNumber := Some 1; blockId := None |};
         {| phrase := "Gizmo"; aliases := [];
            content := "Another small device.";
            sourceFile := "defs.md"; sourceType := consolidated;
            lineNumber := Some 8; blockId := None |} ]
  /\ List.length (Js.split (ascii_of_nat 10) widgetInput) = 10
  /\ nth_error (Js.split (ascii_of_nat 10) widgetInput) 0 = Some "# Widget"
  /\ nth_error (Js.split (ascii_of_nat 10) widgetInput) 7 = Some "# Gizmo".
Proof.
  repeat split; vm_compute; reflexivity.
Qed.

(** C6 as the spec words it does not hold: the second Definition is not
    on line 9. *)
Lemma parse_widget_sample_not_line_9 :
  ~ (exists d1 d2,
       ConsolidatedParser.parse hyphens widgetInput "defs.md" = Ok [d1; d2]
       /\ phrase d2 = "Gizmo" /\ lineNumber d2 = Some 9).
Proof.
  intros (d1 & d2 & H & _ & H9).
  vm_compute in H. inversion H; subst. discriminate H9.
Qed.

(* ------------------------------------------------------------------ *)
(** ** Lookup *)

Lemma snoc_not_nil {A} (l : list A) (x : A) : l ++ [x] <> [].
Proof. destruct l; discriminate. Qed.

Lemma filter_head_find {A} (f : A -> bool) (l : list A) :
  match filter f l with d :: _ => Some d | [] => None end = find f l.
Proof.
  induction l as [|x l IH]; simpl; [reflexivity|].
  now destruct (f x).
Qed.

Section Lookup.
Import DefinitionManager.

(** C4: without a context (or with an empty one) [getDefinition] is the
    first Definition stored under the lowercased key; with a non-empty
    context it is the first stored one whose file belongs to the context;
    a Definition that is alone under its key and comes from a.md is not
    found from b.md, and is found from a.md and without a context. *)
Theorem getDefinition_first_match (c : DefinitionCache) (ph : string) :
  getDefinition c ph None
    = hd_error (stored (definitions c) (Js.toLowerCase ph))
  /\ getDefinition c ph (Some [])
    = hd_error (stored (definitions c) (Js.toLowerCase ph))
  /\ (forall f fs,
        getDefinition c ph (Some (f :: fs))
        = find (fun d => Js.includes (f :: fs) (sourceFile d))
               (stored (definitions c) (Js.toLowerCase ph)))
  /\ (forall d,
        stored (definitions c) (Js.toLowerCase ph) = [d] ->
        sourceFile d = "a.md" ->
        getDefinition c ph (Some ["b.md"]) = None
        /\ getDefinition c ph (Some ["a.md"]) = Some d
        /\ getDefinition c ph None = Some d).
Proof.
  unfold getDefinition, stored.
  destruct (JsMap.get (definitions c) (Js.toLowerCase ph)) as [[|d0 rest]|];
    cbn [hasContext hd_error]; repeat split; try reflexivity;
    try discriminate.
  - intros f fs. apply filter_head_find.
  - inversion H; subst. cbn. now rewrite H0.
  - inversion H; subst. cbn. now rewrite H0.
  - now inversion H.
Qed.

Lemma getDefinition_first_match_witness :
  getDefinition (addToCache emptyCache termDef) "TERM" (Some ["b.md"]) = None
  /\ getDefinition (addToCache emptyCache termDef) "TERM" (Some ["a.md"])
     = Some termDef
  /\ getDefinition (addToCache emptyCache termDef) "TERM" None = Some termDef.
Proof.
  apply (getDefinition_first_match (addToCache emptyCache termDef) "TERM");
    reflexivity.
Defined.

End Lookup.

(* ------------------------------------------------------------------ *)
(** ** Insertion-ordered maps *)

Section MapFacts.
Context {V : Type}.
Implicit Types (m : JsMap.t V) (k : string) (v : V).

Lemma get_set m k v k' :
  JsMap.get (JsMap.set m k v) k' = if k == k' then Some v else JsMap.get m k'.
Proof.
  induction m as [|[k0 v0] m IH]; simpl.
  - reflexivity.
  - destruct (k0 == k) eqn:E0; simpl.
    + apply eqb_true_iff in E0; subst k0.
      now destruct (k == k').
    + rewrite IH. destruct (k0 == k') eqn:E1; [|reflexivity].
      apply eqb_true_iff in E1; subst k0. now rewrite String.eqb_sym, E0.
Qed.

Lemma get_In m k v : JsMap.get m k = Some v -> In (k, v) m.
Proof.
  induction m as [|[k0 v0] m IH]; simpl; [discriminate|].
  destruct (k0 == k) eqn:E.
  - apply eqb_true_iff in E; subst. intros [= ->]. now left.
  - intros H. right. now apply IH.
Qed.

Lemma In_get m k v :
  NoDup (JsMap.keys m) -> In (k, v) m -> JsMap.get m k = Some v.
Proof.
  induction m as [|[k0 v0] m IH]; simpl; [intros _ []|].
  intros Hnd [[= -> ->]|Hin].
  - now rewrite String.eqb_refl.
  - inversion Hnd as [|? ? Hk0 Hnd']; subst.
    destruct (k0 == k) eqn:E.
    + apply eqb_true_iff in E; subst. exfalso. apply Hk0.
      change k with (fst (k, v)). now apply in_map.
    + now apply IH.
Qed.

Lemma get_None_keys m k : JsMap.get m k = None <-> ~ In k (JsMap.keys m).
Proof.
  induction m as [|[k0 v0] m IH]; simpl.
  - tauto.
  - destruct (k0 == k) eqn:E.
    + apply eqb_true_iff in E; subst. split; [discriminate|]. tauto.
    + apply eqb_false_iff in E. rewrite IH. tauto.
Qed.

Lemma keys_set m k v :
  JsMap.keys (JsMap.set m k v)
  = if JsMap.has m k then JsMap.keys m else JsMap.keys m ++ [k].
Proof.
  unfold JsMap.has.
  induction m as [|[k0 v0] m IH]; simpl; [reflexivity|].
  destruct (k0 == k) eqn:E; simpl.
  - apply eqb_true_iff in E. now subst.
  - rewrite IH. now destruct (JsMap.get m k).
Qed.

Lemma NoDup_keys_set m k v :
  NoDup (JsMap.keys m) -> NoDup (JsMap.keys (JsMap.set m k v)).
Proof.
  intros H. rewrite keys_set. unfold JsMap.has.
  destruct (JsMap.get m k) eqn:E; [assumption|].
  apply get_None_keys in E.
  apply NoDup_app; [assumption | repeat constructor; simpl; tauto |].
  intros x Hx [<-|[]]. contradiction.
Qed.

Lemma In_set m k v k' v' :
  In (k', v') (JsMap.set m k v) -> (k' = k /\ v' = v) \/ In (k', v') m.
Proof.
  induction m as [|[k0 v0] m IH]; simpl.
  - intros [[= <- <-]|[]]. now left.
  - destruct (k0 == k); simpl.
    + intros [[= <- <-]|H]; [now left | now right; right].
    + intros [H|H]; [now right; left|].
      destruct (IH H); [now left | now right; right].
Qed.

Lemma get_delete m k k' :
  JsMap.get (JsMap.delete m k) k' = if k == k' then None else JsMap.get m k'.
Proof.
  unfold JsMap.delete.
  induction m as [|[k0 v0] m IH]; simpl.
  - now destruct (k == k').
  - destruct (k0 == k) eqn:E0; simpl.
    + rewrite IH. apply eqb_true_iff in E0; subst k0.
      now destruct (k == k').
    + rewrite IH. destruct (k0 == k') eqn:E1; [|reflexivity].
      apply eqb_true_iff in E1; subst k0. now rewrite String.eqb_sym, E0.
Qed.

(** With unique keys, setting a key that is there rewrites its entry in
    place. *)
Lemma set_middle (pre post : JsMap.t V) k v v' :
  ~ In k (JsMap.keys pre) ->
  JsMap.set (pre ++ (k, v) :: post) k v' = pre ++ (k, v') :: post.
Proof.
  induction pre as [|[k0 v0] pre IH]; simpl; intros Hk.
  - now rewrite String.eqb_refl.
  - destruct (k0 == k) eqn:E.
    + apply eqb_true_iff in E. tauto.
    + rewrite IH; tauto.
Qed.

(** A loop over the entries that resets each key rewrites every value. *)
Lemma fold_set_entries (g : V -> V) (todo done : JsMap.t V) :
  NoDup (JsMap.keys (done ++ todo)) ->
  fold_left (fun m e => JsMap.set m (fst e) (g (snd e))) todo (done ++ todo)
  = done ++ map (fun e => (fst e, g (snd e))) todo.
Proof.
  revert done; induction todo as [|[k v] todo IH]; intros done Hnd; simpl.
  - reflexivity.
  - rewrite set_middle.
    + change (done ++ (k, g v) :: todo) with (done ++ [(k, g v)] ++ todo).
      rewrite app_assoc, IH; [now rewrite <- app_assoc|].
      unfold JsMap.keys in *. rewrite <- app_assoc. simpl.
      rewrite map_app in *. exact Hnd.
    + unfold JsMap.keys in *. rewrite map_app in Hnd. simpl in Hnd.
      apply NoDup_remove_2 in Hnd. intros Hin. apply Hnd.
      apply in_or_app. now left.
Qed.

(** A loop over entries that deletes the keys chosen by [p]. *)
Lemma fold_delete_entries (p : V -> bool) (todo m : JsMap.t V) :
  fold_left (fun m e => if p (snd e) then JsMap.delete m (fst e) else m) todo m
  = filter (fun e' => negb (existsb (fun e => p (snd e) && (fst e == fst e'))
                                    todo)) m.
Proof.
  revert m; induction todo as [|[k v] todo IH]; intros m; simpl.
  - induction m as [|e m IHm]; simpl; congruence.
  - rewrite IH. destruct (p v); simpl.
    + unfold JsMap.delete.
      induction m as [|e m IHm]; simpl; [reflexivity|].
      rewrite (String.eqb_sym k (fst e)).
      destruct (fst e == k); simpl; [exact IHm|].
      destruct (negb _); [now rewrite IHm | exact IHm].
    + reflexivity.
Qed.

Lemma existsb_unique_key (p : V -> bool) m k v :
  NoDup (JsMap.keys m) -> In (k, v) m ->
  existsb (fun e => p (snd e) && (fst e == k)) m = p v.
Proof.
  induction m as [|[k0 v0] m IH]; simpl; [intros _ []|].
  intros Hnd Hin. inversion Hnd as [|? ? Hk0 Hnd']; subst.
  destruct Hin as [[= -> ->]|Hin].
  - rewrite String.eqb_refl, andb_true_r.
    destruct (p v); [reflexivity|]. simpl.
    apply not_true_is_false. intros H. apply existsb_exists in H.
    destruct H as ([k1 v1] & Hin & H). simpl in H.
    apply andb_prop in H. destruct H as [_ H]. apply eqb_true_iff in H. subst.
    apply Hk0. change k with (fst (k, v1)). now apply in_map.
  - rewrite IH by assumption.
    destruct (k0 == k) eqn:E.
    + apply eqb_true_iff in E; subst. exfalso. apply Hk0.
      change k with (fst (k, v)). now apply in_map.
    + now rewrite andb_false_r.
Qed.

Lemma fold_delete_self (p : V -> bool) m :
  NoDup (JsMap.keys m) ->
  fold_left (fun m e => if p (snd e) then JsMap.delete m (fst e) else m) m m
  = filter (fun e => negb (p (snd e))) m.
Proof.
  intros Hnd. rewrite fold_delete_entries.
  apply filter_ext_in. intros [k v] Hin. simpl.
  now rewrite (existsb_unique_key p m k v).
Qed.

Lemma get_filter_unique (q : string * V -> bool) m k :
  NoDup (JsMap.keys m) ->
  JsMap.get (filter q m) k
  = match JsMap.get m k with
    | Some v => if q (k, v) then Some v else None
    | None => None
    end.
Proof.
  induction m as [|[k0 v0] m IH]; simpl; [reflexivity|].
  intros Hnd. inversion Hnd as [|? ? Hk0 Hnd']; subst.
  destruct (k0 == k) eqn:E.
  - apply eqb_true_iff in E; subst k0.
    destruct (q (k, v0)); simpl.
    + now rewrite String.eqb_refl.
    + rewrite IH by assumption.
      apply get_None_keys in Hk0. now rewrite Hk0.
  - destruct (q (k0, v0)); simpl; [rewrite E|]; now apply IH.
Qed.

Lemma get_map_values (g : V -> V) m k :
  JsMap.get (map (fun e => (fst e, g (snd e))) m) k
  = option_map g (JsMap.get m k).
Proof.
  induction m as [|[k0 v0] m IH]; simpl; [reflexivity|].
  now destruct (k0 == k).
Qed.

Lemma keys_map_values (g : V -> V) m :
  JsMap.keys (map (fun e => (fst e, g (snd e))) m) = JsMap.keys m.
Proof.
  unfold JsMap.keys. rewrite map_map. reflexivity.
Qed.

Lemma NoDup_keys_filter (q : string * V -> bool) m :
  NoDup (JsMap.keys m) -> NoDup (JsMap.keys (filter q m)).
Proof.
  induction m as [|[k0 v0] m IH]; simpl; [trivial|].
  intros Hnd. inversion Hnd as [|? ? Hk0 Hnd']; subst.
  destruct (q (k0, v0)); simpl; [|now apply IH].
  constructor; [|now apply IH].
  intros Hin. apply Hk0. unfold JsMap.keys in *.
  apply in_map_iff in Hin. destruct Hin as (e & <- & He).
  apply filter_In in He. apply in_map. tauto.
Qed.

End MapFacts.

(* ------------------------------------------------------------------ *)
(** ** The definition index *)

Section Index.
Import DefinitionManager.

Lemma get_pushUnder {V} (m : JsMap.t (list V)) k x k' :
  JsMap.get (pushUnder m k x) k'
  = if k == k'
    then Some (match JsMap.get m k with Some l => l | None => [] end ++ [x])
    else JsMap.get m k'.
Proof.
  unfold pushUnder, JsMap.has.
  destruct (JsMap.get m k) as [l|] eqn:E; simpl.
  - rewrite E, get_set. reflexivity.
  - rewrite get_set, String.eqb_refl, !get_set.
    destruct (k == k'); reflexivity.
Qed.

Lemma NoDup_keys_pushUnder {V} (m : JsMap.t (list V)) k x :
  NoDup (JsMap.keys m) -> NoDup (JsMap.keys (pushUnder m k x)).
Proof.
  intros H. unfold pushUnder.
  destruct (negb (JsMap.has m k)).
  - destruct (JsMap.get (JsMap.set m k []) k);
      repeat apply NoDup_keys_set; assumption.
  - destruct (JsMap.get m k); [apply NoDup_keys_set|]; assumption.
Qed.

Lemma In_pushUnder {V} (m : JsMap.t (list V)) k x k' l' e :
  In (k', l') (pushUnder m k x) -> In e l' ->
  e = x \/ exists k0 l0, In (k0, l0) m /\ In e l0.
Proof.
  unfold pushUnder, JsMap.has.
  destruct (JsMap.get m k) as [l|] eqn:E; simpl.
  - rewrite E. intros H He. apply In_set in H.
    destruct H as [[-> ->]|H]; [|right; eauto].
    apply in_app_or in He. destruct He as [He|[<-|[]]]; [|now left].
    right. exists k, l. split; [now apply get_In | assumption].
  - rewrite get_set, String.eqb_refl. intros H He.
    apply In_set in H. destruct H as [[-> ->]|H].
    + destruct He as [<-|[]]. now left.
    + apply In_set in H. destruct H as [[-> ->]|H]; [destruct He|].
      right; eauto.
Qed.

Lemma stored_pushUnder m k (d : Defn) k' :
  stored (pushUnder m k d) k'
  = stored m k' ++ (if k == k' then [d] else []).
Proof.
  unfold stored. rewrite get_pushUnder.
  destruct (k == k') eqn:E.
  - apply eqb_true_iff in E; subst. reflexivity.
  - now rewrite app_nil_r.
Qed.

Lemma stored_fold_push (d : Defn) (al : list string) m k' :
  stored (fold_left (fun defs alias => pushUnder defs (Js.toLowerCase alias) d)
                    al m) k'
  = stored m k' ++ repeat d (countKey k' (map Js.toLowerCase al)).
Proof.
  revert m; induction al as [|a al IH]; intros m; simpl.
  - now rewrite app_nil_r.
  - rewrite IH, stored_pushUnder, <- app_assoc. f_equal.
    destruct (Js.toLowerCase a == k'); reflexivity.
Qed.

Lemma stored_addToCache c d k :
  stored (definitions (addToCache c d)) k
  = stored (definitions c) k ++ repeat d (countKey k (keysOf d)).
Proof.
  unfold addToCache; simpl.
  rewrite stored_fold_push, stored_pushUnder, <- app_assoc. f_equal.
  destruct (Js.toLowerCase (phrase d) == k); reflexivity.
Qed.

Lemma countKey_pos k ks : In k ks -> 0 < countKey k ks.
Proof.
  induction ks as [|k0 ks IH]; simpl; [intros []|].
  intros [->|H].
  - rewrite String.eqb_refl. lia.
  - specialize (IH H). lia.
Qed.

Lemma get_fold_push_None (d : Defn) (al : list string) m k :
  JsMap.get (fold_left
               (fun defs alias => pushUnder defs (Js.toLowerCase alias) d)
               al m) k = None ->
  JsMap.get m k = None.
Proof.
  revert m; induction al as [|a al IH]; intros m; simpl; [trivial|].
  intros H. apply IH in H. rewrite get_pushUnder in H.
  destruct (Js.toLowerCase a == k); [discriminate | assumption].
Qed.

Lemma NoDup_keys_fold_push (d : Defn) (al : list string) m :
  NoDup (JsMap.keys m) ->
  NoDup (JsMap.keys
           (fold_left
              (fun defs alias => pushUnder defs (Js.toLowerCase alias) d)
              al m)).
Proof.
  revert m; induction al as [|a al IH]; intros m H; simpl; [assumption|].
  apply IH. now apply NoDup_keys_pushUnder.
Qed.

Lemma get_Some_stored (m : JsMap.t (list Defn)) k l :
  JsMap.get m k = Some l -> stored m k = l.
Proof.
  unfold stored. now intros ->.
Qed.

Lemma get_fold_push_nonempty (d : Defn) (al : list string) m :
  (forall k, JsMap.get m k <> Some []) ->
  forall k,
    JsMap.get (fold_left
                 (fun defs alias => pushUnder defs (Js.toLowerCase alias) d)
                 al m) k <> Some [].
Proof.
  revert m; induction al as [|a al IH]; intros m H; simpl; [assumption|].
  apply IH. intros k. rewrite get_pushUnder.
  destruct (Js.toLowerCase a == k); [|apply H].
  intros [= E]. now apply snoc_not_nil in E.
Qed.

Lemma fileIndex_addToCache c d :
  fileIndex (addToCache c d)
  = pushUnder (fileIndex c) (sourceFile d) (phrase d).
Proof. reflexivity. Qed.

Lemma CacheInv_empty : CacheInv emptyCache.
Proof.
  split; simpl.
  - constructor.
  - discriminate.
  - intros k d [].
  - discriminate.
Qed.

Lemma CacheInv_add c d : CacheInv c -> CacheInv (addToCache c d).
Proof.
  intros [Hk Hne Hown Hph]. split.
  - simpl. apply NoDup_keys_fold_push. now apply NoDup_keys_pushUnder.
  - simpl. apply get_fold_push_nonempty. intros k. rewrite get_pushUnder.
    destruct (Js.toLowerCase (phrase d) == k); [|apply Hne].
    intros [= E]. now apply snoc_not_nil in E.
  - intros k e. rewrite stored_addToCache. intros Hin.
    apply in_app_or in Hin. unfold JsMap.has. simpl. rewrite get_pushUnder.
    destruct (sourceFile d == sourceFile e) eqn:E; [reflexivity|].
    destruct Hin as [Hin|Hin].
    + apply Hown in Hin. exact Hin.
    + apply repeat_spec in Hin. subst e. now rewrite String.eqb_refl in E.
  - intros f phs ph. rewrite fileIndex_addToCache, get_pushUnder.
    destruct (sourceFile d == f) eqn:E.
    + apply eqb_true_iff in E. intros [= <-] Hin.
      apply in_app_or in Hin. destruct Hin as [Hin|[<-|[]]].
      * destruct (JsMap.get (fileIndex c) (sourceFile d)) as [l|] eqn:El;
          [|destruct Hin].
        subst f. destruct (Hph _ _ _ El Hin) as (e & He & Hp & Hf).
        exists e. repeat split; try assumption.
        rewrite stored_addToCache. apply in_or_app. now left.
      * exists d. repeat split; [|assumption].
        rewrite stored_addToCache. apply in_or_app. right.
        assert (H : 0 < countKey (Js.toLowerCase (phrase d)) (keysOf d))
          by (apply countKey_pos; now left).
        destruct (countKey _ _); [lia | now left].
    + intros El Hin. destruct (Hph _ _ _ El Hin) as (e & He & Hp & Hf).
      exists e. repeat split; try assumption.
      rewrite stored_addToCache. apply in_or_app. now left.
Qed.

(** What [removeFromCache] leaves under each key, for a file that the
    file index knows. *)
Lemma removeFromCache_definitions c p phs :
  NoDup (JsMap.keys (definitions c)) ->
  JsMap.get (fileIndex c) p = Some phs ->
  definitions (removeFromCache c p)
  = filter (fun e => negb (List.length (snd e) =? 0))
      (map (fun e => (fst e,
                      filter (fun d => negb (sourceFile d == p)) (snd e)))
           (definitions c)).
Proof.
  intros Hnd Hp. unfold removeFromCache. rewrite Hp. simpl.
  unfold JsMap.entries.
  pose proof (fold_set_entries
                (filter (fun d => negb (sourceFile d == p)))
                (definitions c) []) as H1.
  simpl in H1. rewrite H1 by assumption.
  apply (fold_delete_self (fun l => List.length l =? 0)).
  now rewrite keys_map_values.
Qed.

Lemma removeFromCache_get c p phs k :
  NoDup (JsMap.keys (definitions c)) ->
  JsMap.get (fileIndex c) p = Some phs ->
  JsMap.get (definitions (removeFromCache c p)) k
  = match JsMap.get (definitions c) k with
    | Some l =>
        match filter (fun d => negb (sourceFile d == p)) l with
        | [] => None
        | r => Some r
        end
    | None => None
    end.
Proof.
  intros Hnd Hp. rewrite (removeFromCache_definitions c p phs) by assumption.
  rewrite get_filter_unique by now rewrite keys_map_values.
  rewrite get_map_values.
  destruct (JsMap.get (definitions c) k) as [l|]; simpl; [|reflexivity].
  now destruct (filter _ l).
Qed.

Lemma stored_removeFromCache c p phs k :
  NoDup (JsMap.keys (definitions c)) ->
  JsMap.get (fileIndex c) p = Some phs ->
  stored (definitions (removeFromCache c p)) k
  = filter (fun d => negb (sourceFile d == p)) (stored (definitions c) k).
Proof.
  intros Hnd Hp. unfold stored.
  rewrite (removeFromCache_get c p phs) by assumption.
  destruct (JsMap.get (definitions c) k) as [l|]; [|reflexivity].
  now destruct (filter _ l).
Qed.

Lemma CacheInv_remove c p : CacheInv c -> CacheInv (removeFromCache c p).
Proof.
  intros Hc. destruct (JsMap.get (fileIndex c) p) as [phs|] eqn:Hp.
  2:{ unfold removeFromCache. now rewrite Hp. }
  destruct Hc as [Hk Hne Hown Hph]. split.
  - rewrite (removeFromCache_definitions c p phs) by assumption.
    apply NoDup_keys_filter. now rewrite keys_map_values.
  - intros k. rewrite (removeFromCache_get c p phs) by assumption.
    destruct (JsMap.get (definitions c) k) as [l|]; [|discriminate].
    destruct (filter _ l); discriminate.
  - intros k d. rewrite (stored_removeFromCache c p phs) by assumption.
    intros Hin. apply filter_In in Hin. destruct Hin as [Hin Hd].
    unfold removeFromCache. rewrite Hp. unfold JsMap.has. simpl.
    rewrite get_delete. apply negb_true_iff in Hd.
    rewrite String.eqb_sym, Hd. apply Hown in Hin. exact Hin.
  - intros f phs' ph. unfold removeFromCache at 1. rewrite Hp. simpl.
    rewrite get_delete. destruct (p == f) eqn:E; [discriminate|].
    intros Hf Hin. destruct (Hph _ _ _ Hf Hin) as (d & Hd & Hdp & Hdf).
    exists d. repeat split; try assumption.
    rewrite (stored_removeFromCache c p phs) by assumption.
    apply filter_In. split; [assumption|].
    subst f. now rewrite String.eqb_sym, E.
Qed.

Lemma Reachable_inv c : Reachable c -> CacheInv c.
Proof.
  induction 1.
  - apply CacheInv_empty.
  - now apply CacheInv_add.
  - now apply CacheInv_remove.
Qed.

End Index.

Section Eviction.
Import DefinitionManager.

(** C1: from any reachable cache, [removeFromCache p] leaves no
    Definition of file [p] under any key, leaves no key with an empty
    list (a key all of whose Definitions came from [p] is gone), drops
    [p] from the file index, and every phrase the file index still lists
    has its Definition under the lowercased phrase. *)
Theorem removeFromCache_complete (c : DefinitionCache) (p : string) :
  Reachable c ->
  (forall k l d,
      In (k, l) (JsMap.entries (definitions (removeFromCache c p))) ->
      In d l -> sourceFile d <> p)
  /\ (forall k l,
        In (k, l) (JsMap.entries (definitions (removeFromCache c p))) ->
        l <> [])
  /\ (forall k,
        (forall d, In d (stored (definitions c) k) -> sourceFile d = p) ->
        JsMap.get (definitions (removeFromCache c p)) k = None)
  /\ JsMap.has (fileIndex (removeFromCache c p)) p = false
  /\ (forall f phs ph,
        JsMap.get (fileIndex (removeFromCache c p)) f = Some phs ->
        In ph phs ->
        exists d,
          In d (stored (definitions (removeFromCache c p)) (Js.toLowerCase ph))
          /\ phrase d = ph /\ sourceFile d = f).
Proof.
  intros Hr.
  pose proof (Reachable_inv c Hr) as Hc.
  pose proof (CacheInv_remove c p Hc) as Hc'.
  destruct (JsMap.get (fileIndex c) p) as [phs|] eqn:Hp.
  - repeat split.
    + intros k l d Hin Hd Heq.
      apply (In_get _ _ _ (inv_keys _ Hc')) in Hin.
      apply get_Some_stored in Hin.
      rewrite (stored_removeFromCache c _ phs) in Hin
        by (assumption || apply (inv_keys _ Hc)).
      subst l. apply filter_In in Hd. destruct Hd as [_ Hd]. cbv beta in Hd.
      now rewrite Heq, String.eqb_refl in Hd.
    + intros k l Hin ->.
      apply (In_get _ _ _ (inv_keys _ Hc')) in Hin.
      now apply (inv_nonempty _ Hc') in Hin.
    + intros k Hall.
      rewrite (removeFromCache_get c p phs)
        by (assumption || apply (inv_keys _ Hc)).
      unfold stored in Hall.
      destruct (JsMap.get (definitions c) k) as [l|]; [|reflexivity].
      destruct (filter _ l) as [|d r] eqn:E; [reflexivity|].
      assert (Hd : In d (filter (fun d => negb (sourceFile d == p)) l))
        by (rewrite E; now left).
      apply filter_In in Hd. destruct Hd as [Hd Hne]. cbv beta in Hne.
      rewrite (Hall d Hd), String.eqb_refl in Hne. discriminate.
    + unfold removeFromCache. rewrite Hp. unfold JsMap.has. simpl.
      now rewrite get_delete, String.eqb_refl.
    + apply (inv_phrase _ Hc').
  - assert (E : removeFromCache c p = c)
      by (unfold removeFromCache; now rewrite Hp).
    rewrite E. repeat split.
    + intros k l d Hin Hd Heq.
      apply (In_get _ _ _ (inv_keys _ Hc)) in Hin.
      apply get_Some_stored in Hin. subst l.
      apply (inv_owner _ Hc) in Hd. unfold JsMap.has in Hd.
      now rewrite Heq, Hp in Hd.
    + intros k l Hin ->.
      apply (In_get _ _ _ (inv_keys _ Hc)) in Hin.
      now apply (inv_nonempty _ Hc) in Hin.
    + intros k Hall.
      destruct (JsMap.get (definitions c) k) as [[|d l]|] eqn:Ek;
        [now apply (inv_nonempty _ Hc) in Ek | | reflexivity].
      exfalso.
      assert (Hd : In d (stored (definitions c) k))
        by (unfold stored; rewrite Ek; now left).
      pose proof (inv_owner _ Hc _ _ Hd) as Ho.
      rewrite (Hall d Hd) in Ho. unfold JsMap.has in Ho.
      now rewrite Hp in Ho.
    + unfold JsMap.has. now rewrite Hp.
    + apply (inv_phrase _ Hc).
Qed.

Lemma removeFromCache_complete_witness :
  Reachable (addToCache (addToCache emptyCache cpuDef) ramDef)
  /\ JsMap.keys
       (definitions
          (removeFromCache (addToCache (addToCache emptyCache cpuDef) ramDef)
                           "defs/a.md"))
     = ["ram"; "memory"]
  /\ JsMap.has
       (fileIndex
          (removeFromCache (addToCache (addToCache emptyCache cpuDef) ramDef)
                           "defs/a.md"))
       "defs/a.md" = false.
Proof.
  split; [repeat constructor|].
  split; [reflexivity|].
  apply (removeFromCache_complete
           (addToCache (addToCache emptyCache cpuDef) ramDef) "defs/a.md").
  repeat constructor.
Defined.

End Eviction.

(* ------------------------------------------------------------------ *)
(** ** Alias fan-out and the list of all Definitions *)

Section FanOut.
Import DefinitionManager.

Lemma includes_In (l : list string) (x : string) :
  Js.includes l x = true <-> In x l.
Proof.
  unfold Js.includes. rewrite existsb_exists. split.
  - intros (y & Hy & E). apply eqb_true_iff in E. now subst.
  - intros H. exists x. split; [assumption | apply String.eqb_refl].
Qed.

Lemma visit_fold (l : list Defn) (acc : list Defn) (seen : list string) :
  fst (fold_left (visit None) l (acc, seen)) = acc ++ firstSeen seen l.
Proof.
  revert acc seen; induction l as [|d l IH]; intros acc seen; simpl.
  - now rewrite app_nil_r.
  - destruct (Js.includes seen (seenKey d)); rewrite IH; [reflexivity|].
    now rewrite <- app_assoc.
Qed.

Lemma fold_concat {A B} (f : A -> B -> A) (ls : list (list B)) (a : A) :
  fold_left (fun st l => fold_left f l st) ls a = fold_left f (List.concat ls) a.
Proof.
  revert a; induction ls as [|l ls IH]; intros a; simpl; [reflexivity|].
  now rewrite fold_left_app, IH.
Qed.

Lemma getAllDefinitions_firstSeen c :
  getAllDefinitions c None = firstSeen [] (allStored c).
Proof.
  unfold getAllDefinitions, allStored.
  now rewrite fold_concat, visit_fold.
Qed.

Lemma firstSeen_In seen l e :
  In e (firstSeen seen l) -> In e l /\ ~ In (seenKey e) seen.
Proof.
  revert seen; induction l as [|d l IH]; intros seen; simpl; [intros []|].
  destruct (Js.includes seen (seenKey d)) eqn:E.
  - intros H. apply IH in H. tauto.
  - intros [<-|H].
    + split; [now left|]. rewrite <- includes_In, E. discriminate.
    + apply IH in H. destruct H as [H1 H2].
      split; [now right|]. intros H3. apply H2, in_or_app. now left.
Qed.

Lemma firstSeen_NoDup seen l : NoDup (map seenKey (firstSeen seen l)).
Proof.
  revert seen; induction l as [|d l IH]; intros seen; simpl; [constructor|].
  destruct (Js.includes seen (seenKey d)); [apply IH|].
  simpl. constructor; [|apply IH].
  intros H. apply in_map_iff in H. destruct H as (e & Hk & He).
  apply firstSeen_In in He. destruct He as [_ He].
  apply He, in_or_app. right. now left.
Qed.

Lemma firstSeen_count seen l d :
  In d l -> ~ In (seenKey d) seen ->
  (forall e, In e l -> seenKey e = seenKey d -> e = d) ->
  count_occ Defn_eq_dec (firstSeen seen l) d = 1.
Proof.
  revert seen; induction l as [|x l IH]; intros seen; simpl; [intros []|].
  intros Hin Hseen Huniq.
  destruct (Js.includes seen (seenKey x)) eqn:E.
  - apply includes_In in E.
    destruct Hin as [->|Hin]; [contradiction|].
    apply IH; auto.
  - simpl. destruct (Defn_eq_dec x d) as [->|Hne].
    + f_equal. apply count_occ_not_In. intros H.
      apply firstSeen_In in H. destruct H as [_ H].
      apply H, in_or_app. right. now left.
    + destruct Hin as [->|Hin]; [contradiction|].
      apply IH; auto.
      intros H. apply in_app_or in H. destruct H as [H|[H|[]]];
        [contradiction|].
      apply Hne. apply Huniq; [now left | assumption].
Qed.

Lemma getDefinitions_stored c ph :
  getDefinitions c ph None = stored (definitions c) (Js.toLowerCase ph).
Proof.
  unfold getDefinitions, stored.
  now destruct (JsMap.get (definitions c) (Js.toLowerCase ph)) as [[|? ?]|].
Qed.

Lemma getDefinition_stored c ph :
  getDefinition c ph None
  = hd_error (stored (definitions c) (Js.toLowerCase ph)).
Proof.
  unfold getDefinition, stored.
  now destruct (JsMap.get (definitions c) (Js.toLowerCase ph)) as [[|? ?]|].
Qed.

Lemma stored_allStored c k e :
  In e (stored (definitions c) k) -> In e (allStored c).
Proof.
  unfold stored, allStored.
  destruct (JsMap.get (definitions c) k) as [l|] eqn:E; [|intros []].
  intros He. apply in_concat. exists l. split; [|assumption].
  apply get_In in E. unfold JsMap.values.
  change l with (snd (k, l)). now apply in_map.
Qed.

Lemma In_fold_push (d : Defn) (al : list string) m k' l' e :
  In (k', l')
     (fold_left (fun defs alias => pushUnder defs (Js.toLowerCase alias) d)
                al m) ->
  In e l' ->
  e = d \/ exists k0 l0, In (k0, l0) m /\ In e l0.
Proof.
  revert m; induction al as [|a al IH]; intros m; simpl.
  - intros H He. right; eauto.
  - intros H He. destruct (IH _ H He) as [->|(k0 & l0 & H0 & He0)];
      [now left|].
    eapply In_pushUnder; eassumption.
Qed.

Lemma allStored_addToCache c d e :
  In e (allStored (addToCache c d)) -> e = d \/ In e (allStored c).
Proof.
  unfold allStored, JsMap.values. intros H.
  apply in_concat in H. destruct H as (l & Hl & He).
  apply in_map_iff in Hl. destruct Hl as ([k l'] & <- & Hin). simpl in He.
  unfold addToCache in Hin; simpl in Hin.
  destruct (In_fold_push _ _ _ _ _ _ Hin He) as [->|(k0 & l0 & H0 & He0)];
    [now left|].
  destruct (In_pushUnder _ _ _ _ _ _ H0 He0) as [->|(k1 & l1 & H1 & He1)];
    [now left|].
  right. apply in_concat. exists l1. split; [|assumption].
  change l1 with (snd (k1, l1)). now apply in_map.
Qed.

Lemma In_stored_addToCache c d k :
  In k (keysOf d) -> In d (stored (definitions (addToCache c d)) k).
Proof.
  intros Hk. rewrite stored_addToCache. apply in_or_app. right.
  apply countKey_pos in Hk.
  destruct (countKey k (keysOf d)); [lia | now left].
Qed.

(** C5, as the code has it: a Definition just added is listed by
    [getDefinitions] under its lowercased phrase and under each lowercased
    alias (where [getDefinition] finds an entry, and finds this one when
    the key was free); [getAllDefinitions] never lists two Definitions with
    the same [sourceFile:phrase] string, and lists this one exactly once
    when no other stored Definition has its string; CPU with its alias is
    found under both keys and listed once. *)
Theorem addToCache_fan_out (c : DefinitionCache) (d : Defn) :
  In d (getDefinitions (addToCache c d) (phrase d) None)
  /\ getDefinition (addToCache c d) (phrase d) None <> None
  /\ (forall a, In a (aliases d) ->
        In d (getDefinitions (addToCache c d) a None)
        /\ getDefinition (addToCache c d) a None <> None)
  /\ (forall k, In k (keysOf d) -> JsMap.get (definitions c) k = None ->
        hd_error (stored (definitions (addToCache c d)) k) = Some d)
  /\ NoDup (map seenKey (getAllDefinitions (addToCache c d) None))
  /\ ((forall e, In e (allStored c) -> seenKey e = seenKey d -> e = d) ->
      count_occ Defn_eq_dec (getAllDefinitions (addToCache c d) None) d = 1)
  /\ getDefinition (addToCache emptyCache cpuDef) "CPU" None = Some cpuDef
  /\ getDefinition (addToCache emptyCache cpuDef) "Central Processing Unit"
                   None = Some cpuDef
  /\ getAllDefinitions (addToCache emptyCache cpuDef) None = [cpuDef].
Proof.
  assert (Hkeys : forall k, In k (keysOf d) ->
            In d (stored (definitions (addToCache c d)) k))
    by (intros k; apply In_stored_addToCache).
  assert (Hhd : forall k, In k (keysOf d) ->
            hd_error (stored (definitions (addToCache c d)) k) <> None).
  { intros k Hk. specialize (Hkeys k Hk).
    destruct (stored _ k); [destruct Hkeys | discriminate]. }
  repeat split.
  - rewrite getDefinitions_stored. apply Hkeys. now left.
  - rewrite getDefinition_stored. apply Hhd. now left.
  - rewrite getDefinitions_stored. apply Hkeys. right. now apply in_map.
  - rewrite getDefinition_stored. apply Hhd. right. now apply in_map.
  - intros k Hk Hnone. rewrite stored_addToCache. unfold stored.
    rewrite Hnone, app_nil_l. apply countKey_pos in Hk.
    destruct (countKey k (keysOf d)); [lia | reflexivity].
  - rewrite getAllDefinitions_firstSeen. apply firstSeen_NoDup.
  - intros Huniq. rewrite getAllDefinitions_firstSeen.
    apply firstSeen_count.
    + apply (stored_allStored _ (Js.toLowerCase (phrase d))).
      apply Hkeys. now left.
    + intros [].
    + intros e He Hk. apply allStored_addToCache in He.
      destruct He as [->|He]; [reflexivity | now apply Huniq].
Qed.

Lemma addToCache_fan_out_witness :
  count_occ Defn_eq_dec
    (getAllDefinitions (addToCache (addToCache emptyCache cpuDef) ramDef) None)
    ramDef = 1.
Proof.
  apply (addToCache_fan_out (addToCache emptyCache cpuDef) ramDef).
  intros e He Hk. simpl in He.
  destruct He as [<-|[<-|[]]]; discriminate Hk.
Defined.

(** C5 as the spec words it does not hold: of two blocks of one file
    under the same header, the second is added to the cache and is not
    listed by [getAllDefinitions]. *)
Lemma second_block_not_listed :
  In fooSecond
     (getDefinitions (addToCache (addToCache emptyCache fooFirst) fooSecond)
                     "Foo" None)
  /\ count_occ Defn_eq_dec
       (getAllDefinitions (addToCache (addToCache emptyCache fooFirst) fooSecond)
                          None)
       fooSecond = 0.
Proof.
  split; [right; now left | reflexivity].
Qed.

End FanOut.

(* ------------------------------------------------------------------ *)
(** ** The scope of the file-system handlers *)

Section Scope.
Import DefinitionManager.
Variable loadDefinitionFile : string -> list Defn.

(** C10: a path is in scope exactly when the folder setting is not the
    empty string and the path starts with it, character by character; the
    three handlers act on that test alone, so defs2/a.md is in scope of
    folder defs and nothing is in scope of the empty folder. *)
Theorem isInDefinitionFolder_prefix (m : Manager) (p old : string) :
  (isInDefinitionFolder (definitionFolder m) p = true
   <-> definitionFolder m <> ""
       /\ exists rest, p = (definitionFolder m ++ rest)%string)
  /\ onFileChange m p
     = (if isInDefinitionFolder (definitionFolder m) p
        then {| cache := cache m; definitionFolder := definitionFolder m;
                fileWatcherDebounceTimer := Some p |}
        else m)
  /\ onFileDelete m p
     = (if isInDefinitionFolder (definitionFolder m) p
        then {| cache := removeFromCache (cache m) p;
                definitionFolder := definitionFolder m;
                fileWatcherDebounceTimer := fileWatcherDebounceTimer m |}
        else m)
  /\ cache (onFileRename loadDefinitionFile m p old)
     = (if isInDefinitionFolder (definitionFolder m) p
        then fold_left addToCache (loadDefinitionFile p)
               (removeFromCache (removeFromCache (cache m) old) p)
        else if isInDefinitionFolder (definitionFolder m) old
             then removeFromCache (cache m) old
             else cache m)
  /\ isInDefinitionFolder "defs" "defs2/a.md" = true
  /\ isInDefinitionFolder "" p = false.
Proof.
  split; [split|repeat split].
  - unfold isInDefinitionFolder, Js.startsWith. intros H.
    destruct (definitionFolder m == "") eqn:E; [discriminate|].
    split; [now apply eqb_false_iff | now apply prefix_app].
  - intros [Hne Hrest]. unfold isInDefinitionFolder, Js.startsWith.
    apply eqb_false_iff in Hne. rewrite Hne. now apply prefix_app.
  - unfold onFileChange.
    now destruct (isInDefinitionFolder (definitionFolder m) p).
  - unfold onFileDelete.
    now destruct (isInDefinitionFolder (definitionFolder m) p).
  - unfold onFileRename, reloadFile. simpl.
    destruct (isInDefinitionFolder (definitionFolder m) p),
             (isInDefinitionFolder (definitionFolder m) old); reflexivity.
Qed.

End Scope.

(* ------------------------------------------------------------------ *)
(** ** The consolidated parser never throws *)

Section Trim.
Import Js.

Lemma trimEnd_empty s : trimEnd s = "" -> allSpace s = true.
Proof.
  induction s as [|c s IH]; simpl; [reflexivity|].
  destruct (isSpace c); simpl; [|discriminate].
  destruct (trimEnd s == "") eqn:E; [|discriminate].
  intros _. apply IH. now apply eqb_true_iff.
Qed.

Lemma trimStart_allSpace s : allSpace (trimStart s) = true -> allSpace s = true.
Proof.
  induction s as [|c s IH]; simpl; [reflexivity|].
  destruct (isSpace c) eqn:E; simpl; [exact IH|].
  now rewrite E.
Qed.

Lemma trim_empty s : trim s = "" -> allSpace s = true.
Proof.
  unfold trim. intros H. now apply trimStart_allSpace, trimEnd_empty.
Qed.

(** What [trimEnd] returns does not end in white space. *)
Lemma trimEnd_suffix s a b :
  trimEnd s = (a ++ b)%string -> b <> "" -> allSpace b = false.
Proof.
  revert a b; induction s as [|c s IH]; simpl; intros a b H Hb.
  - destruct a; [simpl in H; congruence | discriminate].
  - destruct (isSpace c && (trimEnd s == "")) eqn:E.
    + destruct a; [simpl in H; congruence | discriminate].
    + destruct a as [|c' a]; simpl in H.
      * subst b. simpl. apply andb_false_iff in E.
        destruct E as [E|E]; [now rewrite E|].
        rewrite (IH "" (trimEnd s) eq_refl); [apply andb_false_r|].
        now apply eqb_false_iff.
      * inversion H; subst. now apply (IH a b).
Qed.

Lemma substring_all s : substring 0 (length s) s = s.
Proof.
  induction s as [|c s IH]; simpl; [reflexivity | now rewrite IH].
Qed.

Lemma length_append (a b : string) :
  length (a ++ b) = length a + length b.
Proof.
  induction a as [|c a IH]; simpl; [reflexivity | now rewrite IH].
Qed.

Lemma header_phrase_nonempty l :
  ConsolidatedParser.isHeader (trim l) = true ->
  trim (substring1 (trim l) 2) <> "".
Proof.
  unfold ConsolidatedParser.isHeader, startsWith.
  intros H. apply andb_prop in H. destruct H as [Hp Hl].
  apply prefix_app in Hp. destruct Hp as [rest Hrest].
  apply Nat.ltb_lt in Hl. rewrite Hrest in Hl |- *. simpl in Hl.
  assert (Hne : rest <> "") by (intros ->; simpl in Hl; lia).
  assert (E : substring1 ("# " ++ rest) 2 = rest).
  { unfold substring1, substring2. simpl length.
    rewrite !Nat.min_id.
    replace (Nat.min 2 (S (S (length rest)))) with 2 by lia.
    replace (Nat.max 2 (S (S (length rest))) - 2) with (length rest) by lia.
    simpl. rewrite Nat.sub_0_r. apply substring_all. }
  rewrite E. intros Ht. apply trim_empty in Ht.
  unfold trim in Hrest.
  now rewrite (trimEnd_suffix _ "# " rest Hrest Hne) in Ht.
Qed.

Lemma star_not_header s :
  startsWith s "*" = true -> ConsolidatedParser.isHeader s = false.
Proof.
  unfold startsWith. intros H. apply prefix_app in H.
  destruct H as [r ->]. reflexivity.
Qed.

Lemma divider_not_header pat s :
  ConsolidatedParser.isDivider pat s = true ->
  ConsolidatedParser.isHeader s = false.
Proof.
  unfold ConsolidatedParser.isDivider.
  destruct (s == "---") eqn:E.
  - apply eqb_true_iff in E. now subst.
  - destruct pat; [discriminate|]. intros H.
    apply eqb_true_iff in H. now subst.
Qed.

End Trim.

Section ParserTotal.
Import Js ConsolidatedParser.
Variables (pat : DividerPattern) (lines : list string) (filePath : string).

Lemma at_in_range i :
  i < List.length lines ->
  exists l, nth_error lines i = Some l /\ at_ lines i = Ok l.
Proof.
  intros H. unfold at_.
  destruct (nth_error lines i) as [l|] eqn:E; [eauto|].
  apply nth_error_None in E. lia.
Qed.

Lemma contentLoop_ok fuel i cl :
  List.length lines - i < fuel ->
  exists e cl',
    contentLoop fuel pat lines i cl = Ok (e, cl')
    /\ i <= e /\ noHeaderIn lines i e.
Proof.
  revert i cl; induction fuel as [|fuel IH]; intros i cl Hf; simpl.
  - lia.
  - destruct (i <? List.length lines) eqn:Hi.
    + apply Nat.ltb_lt in Hi.
      destruct (at_in_range i Hi) as (l & Hl & ->). simpl.
      destruct (isDivider pat (trim l)) eqn:Hd.
      * exists (i + 1), cl. repeat split; [lia|].
        intros n l' Hn Hn'. assert (n = i) by lia. subst n.
        rewrite Hl in Hn'. inversion Hn'; subst.
        now apply (divider_not_header pat).
      * destruct (isHeader (trim l)) eqn:Hh.
        -- exists i, cl. repeat split; [lia|]. intros n l' Hn. lia.
        -- destruct (IH (i + 1) (cl ++ [l])) as (e & cl' & -> & He & Hno);
             [lia|].
           exists e, cl'. repeat split; [lia|].
           intros n l' Hn Hn'.
           destruct (Nat.eq_dec n i) as [->|Hne].
           ++ rewrite Hl in Hn'. now inversion Hn'; subst.
           ++ apply (Hno n l'); [lia | assumption].
    + exists i, cl. repeat split; [lia|]. intros n l' Hn. lia.
Qed.

Lemma skipFrontmatter_ok fuel i :
  List.length lines - i < fuel ->
  exists j,
    skipFrontmatter fuel lines i = Ok j
    /\ i <= j
    /\ forall n l, i <= n < j -> nth_error lines n = Some l ->
                   trim l <> "---".
Proof.
  revert i; induction fuel as [|fuel IH]; intros i Hf; simpl.
  - lia.
  - destruct (i <? List.length lines) eqn:Hi.
    + apply Nat.ltb_lt in Hi.
      destruct (at_in_range i Hi) as (l & Hl & ->). simpl.
      destruct (trim l == "---") eqn:Hd; simpl.
      * exists i. repeat split; [lia|]. intros n l' Hn. lia.
      * destruct (IH (i + 1)) as (j & -> & Hj & Hno); [lia|].
        exists j. repeat split; [lia|].
        intros n l' Hn Hn'.
        destruct (Nat.eq_dec n i) as [->|Hne].
        -- rewrite Hl in Hn'. inversion Hn'; subst.
           now apply eqb_false_iff.
        -- apply (Hno n l'); [lia | assumption].
    + exists i. repeat split; [lia|]. intros n l' Hn. lia.
Qed.

#[local] Arguments contentLoop : simpl never.
#[local] Arguments skipFrontmatter : simpl never.

Lemma parseBlock_ok i l :
  nth_error lines i = Some l ->
  isHeader (trim l) = true ->
  exists d e,
    parseBlock pat lines i filePath = Ok (Some d, e)
    /\ i < e
    /\ phrase d = trim (substring1 (trim l) 2)
    /\ phrase d <> ""
    /\ sourceFile d = filePath
    /\ sourceType d = consolidated
    /\ lineNumber d = Some (i + 1)
    /\ noHeaderIn lines (i + 1) e.
Proof.
  intros Hl Hh. unfold parseBlock, at_. rewrite Hl. simpl.
  pose proof (header_phrase_nonempty l Hh) as Hne.
  apply eqb_false_iff in Hne. rewrite Hne.
  destruct (i + 1 <? List.length lines) eqn:Hi.
  - apply Nat.ltb_lt in Hi.
    destruct (at_in_range (i + 1) Hi) as (l1 & Hl1 & _).
    rewrite Hl1. simpl.
    destruct (startsWith (trim l1) "*" && endsWith (trim l1) "*"
              && (2 <? length (trim l1))) eqn:Ha; simpl.
    + destruct (contentLoop_ok (S (List.length lines)) (i + 1 + 1) [])
        as (e & cl & Hc & He & Hno); [lia|].
      rewrite Hc. simpl. eexists. exists e.
      split; [reflexivity|]. simpl.
      repeat split; try reflexivity; try lia.
      * now apply eqb_false_iff.
      * intros n l' Hn Hn'.
        destruct (Nat.eq_dec n (i + 1)) as [->|Hne'].
        -- rewrite Hl1 in Hn'. inversion Hn'; subst.
           apply star_not_header.
           apply andb_prop in Ha. destruct Ha as [Ha _].
           apply andb_prop in Ha. tauto.
        -- apply (Hno n l'); [lia | assumption].
    + destruct (contentLoop_ok (S (List.length lines)) (i + 1) [])
        as (e & cl & Hc & He & Hno); [lia|].
      rewrite Hc. simpl. eexists. exists e.
      split; [reflexivity|]. simpl.
      repeat split; try reflexivity; try lia; try assumption.
      now apply eqb_false_iff.
  - simpl.
    destruct (contentLoop_ok (S (List.length lines)) (i + 1) [])
      as (e & cl & Hc & He & Hno); [lia|].
    rewrite Hc. simpl. eexists. exists e.
    split; [reflexivity|]. simpl.
    repeat split; try reflexivity; try lia; try assumption.
    now apply eqb_false_iff.
Qed.

Lemma parseLoop_ok fuel i defs :
  List.length lines - i < fuel ->
  exists new,
    parseLoop fuel pat lines filePath i defs = Ok (defs ++ new)
    /\ Forall (fromHeader lines filePath) new
    /\ forall n l, i <= n -> nth_error lines n = Some l ->
         isHeader (trim l) = true -> ~ inFrontMatter lines n ->
         exists d, In d new /\ lineNumber d = Some (n + 1).
Proof.
  revert i defs; induction fuel as [|fuel IH]; intros i defs Hf; simpl.
  - lia.
  - destruct (i <? List.length lines) eqn:Hi.
    2:{ apply Nat.ltb_ge in Hi. exists []. rewrite app_nil_r.
        repeat split; [constructor|].
        intros n l Hn Hl.
        assert (n < List.length lines)
          by (apply nth_error_Some; congruence).
        lia. }
    apply Nat.ltb_lt in Hi.
    destruct (at_in_range i Hi) as (l & Hl & ->). simpl.
    destruct ((i =? 0) && (trim l == "---")) eqn:Hfm.
    + apply andb_prop in Hfm. destruct Hfm as [H0 Hd].
      apply Nat.eqb_eq in H0. subst i. apply eqb_true_iff in Hd.
      destruct (skipFrontmatter_ok (S (List.length lines)) (0 + 1))
        as (j & -> & Hj & Hno); [lia|]. simpl.
      destruct (IH (j + 1) defs) as (new & -> & Hnew & Hcov); [lia|].
      exists new. repeat split; [assumption|].
      intros n l' Hn Hl' Hh Hfm.
      destruct (Nat.le_gt_cases (j + 1) n) as [Hle|Hgt].
      * now apply (Hcov n l').
      * exfalso. apply Hfm. split; [eauto|].
        intros k lk Hk. apply Hno. lia.
    + destruct (isHeader (trim l)) eqn:Hh.
      * destruct (parseBlock_ok i l Hl Hh)
          as (d & e & -> & He & Hp & Hpne & Hs & _ & Hln & Hno). simpl.
        destruct (IH e (defs ++ [d])) as (new & -> & Hnew & Hcov); [lia|].
        exists (d :: new). rewrite <- app_assoc. repeat split.
        -- constructor; [|assumption].
           exists i, l. repeat split; assumption.
        -- intros n l' Hn Hl' Hh' Hfm'.
           destruct (Nat.eq_dec n i) as [->|Hne].
           ++ exists d. split; [now left | assumption].
           ++ destruct (Nat.le_gt_cases e n) as [Hle|Hgt].
              ** destruct (Hcov n l' Hle Hl' Hh' Hfm') as (d' & Hd' & Hn').
                 exists d'. split; [now right | assumption].
              ** rewrite (Hno n l') in Hh'; [discriminate | lia | assumption].
      * destruct (IH (i + 1) defs) as (new & -> & Hnew & Hcov); [lia|].
        exists new. repeat split; [assumption|].
        intros n l' Hn Hl' Hh' Hfm'.
        destruct (Nat.eq_dec n i) as [->|Hne].
        -- rewrite Hl in Hl'. inversion Hl'; subst. congruence.
        -- apply (Hcov n l'); [lia | assumption..].
Qed.

End ParserTotal.

(** C8: whatever the content, [parse] returns a list of Definitions: no
    call throws, no line is read outside the array and no loop runs on;
    every Definition returned comes from a header line, carries its
    1-indexed line number, a non-empty phrase and the file path; and every
    header line outside the front matter yields a Definition, whatever
    the other blocks look like. *)
Theorem parse_total (pat : DividerPattern) (content filePath : string) :
  exists defs,
    ConsolidatedParser.parse pat content filePath = Ok defs
    /\ Forall (fromHeader (Js.split (ascii_of_nat 10) content) filePath) defs
    /\ forall n l,
         nth_error (Js.split (ascii_of_nat 10) content) n = Some l ->
         ConsolidatedParser.isHeader (Js.trim l) = true ->
         ~ inFrontMatter (Js.split (ascii_of_nat 10) content) n ->
         exists d, In d defs /\ lineNumber d = Some (n + 1).
Proof.
  unfold ConsolidatedParser.parse.
  destruct (parseLoop_ok pat (Js.split (ascii_of_nat 10) content) filePath
              (S (List.length (Js.split (ascii_of_nat 10) content))) 0 [])
    as (new & E & Hnew & Hcov); [lia|].
  exists new. simpl in E. repeat split; try assumption.
  intros n l Hl Hh Hfm. apply (Hcov n l); [lia | assumption..].
Qed.

Lemma parse_total_witness :
  exists defs d,
    ConsolidatedParser.parse hyphens widgetInput "defs.md" = Ok defs
    /\ In d defs /\ lineNumber d = Some 8.
Proof.
  destruct (parse_total hyphens widgetInput "defs.md")
    as (defs & E & _ & Hcov).
  destruct (Hcov 7 "# Gizmo") as (d & Hd & Hn).
  - reflexivity.
  - reflexivity.
  - intros [(l0 & H0 & Ht) _]. vm_compute in H0.
    inversion H0; subst. discriminate Ht.
  - exists defs, d. auto.
Defined.

(* ------------------------------------------------------------------ *)
(** ** The expression built for a phrase *)

Section RegExpFacts.
Import Js RegExp.

Lemma compile_escape (p s : string) :
  compile (escape p ++ s) = option_map (app (lits p)) (compile s).
Proof.
  induction p as [|c p IH]; simpl.
  - now destruct (compile s).
  - destruct (isSyntaxChar c) eqn:Hc; simpl.
    + rewrite Hc.
      destruct (Ascii.eqb c "b") eqn:Hb.
      * apply Ascii.eqb_eq in Hb. subst c. discriminate Hc.
      * rewrite IH. now destruct (compile s).
    + destruct (Ascii.eqb c "\") eqn:Hb.
      * apply Ascii.eqb_eq in Hb. subst c. discriminate Hc.
      * rewrite Hc, IH. now destruct (compile s).
Qed.

(** The constructor accepts every escaped phrase. *)
Lemma compile_wordRegExp (p : string) :
  compile ("\b" ++ escape p ++ "\b") = Some (wordRegExp p).
Proof.
  change ("\b" ++ escape p ++ "\b")%string
    with (String "\" (String "b" (escape p ++ "\b"))).
  cbn [compile]. change (Ascii.eqb "\" "\") with true.
  change (Ascii.eqb "b" "b") with true. cbn iota.
  rewrite compile_escape. reflexivity.
Qed.

Lemma lower_upper (c : ascii) : lowerChar (upperChar c) = lowerChar c.
Proof.
  destruct c as [[] [] [] [] [] [] [] []]; reflexivity.
Qed.

Lemma canonicalize_lower (a b : ascii) :
  canonicalize a = canonicalize b -> lowerChar a = lowerChar b.
Proof.
  unfold canonicalize. intros H.
  now rewrite <- (lower_upper a), H, lower_upper.
Qed.

Lemma get_lt (s : string) (i : nat) (c : ascii) :
  get i s = Some c -> i < length s.
Proof.
  revert i; induction s as [|c0 s IH]; intros i; simpl; [discriminate|].
  destruct i as [|i]; [lia|]. intros H. apply IH in H. lia.
Qed.

Lemma substring_get (s : string) (i n : nat) (c : ascii) :
  get i s = Some c ->
  substring i (S n) s = String c (substring (S i) n s).
Proof.
  revert i; induction s as [|c0 s IH]; intros i; simpl; [discriminate|].
  destruct i as [|i].
  - intros [= ->]. reflexivity.
  - intros H. rewrite (IH i H). reflexivity.
Qed.

Lemma length_substring (s : string) (i n : nat) :
  i + n <= length s -> length (substring i n s) = n.
Proof.
  revert i n; induction s as [|c s IH]; intros i n; simpl.
  - intros H. assert (i = 0) by lia. assert (n = 0) by lia. now subst.
  - destruct i as [|i].
    + destruct n as [|n]; [reflexivity|]. simpl. intros H.
      f_equal. apply (IH 0 n). lia.
    + intros H. apply IH. lia.
Qed.

Lemma substring_zero (s : string) (i : nat) : substring i 0 s = "".
Proof.
  revert i; induction s as [|c s IH]; intros [|i]; simpl; auto.
Qed.

Lemma substring2_between (s : string) (i e : nat) :
  i <= e -> e <= length s -> substring2 s i e = substring i (e - i) s.
Proof.
  intros Hi He. unfold substring2.
  replace (Nat.min i (length s)) with i by lia.
  replace (Nat.min e (length s)) with e by lia.
  replace (Nat.min i e) with i by lia.
  now replace (Nat.max i e) with e by lia.
Qed.

Lemma matchAt_lits (p : string) (rest : list Atom) (text : string) (i e : nat) :
  matchAt (lits p ++ rest) text i = Some e ->
  matchAt rest text (i + length p) = Some e
  /\ (p <> "" -> i + length p <= length text)
  /\ toLowerCase (substring i (length p) text) = toLowerCase p.
Proof.
  revert i; induction p as [|c p IH]; intros i; simpl.
  - intros H. rewrite Nat.add_0_r. repeat split; [assumption | congruence |].
    now rewrite substring_zero.
  - destruct (get i text) as [t|] eqn:Ht; [|discriminate].
    destruct (Ascii.eqb (canonicalize t) (canonicalize c)) eqn:Hc;
      [|discriminate].
    intros H. apply IH in H. destruct H as (H1 & H2 & H3).
    apply Ascii.eqb_eq in Hc. apply get_lt in Ht as Hlt.
    replace (i + S (length p)) with (i + 1 + length p) by lia.
    repeat split; [assumption | |].
    + intros _. destruct p as [|c' p']; [simpl; lia|].
      assert (String c' p' <> "") by discriminate. specialize (H2 H). lia.
    + rewrite (substring_get _ _ _ _ Ht). simpl.
      rewrite (canonicalize_lower _ _ Hc). f_equal.
      now rewrite <- Nat.add_1_r.
Qed.

(** What a match of [\bphrase\b] at an offset tells. *)
Lemma matchAt_wordRegExp (p text : string) (i e : nat) :
  p <> "" ->
  matchAt (wordRegExp p) text i = Some e ->
  e = i + length p
  /\ e <= length text
  /\ toLowerCase (substring i (length p) text) = toLowerCase p.
Proof.
  intros Hp. unfold wordRegExp. cbn [matchAt].
  destruct (isBoundary text i); [|discriminate].
  intros H. apply matchAt_lits in H. destruct H as (H1 & H2 & H3).
  cbn [matchAt] in H1.
  destruct (isBoundary text (i + length p)); [|discriminate].
  inversion H1; subst e. auto.
Qed.

Lemma search_found (n : nat) (atoms : list Atom) (text : string) (k i e : nat) :
  search n atoms text k = Some (i, e) ->
  k <= i /\ matchAt atoms text i = Some e.
Proof.
  revert k; induction n as [|n IH]; intros k; simpl; [discriminate|].
  destruct (matchAt atoms text k) as [e'|] eqn:E.
  - intros [= <- <-]. auto.
  - intros H. apply IH in H. destruct H. split; [lia | assumption].
Qed.

Lemma exec_found (atoms : list Atom) (text : string) (lastIndex i e : nat) :
  exec atoms text lastIndex = Some (i, e) ->
  lastIndex <= i /\ matchAt atoms text i = Some e.
Proof.
  unfold exec. destruct (lastIndex <=? length text); [|discriminate].
  apply search_found.
Qed.

Lemma exec_wordRegExp (p text : string) (lastIndex i e : nat) :
  p <> "" ->
  exec (wordRegExp p) text lastIndex = Some (i, e) ->
  lastIndex <= i
  /\ e = i + length p
  /\ e <= length text
  /\ toLowerCase (substring i (length p) text) = toLowerCase p.
Proof.
  intros Hp H. apply exec_found in H. destruct H as [H1 H2].
  apply matchAt_wordRegExp in H2; tauto.
Qed.

Lemma length_pos (p : string) : p <> "" -> 0 < length p.
Proof. destruct p; [congruence | simpl; lia]. Qed.

End RegExpFacts.

(* ------------------------------------------------------------------ *)
(** ** [Array.prototype.sort] *)

Section SortFacts.
Context {A : Type} (after : A -> A -> bool) (le : A -> A -> Prop).
Hypothesis after_true : forall x y, after x y = true -> le y x.
Hypothesis after_false : forall x y, after x y = false -> le x y.
Hypothesis le_trans : forall x y z, le x y -> le y z -> le x z.

Lemma insert_perm (x : A) (l : list A) : Permutation (Js.insert after x l) (x :: l).
Proof.
  induction l as [|y l IH]; simpl; [reflexivity|].
  destruct (after x y); [|reflexivity].
  rewrite IH. apply perm_swap.
Qed.

Lemma sort_perm (l : list A) : Permutation (Js.sort after l) l.
Proof.
  induction l as [|x l IH]; simpl; [reflexivity|].
  unfold Js.sort in *. simpl. rewrite insert_perm. now constructor.
Qed.

Lemma insert_HdRel (x y : A) (l : list A) :
  le y x -> HdRel le y l -> HdRel le y (Js.insert after x l).
Proof.
  intros Hyx Hl. destruct l as [|z l]; simpl.
  - now constructor.
  - inversion Hl; subst. destruct (after x z); now constructor.
Qed.

Lemma insert_sorted (x : A) (l : list A) :
  Sorted le l -> Sorted le (Js.insert after x l).
Proof.
  induction l as [|y l IH]; simpl; intros Hs.
  - repeat constructor.
  - inversion Hs; subst. destruct (after x y) eqn:E.
    + constructor; [now apply IH|].
      apply insert_HdRel; [now apply after_true | assumption].
    + constructor; [assumption|]. constructor. now apply after_false.
Qed.

Lemma sort_sorted (l : list A) : StronglySorted le (Js.sort after l).
Proof.
  apply Sorted_StronglySorted; [exact le_trans|].
  induction l as [|x l IH]; [constructor|].
  unfold Js.sort in *. simpl. now apply insert_sorted.
Qed.

End SortFacts.

Section PairFacts.
Context {A : Type} (R : A -> A -> Prop).

Lemma FOP_snoc (l : list A) (x : A) :
  ForallOrdPairs R l -> Forall (fun y => R y x) l ->
  ForallOrdPairs R (l ++ [x]).
Proof.
  induction 1 as [|a l Ha Hl IH]; simpl; intros Hx.
  - repeat constructor.
  - inversion Hx; subst. constructor; [|now apply IH].
    apply Forall_app. split; [assumption | now repeat constructor].
Qed.

Lemma FOP_perm (l l' : list A) :
  (forall x y, R x y -> R y x) ->
  Permutation l l' -> ForallOrdPairs R l -> ForallOrdPairs R l'.
Proof.
  intros Hsym Hp. induction Hp; intros H.
  - assumption.
  - inversion H; subst. constructor; [|now apply IHHp].
    eapply Permutation_Forall; eassumption.
  - inversion H as [|? ? Hy H']; subst. inversion H' as [|? ? Hx H'']; subst.
    inversion Hy; subst.
    constructor; [constructor; [now apply Hsym | assumption]|].
    now constructor.
  - auto.
Qed.

End PairFacts.

(* ------------------------------------------------------------------ *)
(** ** The phrase scanner *)

Section Scanner.
Import Js RegExp EditorManager.

Lemma Disjoint_sym (a b : Match) : Disjoint a b -> Disjoint b a.
Proof. unfold Disjoint. tauto. Qed.

Lemma overlaps_spec (ms : list Match) (i e : nat) :
  overlaps ms i e = true
  <-> exists m, In m ms
        /\ ((from m <= i /\ i < to m) \/ (from m < e /\ e <= to m)).
Proof.
  unfold overlaps. rewrite existsb_exists.
  split; intros (m & Hm & H); exists m; (split; [assumption|]).
  - apply orb_prop in H. destruct H as [H|H]; apply andb_prop in H;
      destruct H as [H1 H2]; [left | right];
      rewrite ?Nat.leb_le, ?Nat.ltb_lt in *; auto.
  - apply orb_true_iff.
    destruct H as [[H1 H2]|[H1 H2]]; [left | right];
      apply andb_true_iff; rewrite ?Nat.leb_le, ?Nat.ltb_lt; auto.
Qed.

Lemma scan_extends (fuel : nat) (regex : list Atom) (text : string)
    (lastIndex : nat) (ms ms' : list Match) :
  scan fuel regex text lastIndex ms = Ok ms' -> exists new, ms' = ms ++ new.
Proof.
  revert lastIndex ms; induction fuel as [|fuel IH]; intros li ms; simpl;
    [discriminate|].
  destruct (exec regex text li) as [[i e]|].
  - intros H. apply IH in H. destruct H as [new ->].
    destruct (negb _); [|eauto].
    rewrite <- app_assoc. eauto.
  - intros [= <-]. exists []. now rewrite app_nil_r.
Qed.

Lemma scanPhrases_extends (fuel : nat) (text : string) (sp : list string)
    (ms ms' : list Match) :
  scanPhrases fuel text sp ms = Ok ms' -> exists new, ms' = ms ++ new.
Proof.
  revert ms; induction sp as [|p sp IH]; intros ms; cbn [scanPhrases].
  - intros [= <-]. exists []. now rewrite app_nil_r.
  - destruct (compile _) as [re|]; [|discriminate].
    destruct (scan fuel re text 0 ms) as [ms1| |] eqn:E; cbn [bind];
      try discriminate.
    intros H. apply IH in H. destruct H as [new ->].
    apply scan_extends in E. destruct E as [new1 ->].
    rewrite <- app_assoc. eauto.
Qed.

Variables (text : string) (P : list string).

Lemma Good_le (n n' : nat) (m : Match) : n' <= n -> Good text P n m -> Good text P n' m.
Proof. unfold Good. intros H [H1 H2]. split; [assumption | lia]. Qed.

(** The candidate the loop builds from what [exec] returned. *)
Lemma candidate_eq (p : string) (li i e : nat) :
  p <> "" ->
  exec (wordRegExp p) text li = Some (i, e) ->
  i + length (substring2 text i e) = e
  /\ substring2 text i e = substring i (e - i) text
  /\ li <= i /\ e = i + length p /\ e <= length text
  /\ toLowerCase (substring i (e - i) text) = toLowerCase p.
Proof.
  intros Hp H. apply exec_wordRegExp in H; [|assumption].
  destruct H as (H1 & H2 & H3 & H4).
  rewrite substring2_between by lia.
  rewrite length_substring by lia.
  replace (e - i) with (length p) by lia.
  repeat split; try assumption; lia.
Qed.

Lemma scan_ok (fuel : nat) (p : string) (li : nat) (ms : list Match) :
  p <> "" -> In p P ->
  Forall (Good text P (length p)) ms -> ForallOrdPairs Disjoint ms ->
  length text + 1 - li < fuel ->
  exists new,
    scan fuel (wordRegExp p) text li ms = Ok (ms ++ new)
    /\ Forall (Good text P (length p)) (ms ++ new)
    /\ ForallOrdPairs Disjoint (ms ++ new)
    /\ Forall (fun m => li <= from m) new.
Proof.
  intros Hp HP. revert li ms.
  induction fuel as [|fuel IH]; intros li ms Hg Hd Hf; [lia|].
  cbn [scan].
  destruct (exec (wordRegExp p) text li) as [[i e]|] eqn:E.
  2:{ exists []. rewrite app_nil_r. auto. }
  destruct (candidate_eq p li i e Hp E) as (Hto & Hs & H1 & H2 & H3 & H4).
  cbv zeta. rewrite Hto, Hs.
  pose proof (length_pos p Hp) as Hlen.
  destruct (overlaps ms i e) eqn:Ho; cbn [negb].
  - destruct (IH e ms Hg Hd) as (new & -> & Hg' & Hd' & Hn); [lia|].
    exists new. repeat split; try assumption.
    eapply Forall_impl; [|exact Hn]. simpl. intros; lia.
  - set (c := {| phrase := substring i (e - i) text; from := i; to := e |}).
    assert (Hc : Good text P (length p) c).
    { unfold Good, Span, c. simpl. repeat split; try lia.
      exists p. split; assumption. }
    assert (Hdc : Forall (fun m => Disjoint m c) ms).
    { apply Forall_forall. intros m Hm.
      rewrite Forall_forall in Hg. destruct (Hg m Hm) as [_ Hm2].
      assert (Hno : ~ ((from m <= i /\ i < to m) \/ (from m < e /\ e <= to m))).
      { intros H. assert (overlaps ms i e = true)
          by (apply overlaps_spec; eauto). congruence. }
      unfold Disjoint, c. simpl. lia. }
    destruct (IH e (ms ++ [c])) as (new & -> & Hg' & Hd' & Hn).
    + apply Forall_app. split; [assumption|].
      constructor; [exact Hc | constructor].
    + now apply FOP_snoc.
    + lia.
    + exists (c :: new). rewrite <- !app_assoc in *. simpl in *.
      repeat split; try assumption.
      constructor; [simpl; lia|].
      eapply Forall_impl; [|exact Hn]. simpl. intros; lia.
Qed.

Lemma scanPhrases_ok (fuel : nat) (sp : list string) (ms : list Match) :
  length text + 2 <= fuel ->
  (forall p, In p sp -> p <> "" /\ In p P) ->
  StronglySorted (fun a b => length b <= length a) sp ->
  (forall p, In p sp -> Forall (Good text P (length p)) ms) ->
  Forall (Good text P 0) ms ->
  ForallOrdPairs Disjoint ms ->
  exists new,
    scanPhrases fuel text sp ms = Ok (ms ++ new)
    /\ Forall (Good text P 0) (ms ++ new)
    /\ ForallOrdPairs Disjoint (ms ++ new).
Proof.
  intros Hf. revert ms.
  induction sp as [|p sp IH]; intros ms Hsp Hs Hg Hg0 Hd; cbn [scanPhrases].
  - exists []. rewrite app_nil_r. auto.
  - rewrite compile_wordRegExp.
    destruct (Hsp p (or_introl eq_refl)) as [Hp HP].
    destruct (scan_ok fuel p 0 ms Hp HP (Hg p (or_introl eq_refl)) Hd)
      as (new1 & -> & Hg1 & Hd1 & _); [lia|].
    cbn [bind]. inversion Hs as [|? ? Hs' Hle]; subst.
    destruct (IH (ms ++ new1)) as (new & -> & Hg' & Hd'); try assumption.
    + intros q Hq. apply Hsp. now right.
    + intros q Hq. rewrite Forall_forall in Hle.
      eapply Forall_impl; [|exact Hg1]. intros m. apply Good_le. now apply Hle.
    + eapply Forall_impl; [|exact Hg1]. intros m. apply Good_le. lia.
    + exists (new1 ++ new). now rewrite app_assoc.
Qed.

End Scanner.

Section ScannerTheorems.
Import Js RegExp EditorManager.

Lemma sorted_phrases (P : list string) :
  StronglySorted (fun a b => length b <= length a)
                 (sort (fun a b => length a <? length b) P)
  /\ Permutation (sort (fun a b => length a <? length b) P) P.
Proof.
  split; [|apply sort_perm].
  apply sort_sorted.
  - intros x y H. apply Nat.ltb_lt in H. lia.
  - intros x y H. apply Nat.ltb_ge in H. lia.
  - intros x y z. lia.
Qed.

Lemma sorted_matches (ms : list Match) :
  StronglySorted (fun a b => from a <= from b)
                 (sort (fun a b => from b <? from a) ms)
  /\ Permutation (sort (fun a b => from b <? from a) ms) ms.
Proof.
  split; [|apply sort_perm].
  apply sort_sorted.
  - intros x y H. apply Nat.ltb_lt in H. lia.
  - intros x y H. apply Nat.ltb_ge in H. lia.
  - intros x y z. lia.
Qed.

Lemma ordered_disjoint (text : string) (P : list string) (l : list Match) :
  Forall (Span text P) l ->
  StronglySorted (fun a b => from a <= from b) l ->
  ForallOrdPairs Disjoint l ->
  ForallOrdPairs (fun a b => to a <= from b) l.
Proof.
  induction l as [|a l IH]; intros Hs Hsort Hd; [constructor|].
  inversion Hs; subst. inversion Hsort; subst. inversion Hd; subst.
  constructor; [|now apply IH].
  rewrite Forall_forall in *. intros b Hb.
  assert (Hsb : Span text P b) by auto. destruct Hsb as (Hlt & _).
  assert (Hab : from a <= from b) by auto.
  assert (Hdab : Disjoint a b) by auto.
  unfold Disjoint in Hdab. lia.
Qed.

(** Without an empty phrase in the list, [findPhrases] returns: spans in
    ascending order of start, none reaching into the next, each inside
    the text and reading, lowercased, as a lowercased phrase of the list. *)
Lemma findPhrases_sorted_disjoint (text : string) (P : list string) (fuel : nat) :
  (forall p, In p P -> p <> "") ->
  length text + 2 <= fuel ->
  exists r,
    findPhrases fuel text P = Ok r
    /\ StronglySorted (fun a b => from a <= from b) r
    /\ ForallOrdPairs (fun a b => to a <= from b) r
    /\ Forall (Span text P) r.
Proof.
  intros HP Hf. unfold findPhrases.
  destruct (sorted_phrases P) as [Hs Hperm].
  destruct (scanPhrases_ok text P fuel
              (sort (fun a b => length a <? length b) P) [])
    as (ms & -> & Hg & Hd).
  - assumption.
  - intros p Hp. apply (Permutation_in _ Hperm) in Hp. auto.
  - assumption.
  - intros p Hp. constructor.
  - constructor.
  - constructor.
  - cbn [bind app]. eexists. split; [reflexivity|].
    destruct (sorted_matches ms) as [Hs' Hperm'].
    assert (Hspan : Forall (Span text P)
                      (sort (fun a b => from b <? from a) ms)).
    { eapply Permutation_Forall; [apply Permutation_sym, Hperm'|].
      eapply Forall_impl; [|exact Hg]. now intros m [H _]. }
    repeat split; try assumption.
    apply (ordered_disjoint text P); try assumption.
    eapply FOP_perm; [apply Disjoint_sym | apply Permutation_sym, Hperm' |].
    exact Hd.
Qed.

Lemma scan_empty_phrase (fuel : nat) (ms : list Match) :
  scan fuel [WordBoundary; WordBoundary] "a" 0 ms = OutOfFuel.
Proof.
  revert ms; induction fuel as [|fuel IH]; intros ms; [reflexivity|].
  cbn [scan].
  change (exec [WordBoundary; WordBoundary] "a" 0) with (Some (0, 0)).
  cbv zeta. apply IH.
Qed.

(** C2 fails on an empty phrase: whatever the budget, the loop for the
    empty phrase does not end on the text "a"; [exec] keeps returning the
    empty match at offset 0. *)
Theorem findPhrases_empty_phrase_diverges :
  forall fuel, findPhrases fuel "a" [""] = OutOfFuel.
Proof.
  intros fuel. unfold findPhrases.
  change (sort (fun a b => length a <? length b) [""]) with [""].
  cbn [scanPhrases]. rewrite compile_wordRegExp.
  change (wordRegExp "") with [WordBoundary; WordBoundary].
  now rewrite scan_empty_phrase.
Qed.

Lemma scan_resumes (fuel : nat) (p text : string) (li : nat)
    (ms ms' : list Match) :
  p <> "" ->
  scan fuel (wordRegExp p) text li ms = Ok ms' ->
  exists new, ms' = ms ++ new /\ Forall (fun m => li <= from m) new.
Proof.
  intros Hp. revert li ms; induction fuel as [|fuel IH]; intros li ms;
    cbn [scan]; [discriminate|].
  destruct (exec (wordRegExp p) text li) as [[i e]|] eqn:E.
  - destruct (candidate_eq text p li i e Hp E) as (Hto & Hs & H1 & H2 & _).
    pose proof (length_pos p Hp) as Hlen.
    cbv zeta. rewrite Hto, Hs. intros H. apply IH in H.
    destruct H as (new & -> & Hn).
    assert (Hn' : Forall (fun m => li <= from m) new)
      by (eapply Forall_impl; [|exact Hn]; simpl; intros; lia).
    destruct (negb _).
    + rewrite <- app_assoc. eexists. split; [reflexivity|].
      constructor; [simpl; lia | assumption].
    + eauto.
  - intros [= <-]. exists []. now rewrite app_nil_r.
Qed.

(** C7, as the code has it: a candidate span is dropped exactly when its
    start lies in an accepted span or its end lies in one (start
    excluded, end included); a candidate that only touches accepted
    spans is kept; kept or dropped, the loop goes on at the end of the
    candidate, and nothing it accepts later starts before that. *)
Theorem scan_drops_overlapping (p text : string) (li i e fuel : nat)
    (ms : list Match) :
  p <> "" ->
  exec (wordRegExp p) text li = Some (i, e) ->
  compile ("\b" ++ escape p ++ "\b") = Some (wordRegExp p)
  /\ e = i + length p
  /\ (overlaps ms i e = true
      <-> exists m, In m ms
            /\ ((from m <= i /\ i < to m) \/ (from m < e /\ e <= to m)))
  /\ ((forall m, In m ms -> to m <= i \/ e <= from m) ->
      overlaps ms i e = false)
  /\ scan (S fuel) (wordRegExp p) text li ms
     = scan fuel (wordRegExp p) text e
         (if overlaps ms i e then ms
          else ms ++ [{| phrase := substring i (e - i) text;
                         from := i; to := e |}])
  /\ (forall ms0 ms',
        scan fuel (wordRegExp p) text e ms0 = Ok ms' ->
        exists new, ms' = ms0 ++ new /\ Forall (fun m => e <= from m) new).
Proof.
  intros Hp E.
  destruct (candidate_eq text p li i e Hp E) as (Hto & Hs & H1 & H2 & _).
  pose proof (length_pos p Hp) as Hlen.
  split; [apply compile_wordRegExp|].
  split; [assumption|].
  split; [apply overlaps_spec|].
  split; [|split].
  - intros Hall. apply not_true_is_false. intros Ho.
    apply overlaps_spec in Ho. destruct Ho as (m & Hm & Ho).
    specialize (Hall m Hm). lia.
  - cbn [scan]. rewrite E. cbv zeta. rewrite Hto, Hs.
    now destruct (overlaps ms i e).
  - intros ms0 ms'. now apply scan_resumes.
Qed.

Lemma scan_drops_overlapping_witness :
  scan 3 (wordRegExp "foo") "foo bar" 0
       [{| phrase := "foo bar"; from := 0; to := 7 |}]
  = scan 2 (wordRegExp "foo") "foo bar" 3
         [{| phrase := "foo bar"; from := 0; to := 7 |}].
Proof.
  apply (scan_drops_overlapping "foo" "foo bar" 0 0 3 2
           [{| phrase := "foo bar"; from := 0; to := 7 |}]).
  - discriminate.
  - reflexivity.
Defined.

(** C7 as the spec words it does not hold: in "foo-bar" the span of
    "foo" ends where the span accepted for "-bar" starts, and both are
    returned. *)
Lemma touching_spans_kept :
  findPhrases 9 "foo-bar" ["foo"; "-bar"]
  = Ok [{| phrase := "foo"; from := 0; to := 3 |};
        {| phrase := "-bar"; from := 3; to := 7 |}]
  /\ overlaps [{| phrase := "-bar"; from := 3; to := 7 |}] 0 3 = false.
Proof.
  split; vm_compute; reflexivity.
Qed.

Lemma scan_fresh (fuel : nat) (p text : string) (li : nat)
    (ms ms' : list Match) :
  p <> "" ->
  Forall (fun m => to m <= li) ms ->
  scan fuel (wordRegExp p) text li ms = Ok ms' ->
  forall i e,
    ExaminedFrom (wordRegExp p) text li i e ->
    In {| phrase := substring i (e - i) text; from := i; to := e |} ms'.
Proof.
  intros Hp. revert li ms; induction fuel as [|fuel IH]; intros li ms Hms;
    cbn [scan]; [discriminate|].
  destruct (exec (wordRegExp p) text li) as [[i0 e0]|] eqn:E.
  2:{ intros _ i e Hex. inversion Hex; congruence. }
  destruct (candidate_eq text p li i0 e0 Hp E) as (Hto & Hs & H1 & H2 & _).
  pose proof (length_pos p Hp) as Hlen.
  cbv zeta. rewrite Hto, Hs.
  assert (Ho : overlaps ms i0 e0 = false).
  { apply not_true_is_false. intros Ho.
    apply overlaps_spec in Ho. destruct Ho as (m & Hm & Ho).
    rewrite Forall_forall in Hms. specialize (Hms m Hm). lia. }
  rewrite Ho. cbn [negb]. intros Hscan i e Hex.
  assert (He0 : i0 < e0) by lia. clear H2 Hto Hs.
  inversion Hex as [? ? ? E'|? i1 e1 ? ? E' Hlater]; subst;
    rewrite E in E'; injection E' as <- <-.
  - apply scan_extends in Hscan. destruct Hscan as [new ->].
    apply in_or_app. left. apply in_or_app. right. now left.
  - eapply (IH e0); [|exact Hscan|exact Hlater].
    apply Forall_app. split.
    + eapply Forall_impl; [|exact Hms]. simpl. intros; lia.
    + constructor; [simpl; lia | constructor].
Qed.

Lemma sorted_head_longest (P : list string) (L : string) :
  In L P ->
  (forall p, In p P -> p = L \/ length p < length L) ->
  exists rest, sort (fun a b => length a <? length b) P = L :: rest.
Proof.
  intros HL Hmax. destruct (sorted_phrases P) as [Hs Hperm].
  destruct (sort _ P) as [|h rest] eqn:E.
  - apply Permutation_nil in Hperm. subst. destruct HL.
  - exists rest. f_equal.
    assert (Hh : In h P) by (apply (Permutation_in _ Hperm); now left).
    destruct (Hmax h Hh) as [->|Hlt]; [reflexivity|].
    apply (Permutation_in _ (Permutation_sym Hperm)) in HL.
    destruct HL as [->|HL]; [reflexivity|].
    inversion Hs as [|? ? _ Hle]; subst.
    rewrite Forall_forall in Hle. specialize (Hle L HL). lia.
Qed.

(** C3, as the code has it: when one phrase of the list is strictly
    longer than all the others, in whatever order they come, every span
    its loop examines is returned, and no returned span lies within
    another returned span; with "foo" and "foo bar", in either order,
    the only span returned in "see foo bar now" is that of "foo bar". *)
Theorem longest_phrase_wins (text : string) (P : list string) (L : string)
    (fuel : nat) :
  (forall p, In p P -> p <> "") ->
  In L P ->
  (forall p, In p P -> p = L \/ length p < length L) ->
  length text + 2 <= fuel ->
  exists r,
    findPhrases fuel text P = Ok r
    /\ (forall i e,
          ExaminedFrom (wordRegExp L) text 0 i e ->
          In {| phrase := substring i (e - i) text; from := i; to := e |} r)
    /\ (forall m m',
          In m r -> In m' r ->
          from m <= from m' -> to m' <= to m -> m' = m)
    /\ findPhrases 17 "see foo bar now" ["foo"; "foo bar"]
       = Ok [{| phrase := "foo bar"; from := 4; to := 11 |}]
    /\ findPhrases 17 "see foo bar now" ["foo bar"; "foo"]
       = Ok [{| phrase := "foo bar"; from := 4; to := 11 |}].
Proof.
  intros HP HL Hmax Hf.
  destruct (findPhrases_sorted_disjoint text P fuel HP Hf)
    as (r & Hr & Hsort & Hord & Hspan).
  exists r. split; [assumption|]. split; [|split].
  - intros i e Hex. unfold findPhrases in Hr.
    destruct (sorted_head_longest P L HL Hmax) as [rest E].
    rewrite E in Hr. cbn [scanPhrases] in Hr.
    rewrite compile_wordRegExp in Hr.
    destruct (scan fuel (wordRegExp L) text 0 []) as [ms1| |] eqn:E1;
      cbn [bind] in Hr; try discriminate.
    destruct (scanPhrases fuel text rest ms1) as [ms| |] eqn:E2;
      cbn [bind] in Hr; try discriminate.
    inversion Hr; subst r.
    apply (Permutation_in _ (Permutation_sym (proj2 (sorted_matches ms)))).
    apply scanPhrases_extends in E2. destruct E2 as [new ->].
    apply in_or_app. left.
    eapply scan_fresh; [apply HP, HL | constructor | exact E1 | exact Hex].
  - intros m m' Hm Hm' Hfrom Hto.
    rewrite Forall_forall in Hspan.
    destruct (Hspan m Hm) as (Hlt & _).
    destruct (Hspan m' Hm') as (Hlt' & _).
    destruct (ForallOrdPairs_In Hord m m' Hm Hm') as [->|[H|H]];
      [reflexivity | lia | lia].
  - split; vm_compute; reflexivity.
Qed.

Lemma longest_phrase_wins_witness :
  exists r,
    findPhrases 17 "see foo bar now" ["foo"; "foo bar"] = Ok r
    /\ In {| phrase := "foo bar"; from := 4; to := 11 |} r.
Proof.
  destruct (longest_phrase_wins "see foo bar now" ["foo"; "foo bar"]
              "foo bar" 17) as (r & Hr & Hex & _).
  - intros p [<-|[<-|[]]]; discriminate.
  - right. now left.
  - intros p [<-|[<-|[]]]; [right; simpl; lia | now left].
  - simpl. lia.
  - exists r. split; [assumption|].
    apply (Hex 4 11). constructor. reflexivity.
Defined.

(** C3 as the spec words it does not hold: in "a a a" the phrase "a a"
    stands, between word boundaries, at offsets 2 to 5 with "a" at 4 to 5
    inside it; the span returned there is the one of "a". *)
Lemma shorter_phrase_returned :
  matchAt (wordRegExp "a a") "a a a" 2 = Some 5
  /\ matchAt (wordRegExp "a") "a a a" 4 = Some 5
  /\ findPhrases 7 "a a a" ["a"; "a a"]
     = Ok [{| phrase := "a a"; from := 0; to := 3 |};
           {| phrase := "a"; from := 4; to := 5 |}].
Proof.
  repeat split; vm_compute; reflexivity.
Qed.

End ScannerTheorems.

(* ------------------------------------------------------------------ *)
(** ** The write paths *)

Section WritePaths.
Import Js Vault UIManager.

Lemma hostCall_files (w w' : World) (r : option unit) :
  hostCall w = (r, w') -> files w' = files w.
Proof.
  unfold hostCall. destruct (faults w) as [|[] fs]; intros [= <- <-];
    reflexivity.
Qed.

Lemma read_files (path : string) (w w' : World) (r : option string) :
  read path w = (r, w') -> files w' = files w.
Proof.
  unfold read, bindIO.
  destruct (hostCall w) as [[[]|] w1] eqn:E; apply hostCall_files in E.
  - destruct (JsMap.get (files w1) path) as [[c|]|]; intros [= <- <-];
      assumption.
  - intros [= <- <-]. assumption.
Qed.

(** [modify] either rejects and changes nothing, or puts the whole new
    text in place. *)
Lemma modify_files (path data : string) (w w' : World) (r : option unit) :
  modify path data w = (r, w') ->
  match r with
  | None => files w' = files w
  | Some _ => files w' = JsMap.set (files w) path (File data)
  end.
Proof.
  unfold modify, bindIO.
  destruct (hostCall w) as [[[]|] w1] eqn:E; apply hostCall_files in E.
  - destruct (JsMap.get (files w1) path) as [[c|]|]; intros [= <- <-];
      simpl; congruence.
  - intros [= <- <-]. assumption.
Qed.

Lemma delete_files (path : string) (w w' : World) :
  delete path w = (None, w') -> files w' = files w.
Proof.
  unfold delete, bindIO.
  destruct (hostCall w) as [[[]|] w1] eqn:E; apply hostCall_files in E.
  - destruct (JsMap.get (files w1) path); intros [= <-]; assumption.
  - intros [= <-]. assumption.
Qed.

Lemma renameFile_files (path newPath : string) (w w' : World) :
  renameFile path newPath w = (None, w') -> files w' = files w.
Proof.
  unfold renameFile, bindIO.
  destruct (hostCall w) as [[[]|] w1] eqn:E; apply hostCall_files in E.
  - destruct (JsMap.get (files w1) path);
      [destruct (JsMap.get (files w1) newPath)|];
      intros [= <-]; assumption.
  - intros [= <-]. assumption.
Qed.

Lemma processFrontMatter_files (path : string) (f : string -> string)
    (w w' : World) (r : option unit) :
  processFrontMatter path f w = (r, w') ->
  match r with
  | None => files w' = files w
  | Some _ => exists c, JsMap.get (files w) path = Some (File c)
                        /\ files w' = JsMap.set (files w) path (File (f c))
  end.
Proof.
  unfold processFrontMatter, bindIO.
  destruct (hostCall w) as [[[]|] w1] eqn:E; apply hostCall_files in E.
  - destruct (JsMap.get (files w1) path) as [[c|]|] eqn:Ec;
      intros [= <- <-]; simpl; try assumption.
    exists c. rewrite <- E. auto.
  - intros [= <- <-]. assumption.
Qed.

Lemma read_content (path : string) (w w' : World) (c : string) :
  read path w = (Some c, w') -> JsMap.get (files w') path = Some (File c).
Proof.
  unfold read, bindIO.
  destruct (hostCall w) as [[[]|] w1] eqn:E; [|discriminate].
  destruct (JsMap.get (files w1) path) as [[c0|]|] eqn:Ec; try discriminate.
  intros [= <- <-]. exact Ec.
Qed.

(** What the search for the end of the front matter returns: one past
    the first [---] line from [i] on, or 0 when the [n] lines from [i] on
    hold none. *)
Lemma frontmatterEnd_spec (n : nat) (lines : list string) (i : nat) :
  (frontmatterEnd n lines i = 0
   /\ forall j l, i <= j < i + n -> nth_error lines j = Some l ->
                  trim l <> "---")
  \/ (exists e le,
        frontmatterEnd n lines i = e + 1
        /\ i <= e
        /\ nth_error lines e = Some le /\ trim le = "---"
        /\ forall j l, i <= j < e -> nth_error lines j = Some l ->
                       trim l <> "---").
Proof.
  revert i; induction n as [|n IH]; intros i; cbn [frontmatterEnd].
  - left. split; [reflexivity|]. intros j l Hj. lia.
  - destruct (nth_error lines i) as [l0|] eqn:Hl0.
    + destruct (trim l0 == "---") eqn:E.
      * right. exists i, l0. apply eqb_true_iff in E.
        split; [reflexivity|]. split; [lia|]. split; [assumption|].
        split; [assumption|]. intros j l Hj. lia.
      * apply eqb_false_iff in E.
        destruct (IH (i + 1)) as [[H0 Hno]|(e & le & He & Hie & Hle & Ht & Hno)].
        -- left. split; [assumption|]. intros j l Hj Hl.
           destruct (Nat.eq_dec j i) as [->|Hne]; [congruence|].
           apply (Hno j l); [lia | assumption].
        -- right. exists e, le.
           split; [assumption|]. split; [lia|]. split; [assumption|].
           split; [assumption|]. intros j l Hj Hl.
           destruct (Nat.eq_dec j i) as [->|Hne]; [congruence|].
           apply (Hno j l); [lia | assumption].
    + left. split; [reflexivity|]. intros j l Hj Hl.
      assert (Hlen : List.length lines <= i) by now apply nth_error_None.
      assert (j < List.length lines) by (apply nth_error_Some; congruence).
      lia.
Qed.

(** The [contentStart] of [updateAtomicDefinition] is where the front
    matter ends. *)
Lemma contentStart_through (lines : list string) (l0 : string) :
  nth_error lines 0 = Some l0 ->
  frontMatterThrough lines
    (if trim l0 == "---"
     then frontmatterEnd (List.length lines) lines 1 else 0).
Proof.
  intros Hl0. destruct (trim l0 == "---") eqn:E.
  - apply eqb_true_iff in E.
    destruct (frontmatterEnd_spec (List.length lines) lines 1)
      as [[H0 Hno]|(e & le & He & Hie & Hle & Ht & Hno)].
    + rewrite H0. left. split; [reflexivity|].
      intros e (He & _ & (le & Hle & Ht) & _).
      apply (Hno e le); [|assumption|assumption].
      assert (e < List.length lines) by (apply nth_error_Some; congruence).
      lia.
    + rewrite He. right. exists e. split; [reflexivity|].
      repeat split; eauto.
  - apply eqb_false_iff in E. left. split; [reflexivity|].
    intros e (_ & (l & Hl & Ht) & _). congruence.
Qed.

Lemma SingleWrite_modify (path data : string) :
  SingleWrite path (modify path data).
Proof.
  intros w w' r H. apply modify_files in H. destruct r; eauto.
Qed.

Lemma SingleWrite_throw (path : string) : SingleWrite path throw.
Proof.
  intros w w' r [= <- <-]. reflexivity.
Qed.

Lemma SingleWrite_read (path : string) (k : string -> IO unit) :
  (forall c, SingleWrite path (k c)) ->
  SingleWrite path (bindIO (read path) k).
Proof.
  intros Hk w w' r. unfold bindIO.
  destruct (read path w) as [[c|] w1] eqn:E; apply read_files in E.
  - intros H. apply Hk in H. now rewrite E in H.
  - intros [= <- <-]. assumption.
Qed.

Lemma SingleWrite_append (file ph : string) (al : list string) (ct : string) :
  SingleWrite file (appendToConsolidatedFile file ph al ct).
Proof.
  intros w w' r. unfold appendToConsolidatedFile, getAbstractFileByPath.
  destruct (JsMap.get (files w) file) as [[c|]|].
  - apply SingleWrite_read. intros c0. apply SingleWrite_modify.
  - intros [= <- <-]. reflexivity.
  - intros [= <- <-]. reflexivity.
Qed.

Lemma SingleWrite_update (file : string) (d : Defn) (ph : string)
    (al : list string) (ct : string) :
  SingleWrite file (updateConsolidatedDefinition file d ph al ct).
Proof.
  unfold updateConsolidatedDefinition. apply SingleWrite_read. intros c.
  destruct (lineNumber d) as [[|n]|];
    (apply SingleWrite_throw || apply SingleWrite_modify).
Qed.

Lemma SingleWrite_delete (file : string) (d : Defn) :
  SingleWrite file (deleteConsolidatedDefinition file d).
Proof.
  unfold deleteConsolidatedDefinition. apply SingleWrite_read. intros c.
  destruct (lineNumber d) as [[|n]|];
    (apply SingleWrite_throw || apply SingleWrite_modify).
Qed.

(** C9, as the code has it: appending a block, updating a block and
    deleting a block read the file and write it once, with a text that is
    complete before the write, and deleting an atomic file is one call:
    when one of them fails, the vault is as it was.  Updating an atomic
    file is three calls in a row, the front-matter rewrite, the write of
    the body and the rename: when it fails, the vault is as it was, or
    the file holds the rewritten front matter, or it holds the new body
    as well. *)
Theorem write_paths_on_failure (w w' : World) (file : string)
    (definition : Defn) (newPhrase : string) (newAliases : list string)
    (newContent : string)
    (setAliases : list string -> string -> string)
    (replace : string -> string -> string -> string) :
  (appendToConsolidatedFile file newPhrase newAliases newContent w
   = (None, w') -> files w' = files w)
  /\ (updateConsolidatedDefinition file definition newPhrase newAliases
        newContent w = (None, w') -> files w' = files w)
  /\ (deleteConsolidatedDefinition file definition w = (None, w') ->
      files w' = files w)
  /\ (deleteAtomicDefinition file w = (None, w') -> files w' = files w)
  /\ (forall r,
        appendToConsolidatedFile file newPhrase newAliases newContent w
          = (Some r, w')
        \/ updateConsolidatedDefinition file definition newPhrase newAliases
             newContent w = (Some r, w')
        \/ deleteConsolidatedDefinition file definition w = (Some r, w') ->
        exists data, files w' = JsMap.set (files w) file (File data))
  /\ (updateAtomicDefinition setAliases replace file definition newPhrase
        newAliases newContent w = (None, w') ->
      files w' = files w
      \/ exists c,
           JsMap.get (files w) file = Some (File c)
           /\ (files w'
               = JsMap.set (files w) file (File (setAliases newAliases c))
               \/ exists data,
                    withNewBody (setAliases newAliases c) newContent data
                    /\ files w'
                       = JsMap.set
                           (JsMap.set (files w) file
                                      (File (setAliases newAliases c)))
                           file (File data))).
Proof.
  pose proof (SingleWrite_append file newPhrase newAliases newContent w w')
    as Happend.
  pose proof (SingleWrite_update file definition newPhrase newAliases
                newContent w w') as Hupdate.
  pose proof (SingleWrite_delete file definition w w') as Hdelete.
  split; [apply (Happend None)|].
  split; [apply (Hupdate None)|].
  split; [apply (Hdelete None)|].
  split; [apply delete_files|].
  split.
  - intros r [H|[H|H]].
    + apply (Happend (Some r)), H.
    + apply (Hupdate (Some r)), H.
    + apply (Hdelete (Some r)), H.
  - unfold updateAtomicDefinition. unfold bindIO at 1.
    destruct (processFrontMatter file (setAliases newAliases) w)
      as [[[]|] w1] eqn:E1; apply processFrontMatter_files in E1.
    2:{ intros [= <-]. now left. }
    destruct E1 as (c & Hc & E1). unfold bindIO at 1.
    destruct (read file w1) as [[c1|] w2] eqn:E2.
    2:{ apply read_files in E2. intros [= <-]. right. exists c.
        split; [assumption|]. left. congruence. }
    pose proof (read_content _ _ _ _ E2) as Hread. apply read_files in E2.
    rewrite E2 in Hread.
    assert (Hc1 : c1 = setAliases newAliases c).
    { rewrite E1, get_set, String.eqb_refl in Hread. now inversion Hread. }
    subst c1.
    destruct (nth_error (split (ascii_of_nat 10) (setAliases newAliases c)) 0)
      as [l0|] eqn:Hl0.
    2:{ intros [= <-]. right. exists c. split; [assumption|]. left.
        congruence. }
    unfold bindIO at 1.
    match goal with
    | |- context [modify file ?d w2] =>
        destruct (modify file d w2) as [[[]|] w3] eqn:E3;
          apply modify_files in E3
    end.
    2:{ intros [= <-]. right. exists c. split; [assumption|]. left.
        congruence. }
    intros H. right. exists c. split; [assumption|]. right.
    eexists. split.
    2:{ rewrite <- E1, <- E2, <- E3.
        destruct (negb (newPhrase == phrase definition)).
        + apply renameFile_files in H. exact H.
        + discriminate H. }
    eexists. split; [|unfold slice; rewrite Nat.sub_0_r; reflexivity].
    now apply contentStart_through.
Qed.

Lemma write_paths_on_failure_witness :
  files (snd (appendToConsolidatedFile "defs/CPU.md" "GPU" [] "Draws."
                {| files := [("defs/CPU.md", File atomicNote)];
                   faults := [false; true] |}))
  = [("defs/CPU.md", File atomicNote)].
Proof.
  refine (proj1 (write_paths_on_failure
                   {| files := [("defs/CPU.md", File atomicNote)];
                      faults := [false; true] |}
                   _ "defs/CPU.md" atomicDef "GPU" [] "Draws."
                   Host.setAliases Host.replace) _).
  reflexivity.
Defined.

(** C9 as the spec words it does not hold: when the read that follows
    the front-matter rewrite is rejected, [updateAtomicDefinition] fails
    and the file is left with the new aliases and the old body. *)
Lemma updateAtomic_fails_half_written :
  updateAtomicDefinition Host.setAliases Host.replace "defs/CPU.md" atomicDef
    "CPU" ["new"] "new body"
    {| files := [("defs/CPU.md", File atomicNote)]; faults := [false; true] |}
  = (None,
     {| files :=
          [("defs/CPU.md",
            File (join nl ["---"; "def-type: atomic"; "aliases:"; "  - new";
                           "---"; ""; "old body"]))];
        faults := [] |})
  /\ join nl ["---"; "def-type: atomic"; "aliases:"; "  - new"; "---"; "";
              "old body"] <> atomicNote.
Proof.
  split; [vm_compute; reflexivity | vm_compute; discriminate].
Qed.

End WritePaths.

(* ================================================================== *)
(** * Further properties of the sources *)

(** ** Queries on the index *)

Section Queries.
Import DefinitionManager.

(** [getDefinitions] lists, in stored order, the Definitions under the
    lowercased key that belong to the context (all of them without a
    context or with an empty one), and [getDefinition] is its first
    element, whatever the context. *)
Theorem getDefinition_head_of_getDefinitions (c : DefinitionCache)
    (ph : string) (ctx : option (list string)) :
  getDefinition c ph ctx = hd_error (getDefinitions c ph ctx)
  /\ getDefinitions c ph ctx
     = match hasContext ctx with
       | Some l => filter (fun d => Js.includes l (sourceFile d))
                          (stored (definitions c) (Js.toLowerCase ph))
       | None => stored (definitions c) (Js.toLowerCase ph)
       end
  /\ forall f fs d,
       ctx = Some (f :: fs) -> In d (getDefinitions c ph ctx) ->
       In (sourceFile d) (f :: fs).
Proof.
  unfold getDefinition, getDefinitions, stored.
  destruct (JsMap.get (definitions c) (Js.toLowerCase ph)) as [[|d0 rest]|].
  - destruct (hasContext ctx); repeat split; try reflexivity;
      intros f fs d _ [].
  - destruct (hasContext ctx) as [l|] eqn:E.
    + repeat split; try (now destruct (filter _ (d0 :: rest))).
      intros f fs d -> Hd. simpl in E. inversion E; subst l.
      apply filter_In in Hd. now apply includes_In.
    + repeat split. intros f fs d ->. discriminate E.
  - destruct (hasContext ctx); repeat split; try reflexivity;
      intros f fs d _ [].
Qed.

Lemma getDefinition_head_of_getDefinitions_witness :
  In (sourceFile cpuDef) ["defs/a.md"; "defs/b.md"].
Proof.
  apply (proj2 (proj2 (getDefinition_head_of_getDefinitions
                         (addToCache (addToCache emptyCache cpuDef) ramDef)
                         "cpu" (Some ["defs/a.md"; "defs/b.md"])))
               "defs/a.md" ["defs/b.md"] cpuDef).
  - reflexivity.
  - simpl. now left.
Defined.

Lemma visit_fold_context (ctx : list string) (l : list Defn)
    (acc : list Defn) (seen : list string) :
  ctx <> [] ->
  fold_left (visit (Some ctx)) l (acc, seen)
  = (acc ++ filter (fun d => Js.includes ctx (sourceFile d)) (firstSeen seen l),
     seen ++ map seenKey (firstSeen seen l)).
Proof.
  intros Hctx. destruct ctx as [|f fs]; [congruence|]. clear Hctx.
  revert acc seen; induction l as [|d l IH]; intros acc seen.
  - simpl. now rewrite !app_nil_r.
  - cbn [fold_left firstSeen]. unfold visit at 2. cbn [hasContext].
    destruct (Js.includes seen (seenKey d)).
    + apply IH.
    + cbn [filter map].
      destruct (Js.includes (f :: fs) (sourceFile d)); rewrite IH;
        now rewrite <- ?app_assoc.
Qed.

(** With a context, [getAllDefinitions] is what it lists without one,
    narrowed to the files of the context and in the same order: a
    Definition outside the context still takes the place of a later one
    with the same [sourceFile:phrase] string.  An empty context is no
    context. *)
Theorem getAllDefinitions_context (c : DefinitionCache) (f : string)
    (fs : list string) :
  getAllDefinitions c (Some (f :: fs))
  = filter (fun d => Js.includes (f :: fs) (sourceFile d))
           (getAllDefinitions c None)
  /\ getAllDefinitions c (Some []) = getAllDefinitions c None.
Proof.
  split; [|reflexivity].
  rewrite getAllDefinitions_firstSeen.
  unfold getAllDefinitions, allStored.
  rewrite fold_concat, visit_fold_context by discriminate. reflexivity.
Qed.

Lemma setAdd_fold (xs s : list string) :
  NoDup s ->
  NoDup (fold_left setAdd xs s)
  /\ forall x, In x (fold_left setAdd xs s) <-> In x s \/ In x xs.
Proof.
  revert s; induction xs as [|a xs IH]; intros s Hs; simpl.
  - split; [assumption | tauto].
  - assert (Hs' : NoDup (setAdd s a)).
    { unfold setAdd. destruct (Js.includes s a) eqn:E; [assumption|].
      apply NoDup_app; [assumption | repeat constructor; simpl; tauto |].
      intros x Hx [<-|[]]. apply includes_In in Hx. congruence. }
    destruct (IH _ Hs') as [H1 H2]. split; [assumption|].
    intros x. rewrite H2. unfold setAdd.
    destruct (Js.includes s a) eqn:E.
    + apply includes_In in E. split; [tauto|].
      intros [H|[<-|H]]; tauto.
    + rewrite in_app_iff. simpl. tauto.
Qed.

Lemma getAllPhrases_fold (ds : list Defn) (s : list string) :
  NoDup s ->
  NoDup (fold_left (fun phrases def =>
                      fold_left setAdd (aliases def)
                                (setAdd phrases (phrase def))) ds s)
  /\ forall x,
       In x (fold_left (fun phrases def =>
                          fold_left setAdd (aliases def)
                                    (setAdd phrases (phrase def))) ds s)
       <-> In x s \/ exists d, In d ds /\ (x = phrase d \/ In x (aliases d)).
Proof.
  revert s; induction ds as [|d ds IH]; intros s Hs; simpl.
  - split; [assumption|]. intros x. split; [tauto|].
    intros [H|(d & [] & _)]. assumption.
  - destruct (setAdd_fold (phrase d :: aliases d) s Hs) as [H1 H2].
    simpl in H1, H2. destruct (IH _ H1) as [H3 H4]. split; [assumption|].
    intros x. rewrite H4, H2. split.
    + intros [[H|[H|H]]|(e & He & Hx)]; eauto 6.
    + intros [H|(e & [<-|He] & [Hx|Hx])]; eauto 6.
Qed.

(** [getAllPhrases] holds no string twice, and holds exactly the phrases
    and the aliases of the Definitions [getAllDefinitions] lists for the
    same context. *)
Theorem getAllPhrases_exact (c : DefinitionCache) (ctx : option (list string)) :
  NoDup (getAllPhrases c ctx)
  /\ forall x,
       In x (getAllPhrases c ctx)
       <-> exists d, In d (getAllDefinitions c ctx)
                     /\ (x = phrase d \/ In x (aliases d)).
Proof.
  unfold getAllPhrases.
  destruct (getAllPhrases_fold (getAllDefinitions c ctx) [] (NoDup_nil _))
    as [H1 H2].
  split; [assumption|]. intros x. rewrite H2. simpl. tauto.
Qed.

Lemma Reachable_fileIndex_nonempty (c : DefinitionCache) :
  Reachable c -> forall f, JsMap.get (fileIndex c) f <> Some [].
Proof.
  induction 1 as [|c d Hc IH|c p Hc IH]; intros f.
  - discriminate.
  - rewrite fileIndex_addToCache, get_pushUnder.
    destruct (sourceFile d == f); [|apply IH].
    intros [= E]. now apply snoc_not_nil in E.
  - unfold removeFromCache.
    destruct (JsMap.get (fileIndex c) p); [|apply IH].
    simpl. rewrite get_delete. destruct (p == f); [discriminate | apply IH].
Qed.

Lemma allStored_stored (c : DefinitionCache) (d : Defn) :
  NoDup (JsMap.keys (definitions c)) ->
  In d (allStored c) -> exists k, In d (stored (definitions c) k).
Proof.
  intros Hnd H. unfold allStored, JsMap.values in H.
  apply in_concat in H. destruct H as (l & Hl & Hd).
  apply in_map_iff in Hl. destruct Hl as ([k l'] & <- & Hin).
  exists k. unfold stored. now rewrite (In_get _ _ _ Hnd Hin).
Qed.

(** In a reachable cache, [isDefinitionFile] holds of a path exactly when
    some stored Definition has it as its source file. *)
Theorem isDefinitionFile_owns (c : DefinitionCache) (f : string) :
  Reachable c ->
  (isDefinitionFile c f = true
   <-> exists d, In d (allStored c) /\ sourceFile d = f).
Proof.
  intros Hr. pose proof (Reachable_inv c Hr) as Hc.
  unfold isDefinitionFile, JsMap.has. split.
  - destruct (JsMap.get (fileIndex c) f) as [[|ph phs]|] eqn:E;
      [|intros _|discriminate].
    + now apply Reachable_fileIndex_nonempty in E.
    + destruct (inv_phrase _ Hc f (ph :: phs) ph E (or_introl eq_refl))
        as (d & Hd & _ & Hf).
      exists d. split; [|assumption]. eapply stored_allStored; eassumption.
  - intros (d & Hd & <-).
    apply allStored_stored in Hd; [|apply (inv_keys _ Hc)].
    destruct Hd as [k Hk]. apply (inv_owner _ Hc) in Hk.
    unfold JsMap.has in Hk. exact Hk.
Qed.

Lemma isDefinitionFile_owns_witness :
  isDefinitionFile (addToCache emptyCache cpuDef) "defs/a.md" = true.
Proof.
  apply (isDefinitionFile_owns (addToCache emptyCache cpuDef) "defs/a.md").
  - repeat constructor.
  - exists cpuDef. split; [now left | reflexivity].
Defined.

Lemma notFrom_id (p : string) (l : list Defn) :
  (forall d, In d l -> sourceFile d <> p) -> notFrom p l = l.
Proof.
  unfold notFrom. induction l as [|d l IH]; simpl; intros H; [reflexivity|].
  assert (E : (sourceFile d == p) = false)
    by (apply eqb_false_iff, H; now left).
  rewrite E. simpl. f_equal. apply IH. intros e He. apply H. now right.
Qed.

Lemma Reachable_not_owned (c : DefinitionCache) (p k : string) (d : Defn) :
  Reachable c -> JsMap.get (fileIndex c) p = None ->
  In d (stored (definitions c) k) -> sourceFile d <> p.
Proof.
  intros Hr Hp Hd Heq.
  apply (inv_owner _ (Reachable_inv c Hr)) in Hd.
  unfold JsMap.has in Hd. now rewrite Heq, Hp in Hd.
Qed.

Lemma stored_removeFromCache_reachable (c : DefinitionCache) (p k : string) :
  Reachable c ->
  stored (definitions (removeFromCache c p)) k
  = notFrom p (stored (definitions c) k).
Proof.
  intros Hr. pose proof (Reachable_inv c Hr) as Hc.
  destruct (JsMap.get (fileIndex c) p) as [phs|] eqn:Hp.
  - apply (stored_removeFromCache c p phs);
      [apply (inv_keys _ Hc) | assumption].
  - assert (E : removeFromCache c p = c)
      by (unfold removeFromCache; now rewrite Hp).
    rewrite E. symmetry. apply notFrom_id. intros d.
    now apply (Reachable_not_owned c p k).
Qed.

(** From a reachable cache, [removeFromCache p] leaves under every key
    the Definitions of the other files, in their order, and leaves the
    file index of every other file as it was; removing the same file
    again changes nothing. *)
Theorem removeFromCache_keeps_others (c : DefinitionCache) (p : string) :
  Reachable c ->
  (forall k,
      stored (definitions (removeFromCache c p)) k
      = notFrom p (stored (definitions c) k))
  /\ (forall f,
        JsMap.get (fileIndex (removeFromCache c p)) f
        = if p == f then None else JsMap.get (fileIndex c) f)
  /\ removeFromCache (removeFromCache c p) p = removeFromCache c p.
Proof.
  intros Hr. pose proof (Reachable_inv c Hr) as Hc.
  destruct (JsMap.get (fileIndex c) p) as [phs|] eqn:Hp.
  - repeat split.
    + intros k. now apply stored_removeFromCache_reachable.
    + intros f. unfold removeFromCache. rewrite Hp. simpl. apply get_delete.
    + unfold removeFromCache at 1.
      assert (E : JsMap.get (fileIndex (removeFromCache c p)) p = None).
      { unfold removeFromCache. rewrite Hp. simpl.
        now rewrite get_delete, String.eqb_refl. }
      now rewrite E.
  - assert (E : removeFromCache c p = c)
      by (unfold removeFromCache; now rewrite Hp).
    rewrite !E. repeat split.
    + intros k. rewrite <- E at 1. now apply stored_removeFromCache_reachable.
    + intros f. destruct (p == f) eqn:Ef; [|reflexivity].
      apply eqb_true_iff in Ef. now subst.
Qed.

Lemma removeFromCache_keeps_others_witness :
  stored (definitions
            (removeFromCache (addToCache (addToCache emptyCache cpuDef) ramDef)
                             "defs/a.md")) "memory"
  = [ramDef].
Proof.
  apply (removeFromCache_keeps_others
           (addToCache (addToCache emptyCache cpuDef) ramDef) "defs/a.md").
  repeat constructor.
Defined.

Lemma notFrom_app (p : string) (a b : list Defn) :
  notFrom p (a ++ b) = notFrom p a ++ notFrom p b.
Proof. apply filter_app. Qed.

Lemma notFrom_repeat (d : Defn) (n : nat) :
  notFrom (sourceFile d) (repeat d n) = [].
Proof.
  unfold notFrom. induction n as [|n IH]; simpl; [reflexivity|].
  now rewrite String.eqb_refl.
Qed.

(** Adding a Definition of a file the cache does not know and then
    removing that file gives back the cache as the queries see it: every
    key and every file has what it had. *)
Theorem add_then_remove (c : DefinitionCache) (d : Defn) :
  Reachable c ->
  isDefinitionFile c (sourceFile d) = false ->
  (forall k,
      JsMap.get (definitions (removeFromCache (addToCache c d) (sourceFile d))) k
      = JsMap.get (definitions c) k)
  /\ (forall f,
        JsMap.get (fileIndex (removeFromCache (addToCache c d) (sourceFile d))) f
        = JsMap.get (fileIndex c) f).
Proof.
  intros Hr Hno. unfold isDefinitionFile, JsMap.has in Hno.
  destruct (JsMap.get (fileIndex c) (sourceFile d)) eqn:Hp; [discriminate|].
  pose proof (Reachable_inv c Hr) as Hc.
  assert (Hr' : Reachable (addToCache c d)) by now constructor.
  pose proof (Reachable_inv _ Hr') as Hc'.
  assert (Hp' : exists phs,
             JsMap.get (fileIndex (addToCache c d)) (sourceFile d) = Some phs).
  { rewrite fileIndex_addToCache, get_pushUnder, String.eqb_refl. eauto. }
  destruct Hp' as [phs Hphs]. split.
  - intros k.
    rewrite (removeFromCache_get _ _ phs) by (apply (inv_keys _ Hc') || assumption).
    pose proof (stored_addToCache c d k) as Hst.
    assert (Hfil : notFrom (sourceFile d) (stored (definitions (addToCache c d)) k)
                   = stored (definitions c) k).
    { rewrite Hst, notFrom_app, notFrom_repeat, app_nil_r.
      apply notFrom_id. intros e.
      now apply (Reachable_not_owned c (sourceFile d) k). }
    unfold stored in Hfil at 1. unfold notFrom in Hfil.
    destruct (JsMap.get (definitions (addToCache c d)) k) as [l|] eqn:E.
    + rewrite Hfil. unfold stored.
      destruct (JsMap.get (definitions c) k) as [[|x r]|] eqn:Ek;
        try reflexivity.
      now apply (inv_nonempty _ Hc) in Ek.
    + unfold addToCache in E; simpl in E.
      apply get_fold_push_None in E. rewrite get_pushUnder in E.
      destruct (Js.toLowerCase (phrase d) == k); [discriminate|].
      now rewrite E.
  - intros f. unfold removeFromCache at 1. rewrite Hphs. cbn [fileIndex].
    rewrite get_delete, fileIndex_addToCache, get_pushUnder.
    destruct (sourceFile d == f) eqn:E; [|reflexivity].
    apply eqb_true_iff in E. now subst.
Qed.

Lemma add_then_remove_witness :
  JsMap.get
    (definitions (removeFromCache (addToCache (addToCache emptyCache cpuDef) ramDef)
                                  (sourceFile ramDef))) "cpu"
  = Some [cpuDef].
Proof.
  refine (proj1 (add_then_remove (addToCache emptyCache cpuDef) ramDef _ _) "cpu").
  - repeat constructor.
  - reflexivity.
Defined.

Lemma stored_fold_addToCache (ds : list Defn) (c : DefinitionCache) (k : string) :
  stored (definitions (fold_left addToCache ds c)) k
  = stored (definitions c) k ++ filedUnder k ds.
Proof.
  revert c; induction ds as [|d ds IH]; intros c; simpl.
  - now rewrite app_nil_r.
  - rewrite IH, stored_addToCache, <- app_assoc. reflexivity.
Qed.

Lemma Reachable_fold_addToCache (ds : list Defn) (c : DefinitionCache) :
  Reachable c -> Reachable (fold_left addToCache ds c).
Proof.
  revert c; induction ds as [|d ds IH]; intros c Hc; simpl; [assumption|].
  apply IH. now constructor.
Qed.

Lemma notFrom_filedUnder (p k : string) (ds : list Defn) :
  (forall d, In d ds -> sourceFile d = p) -> notFrom p (filedUnder k ds) = [].
Proof.
  induction ds as [|d ds IH]; intros H; [reflexivity|].
  change (filedUnder k (d :: ds))
    with (repeat d (countKey k (keysOf d)) ++ filedUnder k ds).
  rewrite notFrom_app, IH by (intros e He; apply H; now right).
  rewrite <- (H d (or_introl eq_refl)), notFrom_repeat. reflexivity.
Qed.

Lemma notFrom_idem (p : string) (l : list Defn) :
  notFrom p (notFrom p l) = notFrom p l.
Proof.
  apply notFrom_id. intros d Hd. apply filter_In in Hd.
  destruct Hd as [_ Hd]. apply negb_true_iff in Hd. now apply eqb_false_iff.
Qed.

End Queries.

Section Reload.
Import DefinitionManager.
Variable loadDefinitionFile : string -> list Defn.

Lemma stored_reloadFile (m : Manager) (path_ k : string) :
  Reachable (cache m) ->
  stored (definitions (cache (reloadFile loadDefinitionFile m path_))) k
  = notFrom path_ (stored (definitions (cache m)) k)
    ++ filedUnder k (loadDefinitionFile path_).
Proof.
  intros Hr. unfold reloadFile. cbn [cache].
  rewrite stored_fold_addToCache.
  now rewrite stored_removeFromCache_reachable.
Qed.

(** [reloadFile] on a reachable cache, when the file loads Definitions of
    its own path: each key then holds the Definitions of the other files
    as before, followed by the loaded ones filed under that key; so
    reloading once more gives the same lists and nothing is doubled. *)
Theorem reloadFile_replaces (m : Manager) (path : string) :
  Reachable (cache m) ->
  (forall d, In d (loadDefinitionFile path) -> sourceFile d = path) ->
  (forall k,
      stored (definitions (cache (reloadFile loadDefinitionFile m path))) k
      = notFrom path (stored (definitions (cache m)) k)
        ++ filedUnder k (loadDefinitionFile path))
  /\ (forall k,
        stored (definitions
                  (cache (reloadFile loadDefinitionFile
                            (reloadFile loadDefinitionFile m path) path))) k
        = stored (definitions (cache (reloadFile loadDefinitionFile m path))) k)
  /\ Reachable (cache (reloadFile loadDefinitionFile m path)).
Proof.
  intros Hr Hload.
  assert (H1 : forall m0, Reachable (cache m0) -> forall k,
      stored (definitions (cache (reloadFile loadDefinitionFile m0 path))) k
      = notFrom path (stored (definitions (cache m0)) k)
        ++ filedUnder k (loadDefinitionFile path)).
  { intros m0 Hr0 k. unfold reloadFile. cbn [cache].
    rewrite stored_fold_addToCache.
    now rewrite stored_removeFromCache_reachable. }
  assert (H2 : forall m0, Reachable (cache m0) ->
                          Reachable (cache (reloadFile loadDefinitionFile m0 path))).
  { intros m0 Hr0. unfold reloadFile. cbn [cache].
    apply Reachable_fold_addToCache. now constructor. }
  repeat split.
  - now apply H1.
  - intros k. rewrite (H1 _ (H2 m Hr)), (H1 m Hr).
    rewrite notFrom_app, notFrom_idem, notFrom_filedUnder by assumption.
    now rewrite app_nil_r.
  - now apply H2.
Qed.

(** Two changes inside the folder before the timer goes off: the second
    call replaces the pending timer, so only the file of the second call
    is reloaded and the cache holds for the first file what it held
    before. *)
Theorem debounce_reloads_last_file_only (m : Manager) (a b : string) :
  isInDefinitionFolder (definitionFolder m) a = true ->
  isInDefinitionFolder (definitionFolder m) b = true ->
  Reachable (cache m) ->
  (forall d, In d (loadDefinitionFile b) -> sourceFile d = b) ->
  a <> b ->
  cache (Debounce.timerFires loadDefinitionFile
           (onFileChange (onFileChange m a) b))
  = cache (reloadFile loadDefinitionFile m b)
  /\ forall k,
       filter (fun d => sourceFile d == a)
         (stored (definitions
                    (cache (Debounce.timerFires loadDefinitionFile
                              (onFileChange (onFileChange m a) b)))) k)
       = filter (fun d => sourceFile d == a)
                (stored (definitions (cache m)) k).
Proof.
  intros Ha Hb Hr Hload Hab.
  assert (E : cache (Debounce.timerFires loadDefinitionFile
                       (onFileChange (onFileChange m a) b))
              = cache (reloadFile loadDefinitionFile m b)).
  { unfold onFileChange. rewrite Ha. cbn [negb definitionFolder].
    rewrite Hb. reflexivity. }
  split; [assumption|]. intros k. rewrite E.
  rewrite (stored_reloadFile m b k Hr).
  rewrite filter_app.
  assert (E2 : filter (fun d => sourceFile d == a)
                      (filedUnder k (loadDefinitionFile b)) = []).
  { assert (Hall : forall d, In d (filedUnder k (loadDefinitionFile b)) ->
                             sourceFile d = b).
    { intros d Hd. unfold filedUnder in Hd. apply in_flat_map in Hd.
      destruct Hd as (e & He & Hd). apply repeat_spec in Hd. subst.
      now apply Hload. }
    induction (filedUnder k (loadDefinitionFile b)) as [|d l IH];
      [reflexivity|]. simpl.
    assert (Hd : (sourceFile d == a) = false).
    { apply eqb_false_iff. rewrite (Hall d (or_introl eq_refl)). congruence. }
    rewrite Hd. apply IH. intros e He. apply Hall. now right. }
  rewrite E2, app_nil_r. unfold notFrom.
  induction (stored (definitions (cache m)) k) as [|d l IH]; [reflexivity|].
  simpl. destruct (sourceFile d == b) eqn:Edb; simpl.
  - apply eqb_true_iff in Edb.
    assert (Hd : (sourceFile d == a) = false)
      by (apply eqb_false_iff; congruence).
    now rewrite Hd.
  - destruct (sourceFile d == a); [now rewrite IH | assumption].
Qed.

(** A rename into the definition folder moves the Definitions: in a
    reachable cache, once [onFileRename] is done each key holds what it
    held from files other than the old and the new path, followed by
    what the file loads under its new path; nothing of the old path is
    left when the two paths differ. *)
Theorem rename_moves_definitions (m : Manager) (path oldPath : string) :
  Reachable (cache m) ->
  isInDefinitionFolder (definitionFolder m) path = true ->
  (forall d, In d (loadDefinitionFile path) -> sourceFile d = path) ->
  forall k,
    stored (definitions (cache (onFileRename loadDefinitionFile m path oldPath)))
           k
    = notFrom path (notFrom oldPath (stored (definitions (cache m)) k))
      ++ filedUnder k (loadDefinitionFile path)
    /\ (path <> oldPath ->
        Forall (fun d => sourceFile d <> oldPath)
               (stored (definitions
                          (cache (onFileRename loadDefinitionFile m path
                                               oldPath))) k)).
Proof.
  intros Hr Hin Hload k.
  assert (E : stored (definitions
                        (cache (onFileRename loadDefinitionFile m path oldPath)))
                     k
              = notFrom path (notFrom oldPath (stored (definitions (cache m)) k))
                ++ filedUnder k (loadDefinitionFile path)).
  { unfold onFileRename. rewrite Hin. rewrite andb_false_r.
    cbn [definitionFolder]. rewrite Hin.
    rewrite stored_reloadFile by (cbn [cache]; now constructor).
    cbn [cache]. now rewrite stored_removeFromCache_reachable. }
  split; [exact E|]. intros Hne. rewrite E. apply Forall_app. split.
  - apply Forall_forall. intros d Hd. unfold notFrom in Hd.
    apply filter_In in Hd. destruct Hd as [Hd _].
    apply filter_In in Hd. destruct Hd as [_ Hd].
    apply negb_true_iff in Hd. now apply eqb_false_iff.
  - apply Forall_forall. intros d Hd. unfold filedUnder in Hd.
    apply in_flat_map in Hd. destruct Hd as (e & He & Hd).
    apply repeat_spec in Hd. subst d. rewrite (Hload e He). exact Hne.
Qed.

End Reload.

Lemma reloadFile_replaces_witness :
  (forall k,
      stored (definitions
                (DefinitionManager.cache
                   (DefinitionManager.reloadFile cpuLoader cpuManager
                                                 "defs/a.md"))) k
      = notFrom "defs/a.md"
                (stored (definitions (DefinitionManager.cache cpuManager)) k)
        ++ filedUnder k (cpuLoader "defs/a.md"))
  /\ (forall k,
        stored (definitions
                  (DefinitionManager.cache
                     (DefinitionManager.reloadFile cpuLoader
                        (DefinitionManager.reloadFile cpuLoader cpuManager
                                                      "defs/a.md")
                        "defs/a.md"))) k
        = stored (definitions
                    (DefinitionManager.cache
                       (DefinitionManager.reloadFile cpuLoader cpuManager
                                                     "defs/a.md"))) k)
  /\ Reachable (DefinitionManager.cache
                  (DefinitionManager.reloadFile cpuLoader cpuManager
                                                "defs/a.md")).
Proof.
  apply (reloadFile_replaces cpuLoader cpuManager "defs/a.md").
  - apply Reachable_add, Reachable_add, Reachable_empty.
  - intros d [<-|[]]. reflexivity.
Defined.

Lemma debounce_reloads_last_file_only_witness :
  DefinitionManager.cache
    (Debounce.timerFires cpuLoader
       (DefinitionManager.onFileChange
          (DefinitionManager.onFileChange cpuManager "defs/b.md")
          "defs/a.md"))
  = DefinitionManager.cache
      (DefinitionManager.reloadFile cpuLoader cpuManager "defs/a.md")
  /\ forall k,
       filter (fun d => sourceFile d == "defs/b.md")
         (stored (definitions
                    (DefinitionManager.cache
                       (Debounce.timerFires cpuLoader
                          (DefinitionManager.onFileChange
                             (DefinitionManager.onFileChange cpuManager
                                                             "defs/b.md")
                             "defs/a.md")))) k)
       = filter (fun d => sourceFile d == "defs/b.md")
                (stored (definitions (DefinitionManager.cache cpuManager)) k).
Proof.
  apply (debounce_reloads_last_file_only cpuLoader cpuManager
           "defs/b.md" "defs/a.md").
  - reflexivity.
  - reflexivity.
  - apply Reachable_add, Reachable_add, Reachable_empty.
  - intros d [<-|[]]. reflexivity.
  - discriminate.
Defined.

Lemma rename_moves_definitions_witness :
  stored (definitions
            (DefinitionManager.cache
               (DefinitionManager.onFileRename cpuLoader cpuManager
                  "defs/a.md" "defs/b.md"))) "ram"
  = notFrom "defs/a.md"
      (notFrom "defs/b.md"
         (stored (definitions (DefinitionManager.cache cpuManager)) "ram"))
    ++ filedUnder "ram" (cpuLoader "defs/a.md")
  /\ ("defs/a.md" <> "defs/b.md" ->
      Forall (fun d => sourceFile d <> "defs/b.md")
             (stored (definitions
                        (DefinitionManager.cache
                           (DefinitionManager.onFileRename cpuLoader cpuManager
                              "defs/a.md" "defs/b.md"))) "ram")).
Proof.
  apply (rename_moves_definitions cpuLoader cpuManager "defs/a.md" "defs/b.md").
  - apply Reachable_add, Reachable_add, Reachable_empty.
  - reflexivity.
  - intros d [<-|[]]. reflexivity.
Defined.

(* ------------------------------------------------------------------ *)
(** ** What the consolidated parser returns *)

Section TrimFacts.
Import Js.

Lemma trimStart_head (s : string) : headNotSpace (trimStart s).
Proof.
  induction s as [|c s IH]; simpl; [exact I|].
  destruct (isSpace c) eqn:E; [exact IH | exact E].
Qed.

Lemma trimStart_id (s : string) : headNotSpace s -> trimStart s = s.
Proof.
  destruct s as [|c s]; simpl; [reflexivity|]. now intros ->.
Qed.

Lemma trimEnd_head (s : string) : headNotSpace s -> headNotSpace (trimEnd s).
Proof.
  destruct s as [|c s]; simpl; [trivial|]. intros E. now rewrite E.
Qed.

Lemma trimEnd_idem (s : string) : trimEnd (trimEnd s) = trimEnd s.
Proof.
  induction s as [|c s IH]; simpl; [reflexivity|].
  destruct (isSpace c && (trimEnd s == "")) eqn:E; [reflexivity|].
  simpl. now rewrite IH, E.
Qed.

Lemma trim_idem (s : string) : trim (trim s) = trim s.
Proof.
  unfold trim.
  rewrite (trimStart_id (trimEnd (trimStart s)))
    by apply trimEnd_head, trimStart_head.
  apply trimEnd_idem.
Qed.

End TrimFacts.

Section BlockFacts.
Import Js ConsolidatedParser.
Variables (pat : DividerPattern) (lines : list string) (filePath : string).

Lemma parseAliases_clean (aliasText : string) :
  Forall (fun a => a <> "" /\ trim a = a) (parseAliases aliasText).
Proof.
  unfold parseAliases. apply Forall_forall. intros a Ha.
  apply filter_In in Ha. destruct Ha as [Ha Hlen].
  apply in_map_iff in Ha. destruct Ha as (x & <- & _).
  split; [|apply trim_idem].
  intros E. rewrite E in Hlen. discriminate.
Qed.

Lemma contentLoop_lines (fuel i : nat) (cl : list string) (e : nat)
    (cl' : list string) :
  contentLoop fuel pat lines i cl = Ok (e, cl') ->
  exists more, cl' = cl ++ more /\ Forall (contentLine pat lines) more.
Proof.
  revert i cl; induction fuel as [|fuel IH]; intros i cl;
    cbn [contentLoop]; [discriminate|].
  destruct (i <? List.length lines).
  2:{ intros [= <- <-]. exists []. now rewrite app_nil_r. }
  unfold at_. destruct (nth_error lines i) as [l|] eqn:Hl; [|discriminate].
  cbn [bind].
  destruct (isDivider pat (trim l)) eqn:Hd.
  { intros [= <- <-]. exists []. now rewrite app_nil_r. }
  destruct (isHeader (trim l)) eqn:Hh.
  { intros [= <- <-]. exists []. now rewrite app_nil_r. }
  intros H. apply IH in H. destruct H as (more & -> & Hmore).
  exists (l :: more). rewrite <- app_assoc. split; [reflexivity|].
  constructor; [|assumption].
  repeat split; try assumption. eapply nth_error_In; eassumption.
Qed.

Lemma shiftBlank_suffix (cl : list string) :
  exists pre, cl = pre ++ shiftBlank cl.
Proof.
  induction cl as [|l cl IH]; simpl; [now exists []|].
  destruct (trim l == ""); [|now exists []].
  destruct IH as [pre Hpre]. exists (l :: pre). simpl. now f_equal.
Qed.

Lemma shiftBlank_head (cl : list string) (l : string) (rest : list string) :
  shiftBlank cl = l :: rest -> trim l <> "".
Proof.
  induction cl as [|x cl IH]; simpl; [discriminate|].
  destruct (trim x == "") eqn:E; [exact IH|].
  intros [= <- <-]. now apply eqb_false_iff.
Qed.

Lemma popBlank_prefix (cl : list string) :
  exists suf, cl = popBlank cl ++ suf.
Proof.
  induction cl as [|l cl IH]; simpl; [now exists []|].
  destruct IH as [suf Hsuf].
  destruct (popBlank cl) as [|y r] eqn:E.
  - destruct (trim l == ""); [now exists (l :: cl)|].
    exists cl. reflexivity.
  - exists suf. simpl. now f_equal.
Qed.

Lemma popBlank_last (cl pre : list string) (l : string) :
  popBlank cl = pre ++ [l] -> trim l <> "".
Proof.
  revert pre; induction cl as [|x cl IH]; intros pre; simpl.
  - destruct pre; discriminate.
  - destruct (popBlank cl) as [|y r] eqn:E.
    + destruct (trim x == "") eqn:Ex.
      * destruct pre; discriminate.
      * destruct pre as [|p pre]; [|destruct pre; discriminate].
        intros [= <-]. now apply eqb_false_iff.
    + destruct pre as [|p pre]; simpl; intros H; inversion H.
      now apply (IH pre).
Qed.

Lemma popBlank_head (cl : list string) (l : string) (rest : list string) :
  (forall x r, cl = x :: r -> trim x <> "") ->
  popBlank cl = l :: rest -> trim l <> "".
Proof.
  destruct cl as [|x cl]; simpl; [discriminate|]. intros H.
  specialize (H x cl eq_refl).
  destruct (popBlank cl).
  - destruct (trim x == ""); [discriminate|]. now intros [= <- <-].
  - now intros [= <- <-].
Qed.

Lemma trimmed_ends (cl : list string) :
  noBlankEnds (popBlank (shiftBlank cl))
  /\ forall (Q : string -> Prop),
       Forall Q cl -> Forall Q (popBlank (shiftBlank cl)).
Proof.
  split; [split|].
  - intros l rest. apply popBlank_head. intros x r. apply shiftBlank_head.
  - intros pre l. apply popBlank_last.
  - intros Q HQ.
    destruct (shiftBlank_suffix cl) as [pre Hpre].
    destruct (popBlank_prefix (shiftBlank cl)) as [suf Hsuf].
    rewrite Hpre in HQ. apply Forall_app in HQ. destruct HQ as [_ HQ].
    rewrite Hsuf in HQ. apply Forall_app in HQ. tauto.
Qed.

Lemma parseBlock_shape (i : nat) (d : Defn) :
  blockAt pat lines filePath i d ->
  lineNumber d = Some (i + 1)
  /\ phrase d <> "" /\ trim (phrase d) = phrase d
  /\ aliases d = aliasesAfter lines i
  /\ Forall (fun a => a <> "" /\ trim a = a) (aliases d)
  /\ sourceFile d = filePath /\ sourceType d = consolidated
  /\ blockId d = None
  /\ exists cl,
       content d = join nl cl
       /\ Forall (contentLine pat lines) cl
       /\ noBlankEnds cl.
Proof.
  intros (l & e & Hl & Hh & Hb).
  pose proof (header_phrase_nonempty l Hh) as Hne.
  unfold parseBlock, at_ in Hb. rewrite Hl in Hb. cbn [bind] in Hb.
  apply eqb_false_iff in Hne as Hne'. rewrite Hne' in Hb.
  unfold aliasesAfter.
  destruct (i + 1 <? List.length lines) eqn:Hi.
  - apply Nat.ltb_lt in Hi.
    destruct (nth_error lines (i + 1)) as [l1|] eqn:Hl1.
    2:{ apply nth_error_None in Hl1. lia. }
    cbn [bind] in Hb.
    destruct (startsWith (trim l1) "*" && endsWith (trim l1) "*"
              && (2 <? length (trim l1))) eqn:Ha; cbn [bind] in Hb.
    + destruct (contentLoop _ pat lines (i + 1 + 1) []) as [[e' cl]| |] eqn:Hc;
        cbn [bind] in Hb; try discriminate.
      inversion Hb; subst d e. cbn.
      apply contentLoop_lines in Hc. destruct Hc as (more & -> & Hmore).
      destruct (trimmed_ends more) as [Hends Hall].
      repeat split; try assumption; try apply trim_idem;
        try apply parseAliases_clean.
      eexists. repeat split; try reflexivity; try apply Hends.
      now apply Hall.
    + destruct (contentLoop _ pat lines (i + 1) []) as [[e' cl]| |] eqn:Hc;
        cbn [bind] in Hb; try discriminate.
      inversion Hb; subst d e. cbn.
      apply contentLoop_lines in Hc. destruct Hc as (more & -> & Hmore).
      destruct (trimmed_ends more) as [Hends Hall].
      repeat split; try assumption; try apply trim_idem; try constructor.
      eexists. repeat split; try reflexivity; try apply Hends.
      now apply Hall.
  - apply Nat.ltb_ge in Hi.
    assert (Hl1 : nth_error lines (i + 1) = None)
      by (apply nth_error_None; lia).
    rewrite Hl1. cbn [bind] in Hb.
    destruct (contentLoop _ pat lines (i + 1) []) as [[e' cl]| |] eqn:Hc;
      cbn [bind] in Hb; try discriminate.
    inversion Hb; subst d e. cbn.
    apply contentLoop_lines in Hc. destruct Hc as (more & -> & Hmore).
    destruct (trimmed_ends more) as [Hends Hall].
    repeat split; try assumption; try apply trim_idem; try constructor.
    eexists. repeat split; try reflexivity; try apply Hends.
    now apply Hall.
Qed.

#[local] Arguments contentLoop : simpl never.
#[local] Arguments skipFrontmatter : simpl never.
#[local] Arguments parseBlock : simpl never.

Lemma parseLoop_blocks (fuel i : nat) (defs : list Defn) :
  List.length lines - i < fuel ->
  exists new idxs,
    parseLoop fuel pat lines filePath i defs = Ok (defs ++ new)
    /\ Forall2 (blockAt pat lines filePath) idxs new
    /\ StronglySorted lt idxs
    /\ Forall (fun j => i <= j) idxs.
Proof.
  revert i defs; induction fuel as [|fuel IH]; intros i defs Hf; simpl.
  - lia.
  - destruct (i <? List.length lines) eqn:Hi.
    2:{ exists [], []. rewrite app_nil_r. repeat split; constructor. }
    apply Nat.ltb_lt in Hi.
    destruct (at_in_range lines i Hi) as (l & Hl & ->). simpl.
    destruct ((i =? 0) && (trim l == "---")) eqn:Hfm.
    + destruct (skipFrontmatter_ok lines (S (List.length lines)) (i + 1))
        as (j & -> & Hj & _); [lia|]. simpl.
      destruct (IH (j + 1) defs) as (new & idxs & -> & H2 & Hs & Hge); [lia|].
      exists new, idxs. repeat split; try assumption.
      eapply Forall_impl; [|exact Hge]. simpl. intros; lia.
    + destruct (isHeader (trim l)) eqn:Hh.
      * destruct (parseBlock_ok pat lines filePath i l Hl Hh)
          as (d & e & Hb & He & _). rewrite Hb. simpl.
        destruct (IH e (defs ++ [d])) as (new & idxs & -> & H2 & Hs & Hge);
          [lia|].
        exists (d :: new), (i :: idxs). rewrite <- app_assoc.
        repeat split.
        -- constructor; [|assumption]. exists l, e. auto.
        -- constructor; [assumption|].
           eapply Forall_impl; [|exact Hge]. simpl. intros; lia.
        -- constructor; [lia|].
           eapply Forall_impl; [|exact Hge]. simpl. intros; lia.
      * destruct (IH (i + 1) defs) as (new & idxs & -> & H2 & Hs & Hge);
          [lia|].
        exists new, idxs. repeat split; try assumption.
        eapply Forall_impl; [|exact Hge]. simpl. intros; lia.
Qed.

End BlockFacts.

Lemma parse_blocks (pat : DividerPattern) (content_ filePath : string) :
  exists defs idxs,
    ConsolidatedParser.parse pat content_ filePath = Ok defs
    /\ Forall2 (blockAt pat (Js.split (ascii_of_nat 10) content_) filePath)
               idxs defs
    /\ StronglySorted lt idxs.
Proof.
  unfold ConsolidatedParser.parse.
  destruct (parseLoop_blocks pat (Js.split (ascii_of_nat 10) content_) filePath
              (S (List.length (Js.split (ascii_of_nat 10) content_))) 0 [])
    as (new & idxs & E & H2 & Hs & _); [lia|].
  exists new, idxs. simpl in E. auto.
Qed.

Lemma parse_sourceFile (pat : DividerPattern) (content_ filePath : string) :
  exists defs,
    ConsolidatedParser.parse pat content_ filePath = Ok defs
    /\ Forall (fun d => sourceFile d = filePath) defs.
Proof.
  destruct (parse_blocks pat content_ filePath) as (defs & idxs & E & H2 & _).
  exists defs. split; [assumption|]. clear E.
  induction H2 as [|i d idxs defs Hb H2 IH]; [constructor|].
  constructor; [|assumption].
  apply parseBlock_shape in Hb. tauto.
Qed.

(** Every Definition [parse] returns has a non-empty phrase without
    white space around it, aliases that are non-empty and without white
    space around them, the file path it was given, the type
    [consolidated] and no block id. *)
Theorem parse_fields_clean (pat : DividerPattern) (content_ filePath : string) :
  exists defs,
    ConsolidatedParser.parse pat content_ filePath = Ok defs
    /\ Forall (fun d =>
                 phrase d <> "" /\ Js.trim (phrase d) = phrase d
                 /\ Forall (fun a => a <> "" /\ Js.trim a = a) (aliases d)
                 /\ sourceFile d = filePath
                 /\ sourceType d = consolidated
                 /\ blockId d = None) defs.
Proof.
  destruct (parse_blocks pat content_ filePath) as (defs & idxs & E & H2 & _).
  exists defs. split; [assumption|]. clear E.
  induction H2 as [|i d idxs defs Hb H2 IH]; [constructor|].
  constructor; [|assumption].
  apply parseBlock_shape in Hb. tauto.
Qed.

(** The Definitions come out in the order of the file: their line
    numbers are present and strictly increasing. *)
Theorem parse_in_file_order (pat : DividerPattern) (content_ filePath : string) :
  exists defs,
    ConsolidatedParser.parse pat content_ filePath = Ok defs
    /\ Forall (fun d => lineNumber d = Some (lineOf d) /\ 1 <= lineOf d
                        /\ lineOf d
                           <= List.length (Js.split (ascii_of_nat 10) content_))
              defs
    /\ StronglySorted (fun a b => lineOf a < lineOf b) defs.
Proof.
  destruct (parse_blocks pat content_ filePath) as (defs & idxs & E & H2 & Hs).
  exists defs. split; [assumption|].
  assert (Hline : Forall2 (fun i d => lineNumber d = Some (i + 1)
                     /\ i < List.length (Js.split (ascii_of_nat 10) content_))
                          idxs defs).
  { eapply Forall2_impl; [|exact H2]. intros i d Hb. split.
    - now apply parseBlock_shape in Hb.
    - destruct Hb as (l & e & Hl & _). apply nth_error_Some. congruence. }
  clear H2 E. split.
  - induction Hline as [|i d idxs defs [Hd Hi] _ IH]; constructor.
    + unfold lineOf. rewrite Hd. repeat split; lia.
    + inversion Hs; subst. now apply IH.
  - induction Hline as [|i d idxs defs [Hd Hi] Hline IH]; [constructor|].
    inversion Hs as [|? ? Hs' Hlt]; subst. constructor; [now apply IH|].
    clear IH Hs Hs'. induction Hline as [|j e idxs defs [He Hj] _ IH];
      constructor.
    + inversion Hlt; subst. unfold lineOf. rewrite Hd, He. lia.
    + inversion Hlt; subst. now apply IH.
Qed.

(** The content of every Definition [parse] returns is made of lines of
    the file, joined by newlines, none of which is a divider or a phrase
    header, and it neither starts nor ends with a blank line. *)
Theorem parse_content_lines (pat : DividerPattern) (content_ filePath : string) :
  exists defs,
    ConsolidatedParser.parse pat content_ filePath = Ok defs
    /\ Forall (fun d =>
                 exists cl,
                   content d = Js.join Js.nl cl
                   /\ Forall (contentLine pat
                                (Js.split (ascii_of_nat 10) content_)) cl
                   /\ noBlankEnds cl) defs.
Proof.
  destruct (parse_blocks pat content_ filePath) as (defs & idxs & E & H2 & _).
  exists defs. split; [assumption|]. clear E.
  induction H2 as [|i d idxs defs Hb H2 IH]; [constructor|].
  constructor; [|assumption].
  apply parseBlock_shape in Hb. tauto.
Qed.

(* ------------------------------------------------------------------ *)
(** ** Lines *)

Section LineFacts.
Import Js.

Lemma split_nonempty (sep : ascii) (s : string) : split sep s <> [].
Proof.
  destruct s as [|c s]; simpl; [discriminate|].
  destruct (Ascii.eqb c sep); [discriminate|].
  destruct (split sep s); discriminate.
Qed.

Lemma split_app_sep (sep : ascii) (a b : string) :
  split sep (a ++ String sep b) = split sep a ++ split sep b.
Proof.
  induction a as [|c a IH]; simpl.
  - now rewrite Ascii.eqb_refl.
  - destruct (Ascii.eqb c sep); [now rewrite IH|].
    rewrite IH. pose proof (split_nonempty sep a) as Hne.
    destruct (split sep a); [congruence | reflexivity].
Qed.

Lemma split_oneLine (s : string) :
  oneLine s = true -> split (ascii_of_nat 10) s = [s].
Proof.
  induction s as [|c s IH]; simpl; [reflexivity|].
  intros H. apply andb_prop in H. destruct H as [Hc Hs].
  apply negb_true_iff in Hc. rewrite Hc, (IH Hs). reflexivity.
Qed.

Lemma join_cons (x y : string) (r : list string) :
  join nl (x :: y :: r) = (x ++ String (ascii_of_nat 10) (join nl (y :: r)))%string.
Proof. reflexivity. Qed.

(** Lines without a newline, joined and split again, are the same
    lines. *)
Lemma split_join (ls : list string) :
  ls <> [] -> Forall (fun l => oneLine l = true) ls ->
  split (ascii_of_nat 10) (join nl ls) = ls.
Proof.
  induction ls as [|x ls IH]; [congruence|]. intros _ H.
  inversion H as [|? ? Hx Hls]; subst.
  destruct ls as [|y r].
  - simpl. now apply split_oneLine.
  - rewrite join_cons, split_app_sep, (split_oneLine x Hx), IH;
      [reflexivity | discriminate | assumption].
Qed.

Lemma split_lines_oneLine (s : string) :
  Forall (fun l => oneLine l = true) (split (ascii_of_nat 10) s).
Proof.
  induction s as [|c s IH]; simpl; [repeat constructor|].
  destruct (Ascii.eqb c (ascii_of_nat 10)) eqn:E.
  - constructor; [reflexivity | assumption].
  - destruct (split (ascii_of_nat 10) s) as [|h t]; [repeat constructor; simpl; now rewrite E|].
    inversion IH; subst. constructor; [|assumption].
    simpl. now rewrite E.
Qed.

End LineFacts.

(* ------------------------------------------------------------------ *)
(** ** The atomic parser *)

Section AtomicFacts.
Import Js AtomicParser.

Lemma findClose_spec (n : nat) (lines : list string) (i e : nat) :
  findClose n lines i = Some e ->
  i <= e
  /\ (exists l, nth_error lines e = Some l /\ trim l = "---")
  /\ forall j l, i <= j < e -> nth_error lines j = Some l -> trim l <> "---".
Proof.
  revert i; induction n as [|n IH]; intros i; simpl; [discriminate|].
  destruct (nth_error lines i) as [l|] eqn:Hl; [|discriminate].
  destruct (trim l == "---") eqn:E.
  - intros [= <-]. apply eqb_true_iff in E. repeat split; [lia|eauto|].
    intros j l' Hj. lia.
  - intros H. apply IH in H. destruct H as (H1 & H2 & H3).
    repeat split; [lia | assumption |].
    intros j l' Hj Hl'. destruct (Nat.eq_dec j i) as [->|Hne].
    + rewrite Hl in Hl'. inversion Hl'; subst. now apply eqb_false_iff.
    + apply (H3 j l'); [lia | assumption].
Qed.

Lemma findClose_found (n : nat) (lines : list string) (i e : nat) (l : string) :
  i <= e -> e - i < n ->
  nth_error lines e = Some l -> trim l = "---" ->
  (forall j x, i <= j < e -> nth_error lines j = Some x -> trim x <> "---") ->
  findClose n lines i = Some e.
Proof.
  revert i; induction n as [|n IH]; intros i Hi Hn Hl Ht Hno; [lia|].
  simpl. destruct (Nat.eq_dec i e) as [->|Hne].
  - rewrite Hl. apply eqb_true_iff in Ht. now rewrite Ht.
  - destruct (nth_error lines i) as [x|] eqn:Hx.
    + assert (E : (trim x == "---") = false)
        by (apply eqb_false_iff, (Hno i x); [lia | assumption]).
      rewrite E. apply IH; try assumption; try lia.
      intros j y Hj. apply Hno. lia.
    + apply nth_error_None in Hx.
      assert (e < List.length lines) by (apply nth_error_Some; congruence).
      lia.
Qed.

(** A note put together from a front-matter block and a body is taken
    apart again: [extractFrontmatter] gives the lines between the two
    [---] lines and [extractContent] the body, without its leading blank
    lines and without white space around it. *)
Theorem atomic_front_matter_round_trip (fmLines body : list string) :
  Forall (fun l => oneLine l = true) fmLines ->
  Forall (fun l => oneLine l = true) body ->
  Forall (fun l => trim l <> "---") fmLines ->
  extractFrontmatter (join nl ("---" :: fmLines ++ "---" :: body))
  = Some (join nl fmLines)
  /\ extractContent (join nl ("---" :: fmLines ++ "---" :: body))
     = trim (join nl (ConsolidatedParser.shiftBlank body)).
Proof.
  intros Hfm Hbody Hno.
  assert (Hsplit : split (ascii_of_nat 10)
                     (join nl ("---" :: fmLines ++ "---" :: body))
                   = "---" :: fmLines ++ "---" :: body).
  { apply split_join; [discriminate|].
    constructor; [reflexivity|]. apply Forall_app. split; [assumption|].
    constructor; [reflexivity | assumption]. }
  assert (Hopen : noOpening ("---" :: fmLines ++ "---" :: body) = false).
  { unfold noOpening. cbn [nth_error].
    assert (E : (List.length ("---" :: fmLines ++ "---" :: body) <? 2) = false).
    { apply Nat.ltb_ge. simpl. rewrite length_app. simpl. lia. }
    rewrite E. reflexivity. }
  assert (Hclose : findClose (List.length ("---" :: fmLines ++ "---" :: body))
                     ("---" :: fmLines ++ "---" :: body) 1
                   = Some (1 + List.length fmLines)).
  { apply (findClose_found _ _ _ _ "---"); try reflexivity.
    - lia.
    - simpl. rewrite length_app. simpl. lia.
    - simpl. rewrite nth_error_app2 by lia.
      now replace (List.length fmLines - List.length fmLines) with 0 by lia.
    - intros j x Hj Hx. destruct j as [|j]; [lia|]. simpl in Hx.
      rewrite nth_error_app1 in Hx by lia.
      rewrite Forall_forall in Hno. eapply Hno, nth_error_In; eassumption. }
  unfold extractFrontmatter, extractContent.
  rewrite Hsplit, Hopen, Hclose. split.
  - unfold slice. simpl skipn.
    replace (1 + List.length fmLines - 1) with (List.length fmLines + 0) by lia.
    now rewrite firstn_app_2, app_nil_r.
  - unfold sliceFrom.
    replace (1 + List.length fmLines + 1) with (S (List.length fmLines + 1)) by lia.
    simpl skipn. rewrite skipn_app.
    rewrite skipn_all2 by lia.
    replace (List.length fmLines + 1 - List.length fmLines) with 1 by lia.
    reflexivity.
Qed.

Lemma atomic_front_matter_round_trip_witness :
  extractFrontmatter atomicNote
  = Some (join nl ["def-type: atomic"; "aliases:"; "  - old"])
  /\ extractContent atomicNote = "old body".
Proof.
  apply (atomic_front_matter_round_trip
           ["def-type: atomic"; "aliases:"; "  - old"] [""; "old body"]).
  - repeat constructor.
  - repeat constructor.
  - repeat constructor; discriminate.
Defined.

(** Where the front matter ends, for both extractors and whatever the
    text.  When the first line is [---] and line [e] is the first later
    line that is [---] too, [extractFrontmatter] gives the lines between
    the two and [extractContent] what follows line [e], leading blank
    lines dropped and trimmed.  When no line closes a front matter in
    this way, there is no front matter, no alias, and the content is the
    whole text trimmed.  One of the two is always the case. *)
Theorem atomic_front_matter_split (parseYaml : string -> Yaml)
    (content_ : string) :
  (forall e,
      closesAt (split (ascii_of_nat 10) content_) e ->
      extractFrontmatter content_
      = Some (join nl (slice (split (ascii_of_nat 10) content_) 1 e))
      /\ extractContent content_
         = trim (join nl (ConsolidatedParser.shiftBlank
                            (sliceFrom (split (ascii_of_nat 10) content_)
                                       (e + 1)))))
  /\ ((forall e, ~ closesAt (split (ascii_of_nat 10) content_) e) ->
      extractFrontmatter content_ = None
      /\ extractContent content_ = trim content_
      /\ extractAliases parseYaml content_ = [])
  /\ ((exists e, closesAt (split (ascii_of_nat 10) content_) e)
      \/ forall e, ~ closesAt (split (ascii_of_nat 10) content_) e).
Proof.
  set (lines := split (ascii_of_nat 10) content_).
  assert (Hyes : forall e,
             closesAt lines e ->
             noOpening lines = false
             /\ findClose (List.length lines) lines 1 = Some e).
  { intros e (He & (l0 & Hl0 & Ht0) & (le & Hle & Hte) & Hno).
    assert (Hlen : e < List.length lines)
      by (apply nth_error_Some; congruence).
    split.
    - unfold noOpening. rewrite Hl0, Ht0.
      assert (E : (List.length lines <? 2) = false)
        by (apply Nat.ltb_ge; lia).
      now rewrite E.
    - apply (findClose_found _ _ _ _ le); try assumption. lia. }
  assert (Hno : (forall e, ~ closesAt lines e) ->
                noOpening lines = true
                \/ findClose (List.length lines) lines 1 = None).
  { intros Hnone. destruct (noOpening lines) eqn:Ho; [now left|]. right.
    destruct (findClose (List.length lines) lines 1) as [e|] eqn:Hc;
      [|reflexivity].
    exfalso. apply (Hnone e).
    apply findClose_spec in Hc. destruct Hc as (H1 & H2 & H3).
    unfold noOpening in Ho. apply orb_false_iff in Ho. destruct Ho as [_ Ho].
    destruct (nth_error lines 0) as [l0|] eqn:H0; [|discriminate].
    apply negb_false_iff, eqb_true_iff in Ho.
    split; [assumption|]. split; [eauto|]. split; assumption. }
  split; [|split].
  - intros e He. destruct (Hyes e He) as [Ho Hc].
    unfold extractFrontmatter, extractContent. fold lines.
    now rewrite Ho, Hc.
  - intros Hnone. unfold extractAliases, extractFrontmatter, extractContent.
    fold lines.
    destruct (Hno Hnone) as [Ho|Hc].
    + now rewrite Ho.
    + destruct (noOpening lines); [auto|]. now rewrite Hc.
  - destruct (noOpening lines) eqn:Ho.
    + right. intros e He. destruct (Hyes e He) as [Ho' _]. congruence.
    + destruct (findClose (List.length lines) lines 1) as [e|] eqn:Hc.
      * left. exists e.
        apply findClose_spec in Hc. destruct Hc as (H1 & H2 & H3).
        unfold noOpening in Ho. apply orb_false_iff in Ho.
        destruct Ho as [_ Ho].
        destruct (nth_error lines 0) as [l0|] eqn:H0; [|discriminate].
        apply negb_false_iff, eqb_true_iff in Ho.
        split; [assumption|]. split; [eauto|]. split; assumption.
      * right. intros e He. destruct (Hyes e He) as [_ Hc']. congruence.
Qed.

Lemma atomic_front_matter_split_witness :
  extractFrontmatter atomicNote
  = Some (join nl (slice (split (ascii_of_nat 10) atomicNote) 1 4))
  /\ extractContent atomicNote
     = trim (join nl (ConsolidatedParser.shiftBlank
                        (sliceFrom (split (ascii_of_nat 10) atomicNote)
                                   (4 + 1)))).
Proof.
  apply (proj1 (atomic_front_matter_split (fun _ => YamlNull) atomicNote) 4).
  split; [lia|]. split; [exists "---"; split; reflexivity|].
  split; [exists "---"; split; reflexivity|].
  intros j l Hj Hl.
  destruct j as [|[|[|[|j]]]]; try lia; vm_compute in Hl; inversion Hl;
    discriminate.
Defined.

(** The Definition of an atomic file: the phrase is the base name, there
    is no line number, the content and every alias have no white space
    around them; an alias is empty exactly when the front matter gives
    [aliases] as a single string that is not empty and is all white
    space. *)
Theorem atomic_parse_fields (parseYaml : string -> Yaml) (file : TFile)
    (content_ : string) :
  phrase (parse parseYaml file content_) = basename file
  /\ sourceFile (parse parseYaml file content_) = path file
  /\ sourceType (parse parseYaml file content_) = atomic
  /\ lineNumber (parse parseYaml file content_) = None
  /\ trim (content (parse parseYaml file content_))
     = content (parse parseYaml file content_)
  /\ Forall (fun a => trim a = a) (aliases (parse parseYaml file content_))
  /\ (In "" (aliases (parse parseYaml file content_))
      <-> exists fm parsed s,
            extractFrontmatter content_ = Some fm /\ fm <> ""
            /\ parseYaml fm = YamlObject parsed
            /\ fmAliases parsed = AliasString s
            /\ s <> "" /\ trim s = "").
Proof.
  repeat split; cbn [parse phrase sourceFile sourceType lineNumber content aliases].
  - unfold extractContent.
    destruct (noOpening _); [apply trim_idem|].
    destruct (findClose _ _ 1); apply trim_idem.
  - unfold extractAliases.
    destruct (extractFrontmatter content_) as [fm|]; [|constructor].
    destruct (fm == ""); [constructor|].
    destruct (parseYaml fm) as [| |parsed]; try constructor.
    destruct (fmAliases parsed) as [|items|s|]; try constructor.
    + apply Forall_forall. intros a Ha. apply filter_In in Ha.
      destruct Ha as [Ha _]. apply in_map_iff in Ha.
      destruct Ha as (x & <- & _). apply trim_idem.
    + destruct (s == ""); repeat constructor. apply trim_idem.
  - unfold extractAliases.
    destruct (extractFrontmatter content_) as [fm|]; [|intros []].
    destruct (fm == "") eqn:Efm; [intros []|].
    destruct (parseYaml fm) as [| |parsed] eqn:Ey; try (intros []).
    destruct (fmAliases parsed) as [|items|s|] eqn:Ea; try (intros []).
    + intros Ha. apply filter_In in Ha. destruct Ha as [_ Ha]. discriminate.
    + destruct (s == "") eqn:Es; [intros []|]. intros [Ht|[]].
      exists fm, parsed, s. apply eqb_false_iff in Efm, Es. auto 8.
  - intros (fm & parsed & s & Hfm & Hne & Hy & Ha & Hs & Ht).
    unfold extractAliases. rewrite Hfm.
    apply eqb_false_iff in Hne, Hs. rewrite Hne, Hy, Ha, Hs, Ht. now left.
Qed.

End AtomicFacts.

(* ------------------------------------------------------------------ *)
(** ** Loading a file *)

Section LoaderFacts.
Import Js DefinitionManager Loader.
Variable parseYaml : string -> Yaml.

Lemma isDefinitionFile_fold_add (ds : list Defn) (c : DefinitionCache)
    (f : string) :
  isDefinitionFile (fold_left addToCache ds c) f
  = isDefinitionFile c f || existsb (fun d => sourceFile d == f) ds.
Proof.
  revert c; induction ds as [|d ds IH]; intros c; simpl.
  - now rewrite orb_false_r.
  - rewrite IH. unfold isDefinitionFile, JsMap.has.
    rewrite fileIndex_addToCache, get_pushUnder.
    destruct (sourceFile d == f); simpl.
    + now rewrite orb_true_r.
    + reflexivity.
Qed.

(** Every Definition a file loads carries the path of that file; an
    atomic file loads exactly one, named after the file; and loading
    makes the path a definition file exactly when it was one or the file
    yields at least one Definition. *)
Theorem loaded_definitions_own_path (pat : DividerPattern) (file : TFile)
    (read : option string) (c : DefinitionCache) :
  Forall (fun d => sourceFile d = path file)
         (parsedDefinitions parseYaml pat file read)
  /\ (forall content_,
        read = Some content_ ->
        getDefinitionType parseYaml content_ = atomic ->
        exists d, parsedDefinitions parseYaml pat file read = [d]
                  /\ phrase d = basename file)
  /\ isDefinitionFile (loadDefinitionFile parseYaml pat file read c) (path file)
     = isDefinitionFile c (path file)
       || negb (List.length (parsedDefinitions parseYaml pat file read) =? 0)
  /\ forall f,
       f <> path file ->
       isDefinitionFile (loadDefinitionFile parseYaml pat file read c) f
       = isDefinitionFile c f.
Proof.
  assert (Hown : Forall (fun d => sourceFile d = path file)
                        (parsedDefinitions parseYaml pat file read)).
  { unfold parsedDefinitions. destruct read as [content_|]; [|constructor].
    destruct (getDefinitionType parseYaml content_).
    - now destruct (parse_sourceFile pat content_ (path file)) as (defs & -> & H).
    - repeat constructor. }
  split; [assumption|]. split; [|split].
  - intros content_ -> Ht. unfold parsedDefinitions. rewrite Ht.
    eexists. split; reflexivity.
  - unfold loadDefinitionFile. rewrite isDefinitionFile_fold_add. f_equal.
    induction Hown as [|d ds Hd _ IH]; [reflexivity|].
    simpl. now rewrite Hd, String.eqb_refl.
  - intros f Hf. unfold loadDefinitionFile. rewrite isDefinitionFile_fold_add.
    assert (E : existsb (fun d => sourceFile d == f)
                        (parsedDefinitions parseYaml pat file read) = false).
    { induction Hown as [|d ds Hd _ IH]; [reflexivity|].
      simpl. rewrite IH, Hd.
      assert (E : (path file == f) = false)
        by (apply eqb_false_iff; congruence).
      now rewrite E. }
    rewrite E. apply orb_false_r.
Qed.

End LoaderFacts.

Lemma loaded_definitions_own_path_witness :
  exists d,
    Loader.parsedDefinitions atomicYaml both
      {| path := "defs/CPU.md"; basename := "CPU" |} (Some atomicNote) = [d]
    /\ phrase d = "CPU".
Proof.
  exact (proj1 (proj2 (loaded_definitions_own_path atomicYaml both
                         {| path := "defs/CPU.md"; basename := "CPU" |}
                         (Some atomicNote) DefinitionManager.emptyCache))
               atomicNote eq_refl eq_refl).
Defined.

(* ------------------------------------------------------------------ *)
(** ** The dialog *)

Section ModalFacts.
Import Js DefinitionModal.

Lemma split_without (sep : ascii) (s : string) :
  without sep s = true -> split sep s = [s].
Proof.
  induction s as [|c s IH]; simpl; [reflexivity|].
  intros H. apply andb_prop in H. destruct H as [Hc Hs].
  apply negb_true_iff in Hc. rewrite Hc, (IH Hs). reflexivity.
Qed.

(** Fields without the separator, joined by it and split again, are the
    same fields; no field at all reads back as one empty field. *)
Lemma split_join_fields (sep : ascii) (fields : list string) :
  Forall (fun f => without sep f = true) fields ->
  split sep (join (String sep EmptyString) fields)
  = match fields with
    | [] => [EmptyString]
    | _ => fields
    end.
Proof.
  induction 1 as [|x r Hx Hr IH]; [reflexivity|].
  destruct r as [|y r'].
  - cbn. now apply split_without.
  - change (join (String sep EmptyString) (x :: y :: r'))
      with (x ++ String sep (join (String sep EmptyString) (y :: r')))%string.
    rewrite split_app_sep, (split_without sep x Hx), IH. reflexivity.
Qed.

Lemma filter_nonempty (l : list string) :
  filter (fun a => 0 <? length a) l = filter (fun a => negb (a == "")) l.
Proof.
  apply filter_ext. intros a. now destruct a.
Qed.

(** [submit] stops exactly when the phrase or the content is blank, or a
    file has to be chosen and none is.  Otherwise it hands on the phrase
    and the content trimmed, the selected file, and the aliases that
    were typed: for fields typed between commas, each field trimmed, the
    blank ones left out, in the order typed.  What it hands on is clean:
    phrase and content are not empty and have no white space around
    them, and neither has any alias. *)
Theorem submit_hands_on_clean_fields (phrase_ aliases_ content_ : string)
    (availableFiles : list string) (selectedFile : string) :
  (submit phrase_ aliases_ content_ availableFiles selectedFile = None
   <-> trim phrase_ = "" \/ trim content_ = ""
       \/ (availableFiles <> [] /\ selectedFile = ""))
  /\ (forall fields,
        Forall (fun f => without "," f = true) fields ->
        aliases_ = join "," fields ->
        trim phrase_ <> "" ->
        trim content_ <> "" ->
        availableFiles = [] \/ selectedFile <> "" ->
        submit phrase_ aliases_ content_ availableFiles selectedFile
        = Some (trim phrase_,
                filter (fun a => negb (a == "")) (map trim fields),
                trim content_, selectedFile))
  /\ forall p al ct f,
       submit phrase_ aliases_ content_ availableFiles selectedFile
       = Some (p, al, ct, f) ->
       p = trim phrase_ /\ p <> "" /\ trim p = p
       /\ ct = trim content_ /\ ct <> "" /\ trim ct = ct
       /\ Forall cleanAlias al
       /\ f = selectedFile.
Proof.
  split; [|split].
  - unfold submit.
    destruct (trim phrase_ == "") eqn:Ep.
    { apply eqb_true_iff in Ep. tauto. }
    destruct (trim content_ == "") eqn:Ec.
    { apply eqb_true_iff in Ec. tauto. }
    apply eqb_false_iff in Ep, Ec.
    destruct ((0 <? List.length availableFiles) && (selectedFile == ""))
      eqn:Ef.
    + apply andb_prop in Ef. destruct Ef as [Ef1 Ef2].
      apply Nat.ltb_lt in Ef1. apply eqb_true_iff in Ef2.
      split; [|reflexivity]. intros _.
      right. right. split; [|assumption]. now destruct availableFiles.
    + split; [discriminate|]. intros [H|[H|[H1 H2]]]; try contradiction.
      apply andb_false_iff in Ef. destruct Ef as [Ef|Ef].
      * apply Nat.ltb_ge in Ef. destruct availableFiles; [congruence|].
        simpl in Ef. lia.
      * apply eqb_false_iff in Ef. contradiction.
  - intros fields Hfields -> Hp Hc Hfile. unfold submit.
    apply eqb_false_iff in Hp, Hc. rewrite Hp, Hc.
    assert (Ef : (0 <? List.length availableFiles) && (selectedFile == "")
                 = false).
    { destruct Hfile as [->|Hs]; [reflexivity|].
      apply eqb_false_iff in Hs. rewrite Hs. apply andb_false_r. }
    rewrite Ef, filter_nonempty.
    change (String "," EmptyString) with ","%string.
    rewrite (split_join_fields "," fields Hfields).
    now destruct fields.
  - unfold submit.
    destruct (trim phrase_ == "") eqn:Ep; [discriminate|].
    destruct (trim content_ == "") eqn:Ec; [discriminate|].
    apply eqb_false_iff in Ep, Ec.
    destruct ((0 <? List.length availableFiles) && (selectedFile == ""));
      [discriminate|].
    intros p al ct f [= <- <- <- <-].
    repeat split; try assumption; try apply trim_idem.
    apply parseAliases_clean.
Qed.

Lemma submit_hands_on_clean_fields_witness :
  submit " CPU " " central unit ,, processor" "The chip." ["defs/a.md"]
         "defs/a.md"
  = Some ("CPU", ["central unit"; "processor"], "The chip.", "defs/a.md").
Proof.
  apply (proj1 (proj2 (submit_hands_on_clean_fields
                         " CPU " " central unit ,, processor" "The chip."
                         ["defs/a.md"] "defs/a.md"))
               [" central unit "; ""; " processor"]).
  - repeat constructor.
  - reflexivity.
  - discriminate.
  - discriminate.
  - right. discriminate.
Defined.

End ModalFacts.

(* ------------------------------------------------------------------ *)
(** ** Whole-word matching *)

Section Occurrences.
Import Js RegExp EditorManager.

Lemma wordAt_lt (text : string) (i : nat) :
  wordAt text i = true -> i < length text.
Proof.
  unfold wordAt. destruct (get i text) as [c|] eqn:E; [|discriminate].
  intros _. eapply get_lt; eassumption.
Qed.

Lemma boundary_le (text : string) (i : nat) :
  isBoundary text i = true -> i <= length text.
Proof.
  unfold isBoundary. intros H.
  destruct (wordAt text i) eqn:E; [apply wordAt_lt in E; lia|].
  destruct i as [|j]; [lia|].
  rewrite xorb_false_r in H. apply wordAt_lt in H. lia.
Qed.

Lemma upper_lower (c : ascii) : upperChar (lowerChar c) = upperChar c.
Proof.
  destruct c as [[] [] [] [] [] [] [] []]; reflexivity.
Qed.

Lemma lower_canonicalize (a b : ascii) :
  lowerChar a = lowerChar b -> canonicalize a = canonicalize b.
Proof.
  unfold canonicalize. intros H.
  now rewrite <- (upper_lower a), H, upper_lower.
Qed.

Lemma get_in_range (s : string) (i : nat) :
  i < length s -> exists c, get i s = Some c.
Proof.
  revert i; induction s as [|c s IH]; intros i; simpl; [lia|].
  destruct i as [|i]; [eauto|]. intros H. apply IH. lia.
Qed.

Lemma matchAt_lits_back (p : string) (rest : list Atom) (text : string)
    (i : nat) :
  i + length p <= length text ->
  toLowerCase (substring i (length p) text) = toLowerCase p ->
  matchAt (lits p ++ rest) text i = matchAt rest text (i + length p).
Proof.
  revert i; induction p as [|c p IH]; intros i Hlen Hlow; simpl.
  - now rewrite Nat.add_0_r.
  - cbn [length] in Hlen, Hlow.
    destruct (get_in_range text i) as [t Ht]; [lia|].
    rewrite Ht. rewrite (substring_get _ _ _ _ Ht) in Hlow.
    simpl in Hlow. inversion Hlow as [[Hc Hrest]].
    rewrite (lower_canonicalize _ _ Hc), Ascii.eqb_refl.
    rewrite IH; [f_equal; lia | lia |].
    now rewrite Nat.add_1_r.
Qed.

(** In the model the canonical forms of two strings agree exactly when
    their lowercased forms do; of the code this holds for ASCII text. *)
Lemma folded_lower (a b : string) :
  folded a = folded b -> toLowerCase a = toLowerCase b.
Proof.
  revert b; induction a as [|x a IH]; intros [|y b]; simpl;
    try reflexivity; try discriminate.
  intros [= Hc Hr]. now rewrite (canonicalize_lower _ _ Hc), (IH b Hr).
Qed.

Lemma lower_folded (a b : string) :
  toLowerCase a = toLowerCase b -> folded a = folded b.
Proof.
  revert b; induction a as [|x a IH]; intros [|y b]; simpl;
    try reflexivity; try discriminate.
  intros [= Hc Hr]. now rewrite (lower_canonicalize _ _ Hc), (IH b Hr).
Qed.

(** The expression of a phrase matches at an offset exactly when the
    phrase stands there as a whole word, case apart; the match ends
    where the phrase ends. *)
Lemma matchAt_occursAt (p text : string) (i : nat) :
  (exists e, matchAt (wordRegExp p) text i = Some e) <-> occursAt p text i.
Proof.
  unfold wordRegExp, occursAt, wholeWordAt. cbn [matchAt]. split.
  - intros [e H]. destruct (isBoundary text i) eqn:Hb; [|discriminate].
    apply matchAt_lits in H. destruct H as (H1 & _ & H3).
    cbn [matchAt] in H1.
    destruct (isBoundary text (i + length p)) eqn:He; [|discriminate].
    split; [|now apply lower_folded].
    split; [reflexivity|]. split; [reflexivity | now apply boundary_le].
  - intros ((Hb & He & Hlen) & Hfold). exists (i + length p).
    rewrite Hb, (matchAt_lits_back p _ text i Hlen (folded_lower _ _ Hfold)).
    cbn [matchAt]. now rewrite He.
Qed.

Lemma matchAt_end (p text : string) (i e : nat) :
  matchAt (wordRegExp p) text i = Some e -> e = i + length p.
Proof.
  unfold wordRegExp. cbn [matchAt].
  destruct (isBoundary text i); [|discriminate].
  intros H. apply matchAt_lits in H. destruct H as (H1 & _).
  cbn [matchAt] in H1.
  destruct (isBoundary text (i + length p)); [|discriminate].
  now inversion H1.
Qed.

Lemma search_complete (n : nat) (atoms : list Atom) (text : string)
    (li b e : nat) :
  matchAt atoms text b = Some e -> li <= b -> b < li + n ->
  exists i e', search n atoms text li = Some (i, e') /\ li <= i <= b.
Proof.
  revert li; induction n as [|n IH]; intros li Hm Hle Hlt; [lia|].
  simpl. destruct (matchAt atoms text li) as [e0|] eqn:E.
  - exists li, e0. split; [reflexivity | lia].
  - destruct (Nat.eq_dec li b) as [->|Hne]; [congruence|].
    destruct (IH (li + 1) Hm) as (i & e' & Hs & Hi); try lia.
    exists i, e'. split; [assumption | lia].
Qed.

Lemma exec_complete (atoms : list Atom) (text : string) (li b e : nat) :
  matchAt atoms text b = Some e -> li <= b -> b <= length text ->
  exists i e', exec atoms text li = Some (i, e') /\ li <= i <= b.
Proof.
  intros Hm Hle Hb. unfold exec.
  assert (E : (li <=? length text) = true) by (apply Nat.leb_le; lia).
  rewrite E. apply (search_complete _ _ _ _ b e); try assumption. lia.
Qed.

(** What [exec] returns for the expression of a phrase, empty or not. *)
Lemma candidate_any (p text : string) (li i e : nat) :
  exec (wordRegExp p) text li = Some (i, e) ->
  i + length (substring2 text i e) = e
  /\ substring2 text i e = substring i (length p) text
  /\ li <= i /\ e = i + length p /\ occursAt p text i.
Proof.
  intros H. apply exec_found in H. destruct H as [Hli Hm].
  pose proof (matchAt_end _ _ _ _ Hm) as He.
  assert (Ho : occursAt p text i) by (apply matchAt_occursAt; eauto).
  destruct Ho as ((Hb & Hb' & Hlen) & Hlow).
  rewrite substring2_between by lia.
  replace (e - i) with (length p) by lia.
  rewrite length_substring by lia.
  split; [lia|]. split; [reflexivity|]. split; [assumption|].
  split; [lia|]. split; [|assumption]. split; [assumption|].
  split; assumption.
Qed.

Section Preserved.
Variables (text : string) (Q : Match -> Prop).

Lemma scan_all (fuel : nat) (regex : list Atom) (li : nat)
    (ms ms' : list Match) :
  (forall li i e,
      exec regex text li = Some (i, e) ->
      Q {| phrase := substring2 text i e; from := i;
           to := i + length (substring2 text i e) |}) ->
  Forall Q ms ->
  scan fuel regex text li ms = Ok ms' -> Forall Q ms'.
Proof.
  intros Hc. revert li ms; induction fuel as [|fuel IH]; intros li ms Hms;
    cbn [scan]; [discriminate|].
  destruct (exec regex text li) as [[i e]|] eqn:E.
  - cbv zeta. intros H. apply IH in H; [assumption|].
    destruct (negb _); [|assumption].
    apply Forall_app. split; [assumption|].
    constructor; [now apply (Hc li) | constructor].
  - now intros [= <-].
Qed.

Lemma scanPhrases_all (fuel : nat) (sp : list string) (ms ms' : list Match) :
  (forall p li i e,
      In p sp -> exec (wordRegExp p) text li = Some (i, e) ->
      Q {| phrase := substring2 text i e; from := i;
           to := i + length (substring2 text i e) |}) ->
  Forall Q ms ->
  scanPhrases fuel text sp ms = Ok ms' -> Forall Q ms'.
Proof.
  revert ms; induction sp as [|p sp IH]; intros ms Hc Hms;
    cbn [scanPhrases].
  - now intros [= <-].
  - rewrite compile_wordRegExp.
    destruct (scan fuel (wordRegExp p) text 0 ms) as [ms1| |] eqn:E;
      cbn [bind]; try discriminate.
    apply IH.
    + intros q li i e Hq. apply Hc. now right.
    + eapply scan_all; [|exact Hms|exact E].
      intros li i e. apply Hc. now left.
Qed.

Lemma findPhrases_all (fuel : nat) (P : list string) (r : list Match) :
  (forall p li i e,
      In p P -> exec (wordRegExp p) text li = Some (i, e) ->
      Q {| phrase := substring2 text i e; from := i;
           to := i + length (substring2 text i e) |}) ->
  findPhrases fuel text P = Ok r -> Forall Q r.
Proof.
  intros Hc. unfold findPhrases.
  destruct (scanPhrases fuel text _ []) as [ms| |] eqn:E; cbn [bind];
    try discriminate.
  intros [= <-].
  eapply Permutation_Forall;
    [apply Permutation_sym, (sort_perm (fun a b => from b <? from a))|].
  eapply scanPhrases_all; [|constructor|exact E].
  intros p li i e Hp. apply Hc.
  eapply Permutation_in; [apply sort_perm | exact Hp].
Qed.

End Preserved.

(** Whenever [findPhrases] returns, each span it returns stands for a
    phrase of the list as a whole word: it has a word boundary at both
    ends, it is as long as the phrase, and its [phrase] is the text
    between the ends as the document writes it.  When the phrase is made
    of ASCII characters, the span has the letters of the phrase, case
    apart: the two are equal as the [i] flag compares, and equal once
    lowercased.  Nothing is said of the letters for other phrases: there
    the upper-casing of the [i] flag and [toLowerCase] part ways. *)
Theorem findPhrases_whole_words (fuel : nat) (text : string)
    (P : list string) (r : list Match) :
  findPhrases fuel text P = Ok r ->
  Forall (fun m =>
            exists p,
              In p P
              /\ wholeWordAt (length p) text (from m)
              /\ to m = from m + length p
              /\ phrase m = substring (from m) (length p) text
              /\ (isAscii p = true ->
                  folded (phrase m) = folded p
                  /\ toLowerCase (phrase m) = toLowerCase p)) r.
Proof.
  apply findPhrases_all. intros p li i e Hp He.
  destruct (candidate_any p text li i e He) as (Hto & Hs & _ & Hlen & Ho).
  destruct Ho as [Hw Hfold].
  exists p. cbn [from to phrase]. rewrite Hto, Hs.
  split; [assumption|]. split; [assumption|]. split; [assumption|].
  split; [reflexivity|]. intros _.
  split; [assumption | now apply folded_lower].
Qed.

Lemma findPhrases_whole_words_witness :
  Forall (fun m =>
            exists p,
              In p ["Widget"; "gadget"; "Gizmo"]
              /\ wholeWordAt (length p) "I bought a Gadget yesterday" (from m)
              /\ to m = from m + length p
              /\ phrase m = substring (from m) (length p)
                                      "I bought a Gadget yesterday"
              /\ (isAscii p = true ->
                  folded (phrase m) = folded p
                  /\ toLowerCase (phrase m) = toLowerCase p))
         [{| phrase := "Gadget"; from := 11; to := 17 |}].
Proof.
  apply (findPhrases_whole_words 29 "I bought a Gadget yesterday"
                                 ["Widget"; "gadget"; "Gizmo"]).
  vm_compute. reflexivity.
Defined.

Lemma boundary_exists (text : string) (j : nat) :
  wordAt text j = true -> exists b, b <= j /\ isBoundary text b = true.
Proof.
  induction j as [|j IH]; intros H.
  - exists 0. split; [lia|]. unfold isBoundary. now rewrite H.
  - destruct (wordAt text j) eqn:E.
    + destruct (IH eq_refl) as (b & Hb & Hbd). exists b. split; [lia|].
      assumption.
    + exists (S j). split; [lia|]. unfold isBoundary. now rewrite E, H.
Qed.

Lemma scan_no_throw (fuel : nat) (regex : list Atom) (text : string)
    (li : nat) (ms : list Match) :
  scan fuel regex text li ms <> Throw.
Proof.
  revert li ms; induction fuel as [|fuel IH]; intros li ms; cbn [scan];
    [discriminate|].
  destruct (exec regex text li) as [[i e]|]; [apply IH | discriminate].
Qed.

Lemma scan_stuck (regex : list Atom) (text : string) (i : nat) :
  exec regex text i = Some (i, i) ->
  forall fuel ms, scan fuel regex text i ms = OutOfFuel.
Proof.
  intros E fuel. induction fuel as [|fuel IH]; intros ms; cbn [scan];
    [reflexivity|].
  rewrite E. apply IH.
Qed.

Lemma scan_empty_phrase_stuck (text : string) (j : nat) :
  wordAt text j = true ->
  forall fuel ms, scan fuel (wordRegExp "") text 0 ms = OutOfFuel.
Proof.
  intros Hj.
  destruct (boundary_exists text j Hj) as (b & _ & Hb).
  assert (Hm : forall k, isBoundary text k = true ->
                         matchAt (wordRegExp "") text k = Some k).
  { intros k Hk. unfold wordRegExp. cbn [lits app matchAt]. now rewrite Hk. }
  destruct (exec_complete (wordRegExp "") text 0 b b (Hm b Hb))
    as (i & e & He & Hi); [lia | now apply boundary_le |].
  pose proof (candidate_any "" text 0 i e He) as (_ & _ & _ & Hlen & Ho).
  simpl in Hlen. rewrite Nat.add_0_r in Hlen. subst e.
  destruct Ho as ((Hbi & _) & _).
  destruct (exec_complete (wordRegExp "") text i i i (Hm i Hbi))
    as (i' & e' & He' & Hi'); [lia | now apply boundary_le |].
  assert (i' = i) by lia. subst i'.
  pose proof (candidate_any "" text i i e' He') as (_ & _ & _ & Hlen' & _).
  simpl in Hlen'. rewrite Nat.add_0_r in Hlen'. subst e'.
  intros fuel ms. destruct fuel as [|fuel]; [reflexivity|].
  cbn [scan]. rewrite He. cbv zeta. now apply scan_stuck.
Qed.

Lemma scanPhrases_empty_phrase (text : string) (j : nat) (fuel : nat)
    (sp : list string) (ms : list Match) :
  wordAt text j = true -> In "" sp ->
  scanPhrases fuel text sp ms = OutOfFuel.
Proof.
  intros Hj. revert ms; induction sp as [|p sp IH]; intros ms; [intros []|].
  intros Hin. cbn [scanPhrases]. rewrite compile_wordRegExp.
  destruct (string_dec p "") as [->|Hne].
  - now rewrite (scan_empty_phrase_stuck text j Hj).
  - destruct Hin as [->|Hin]; [congruence|].
    destruct (scan fuel (wordRegExp p) text 0 ms) as [ms1| |] eqn:E;
      cbn [bind]; [now apply IH | | reflexivity].
    now apply scan_no_throw in E.
Qed.

(** With the empty string among the phrases and a word character
    anywhere in the text, [findPhrases] does not return, whatever the
    budget: the loop for the empty phrase stays at the first word
    boundary. *)
Theorem findPhrases_hangs_on_empty_phrase (text : string) (P : list string)
    (j : nat) :
  In "" P -> wordAt text j = true ->
  forall fuel, findPhrases fuel text P = OutOfFuel.
Proof.
  intros Hin Hj fuel. unfold findPhrases.
  rewrite (scanPhrases_empty_phrase text j); [reflexivity | assumption |].
  eapply Permutation_in; [apply Permutation_sym, sort_perm | exact Hin].
Qed.

Lemma findPhrases_hangs_on_empty_phrase_witness :
  findPhrases 1000 "see foo bar now" ["foo"; ""; "foo bar"] = OutOfFuel.
Proof.
  apply (findPhrases_hangs_on_empty_phrase "see foo bar now"
           ["foo"; ""; "foo bar"] 0).
  - right. now left.
  - reflexivity.
Defined.

End Occurrences.

(* ------------------------------------------------------------------ *)
(** ** From the phrases on screen back to the cache *)

Section Resolution.
Import Js RegExp EditorManager DefinitionManager EditorCursor.

Lemma countKey_In (k : string) (ks : list string) :
  0 < countKey k ks -> In k ks.
Proof.
  induction ks as [|k0 ks IH]; simpl; [lia|].
  destruct (k0 == k) eqn:E.
  - apply eqb_true_iff in E. now left.
  - intros H. right. apply IH. lia.
Qed.

(** In a reachable cache a Definition is stored under a key exactly when
    the key is its lowercased phrase or one of its lowercased aliases,
    as soon as it is stored at all. *)
Lemma Reachable_keys (c : DefinitionCache) :
  Reachable c ->
  forall k d,
    In d (stored (definitions c) k) ->
    In k (keysOf d)
    /\ forall k', In k' (keysOf d) -> In d (stored (definitions c) k').
Proof.
  induction 1 as [|c d0 Hr IH|c p Hr IH]; intros k d Hd.
  - destruct Hd.
  - rewrite stored_addToCache in Hd. apply in_app_or in Hd.
    destruct Hd as [Hd|Hd].
    + destruct (IH k d Hd) as [H1 H2]. split; [assumption|].
      intros k' Hk'. rewrite stored_addToCache. apply in_or_app. left.
      now apply H2.
    + pose proof (repeat_spec _ _ _ Hd) as ->. split.
      * apply countKey_In. destruct (countKey k (keysOf d0)); [destruct Hd | lia].
      * intros k' Hk'. now apply In_stored_addToCache.
  - rewrite stored_removeFromCache_reachable in Hd by assumption.
    apply filter_In in Hd. destruct Hd as [Hd Hp].
    destruct (IH k d Hd) as [H1 H2]. split; [assumption|].
    intros k' Hk'. rewrite stored_removeFromCache_reachable by assumption.
    apply filter_In. split; [now apply H2 | assumption].
Qed.

Lemma raw_visit_fold (a : RawContext) (l : list Defn) (acc : list Defn)
    (seen : list string) :
  fold_left (RawQueries.visit a) l (acc, seen)
  = (acc ++ (if Context.hasLength a
             then filter (fun d => Context.includes a (sourceFile d))
                         (firstSeen seen l)
             else firstSeen seen l),
     seen ++ map seenKey (firstSeen seen l)).
Proof.
  destruct (Context.hasLength a) eqn:E;
    revert acc seen; induction l as [|d l IH]; intros acc seen;
    try (simpl; now rewrite !app_nil_r);
    cbn [fold_left firstSeen]; unfold RawQueries.visit at 2; rewrite E;
    (destruct (Js.includes seen (seenKey d)); [apply IH|]).
  - cbn [filter map].
    destruct (Context.includes a (sourceFile d)); rewrite IH;
      now rewrite <- ?app_assoc.
  - rewrite IH. cbn [map]. now rewrite <- !app_assoc.
Qed.

Lemma raw_getAllDefinitions (c : DefinitionCache) (a : RawContext) :
  RawQueries.getAllDefinitions c a
  = if Context.hasLength a
    then filter (fun d => Context.includes a (sourceFile d))
                (firstSeen [] (allStored c))
    else firstSeen [] (allStored c).
Proof.
  unfold RawQueries.getAllDefinitions, allStored.
  rewrite fold_concat, raw_visit_fold. reflexivity.
Qed.

Lemma raw_getAllDefinitions_In (c : DefinitionCache) (a : RawContext)
    (d : Defn) :
  In d (RawQueries.getAllDefinitions c a) ->
  In d (allStored c)
  /\ (Context.hasLength a = true ->
      Context.includes a (sourceFile d) = true).
Proof.
  rewrite raw_getAllDefinitions. destruct (Context.hasLength a).
  - intros H. apply filter_In in H. destruct H as [H1 H2].
    apply firstSeen_In in H1. tauto.
  - intros H. apply firstSeen_In in H. split; [tauto | discriminate].
Qed.

Lemma raw_getDefinition_In (c : DefinitionCache) (w : string)
    (a : RawContext) (d : Defn) :
  RawQueries.getDefinition c w a = Some d ->
  In d (stored (definitions c) (toLowerCase w))
  /\ (Context.hasLength a = true ->
      Context.includes a (sourceFile d) = true).
Proof.
  unfold RawQueries.getDefinition, stored.
  destruct (JsMap.get (definitions c) (toLowerCase w)) as [[|d0 rest]|];
    try discriminate.
  destruct (Context.hasLength a).
  - destruct (filter _ (d0 :: rest)) as [|d1 ds] eqn:E; [discriminate|].
    intros [= <-].
    assert (Hin : In d1 (filter (fun d => Context.includes a (sourceFile d))
                                (d0 :: rest)))
      by (rewrite E; now left).
    apply filter_In in Hin. tauto.
  - intros [= <-]. split; [now left | discriminate].
Qed.

(** On a context of the declared type the queries on the raw value are
    the typed ones. *)
Lemma typed_hasLength (ctx : option (list string)) :
  Context.hasLength (Context.typed ctx)
  = match hasContext ctx with Some _ => true | None => false end.
Proof. now destruct ctx as [[|f fs]|]. Qed.

Lemma typed_includes (l : list string) (x : string) :
  Context.includes (RawArray (map ItemString l)) x = includes l x.
Proof.
  unfold includes. cbn [Context.includes].
  induction l as [|y l IH]; [reflexivity|].
  cbn [map existsb]. now rewrite IH, String.eqb_sym.
Qed.

Lemma getDefinition_typed (c : DefinitionCache) (ph : string)
    (ctx : option (list string)) :
  RawQueries.getDefinition c ph (Context.typed ctx) = getDefinition c ph ctx.
Proof.
  unfold RawQueries.getDefinition, getDefinition.
  destruct (JsMap.get (definitions c) (toLowerCase ph)) as [[|d0 rest]|];
    try reflexivity.
  rewrite typed_hasLength. destruct ctx as [[|f fs]|]; try reflexivity.
  cbn [hasContext Context.typed].
  rewrite (filter_ext _ (fun d => includes (f :: fs) (sourceFile d)));
    [reflexivity|].
  intros d. apply (typed_includes (f :: fs)).
Qed.

Lemma getAllPhrases_typed (c : DefinitionCache)
    (ctx : option (list string)) :
  RawQueries.getAllPhrases c (Context.typed ctx) = getAllPhrases c ctx.
Proof.
  unfold RawQueries.getAllPhrases, getAllPhrases. f_equal.
  rewrite raw_getAllDefinitions, typed_hasLength.
  destruct ctx as [[|f fs]|]; cbn [hasContext].
  - symmetry. apply getAllDefinitions_firstSeen.
  - unfold getAllDefinitions, allStored.
    rewrite fold_concat, visit_fold_context by discriminate.
    cbn [fst app Context.typed]. apply filter_ext.
    intros d. apply (typed_includes (f :: fs)).
  - symmetry. apply getAllDefinitions_firstSeen.
Qed.

(** A word that reads, once lowercased, as a phrase listed for one
    context is found by [getDefinition] under every context that admits
    the files the first one admits. *)
Lemma listed_phrase_resolves (c : DefinitionCache) (a b : RawContext)
    (p w : string) :
  Reachable c ->
  In p (RawQueries.getAllPhrases c a) ->
  toLowerCase w = toLowerCase p ->
  (forall f,
      (Context.hasLength a = true -> Context.includes a f = true) ->
      Context.hasLength b = true -> Context.includes b f = true) ->
  exists d, RawQueries.getDefinition c w b = Some d.
Proof.
  intros Hr Hp Hw Hab. unfold RawQueries.getAllPhrases in Hp.
  apply (getAllPhrases_fold _ [] (NoDup_nil _)) in Hp.
  destruct Hp as [[]|(d & Hd & Hx)].
  apply raw_getAllDefinitions_In in Hd. destruct Hd as [Hst Hctx].
  apply (allStored_stored c d (inv_keys _ (Reachable_inv c Hr))) in Hst.
  destruct Hst as [k Hk].
  assert (Hkey : In (toLowerCase w) (keysOf d)).
  { rewrite Hw. unfold keysOf. destruct Hx as [->|Hx]; [now left|].
    right. now apply in_map. }
  pose proof (proj2 (Reachable_keys c Hr k d Hk) _ Hkey) as Hin.
  unfold RawQueries.getDefinition. unfold stored in Hin.
  destruct (JsMap.get (definitions c) (toLowerCase w)) as [[|d0 rest]|];
    try now destruct Hin.
  destruct (Context.hasLength b) eqn:Eb; [|eauto].
  assert (Hf : In d (filter (fun d => Context.includes b (sourceFile d))
                            (d0 :: rest)))
    by (apply filter_In; split; [assumption | now apply Hab]).
  destruct (filter _ (d0 :: rest)) as [|d1 ds]; [destruct Hf | eauto].
Qed.

Lemma prefix_refl (s : string) : prefix s s = true.
Proof.
  induction s as [|c s IH]; [reflexivity|]. simpl.
  now destruct (Ascii.ascii_dec c c).
Qed.

Lemma stringIncludes_refl (s : string) : Context.stringIncludes s s = true.
Proof.
  destruct s as [|c s]; [reflexivity|].
  cbn [Context.stringIncludes]. now rewrite prefix_refl.
Qed.

(** The context of the hover admits every file that the context of the
    decorations admits: a single file name is compared as a whole for
    the decorations and searched for inside the name for the hover. *)
Lemma hover_admits (path : string) (defContext : RawContext) (x : string) :
  (Context.hasLength (Decorations.getContextFiles (Some (path, defContext)))
   = true ->
   Context.includes (Decorations.getContextFiles (Some (path, defContext))) x
   = true) ->
  Context.hasLength
    (if Context.truthy defContext then defContext else RawFalsy) = true ->
  Context.includes
    (if Context.truthy defContext then defContext else RawFalsy) x = true.
Proof.
  cbn [Decorations.getContextFiles].
  destruct defContext as [|items|s|]; cbn [Context.truthy negb].
  - discriminate.
  - auto.
  - destruct (s == "") eqn:Es; cbn [negb]; [discriminate|].
    cbn [Context.hasLength Context.includes List.length existsb].
    intros H _. specialize (H eq_refl). rewrite orb_false_r in H.
    apply eqb_true_iff in H. subst x. apply stringIncludes_refl.
  - cbn [Context.hasLength Context.includes List.length existsb].
    intros H. specialize (H eq_refl). discriminate.
Qed.

(** Every span that gets the underline resolves on hover, for phrases of
    ASCII characters.  Take a reachable cache, a note that is not a
    definition file (or no note), and let every phrase listed for the
    note be ASCII.  Then for each span [buildDecorations] underlines,
    [showPopoverForPhrase] on its [data-phrase] shows a Definition, one
    that is filed under the span lowercased.  This is so although the
    decorations compare a single [def-context] file name as a whole and
    the hover searches for the source file inside it.  The hypothesis on the phrases is needed of
    the code: the expression folds case by upper-casing and the index
    by lower-casing, and outside ASCII a span can match a phrase without
    being filed under its key. *)
Theorem underlined_phrases_resolve (c : DefinitionCache)
    (active : ActiveNote) (fuel : nat) (text : string) (r : list Match) :
  Reachable c ->
  (forall p,
      In p (RawQueries.getAllPhrases c (Decorations.getContextFiles active)) ->
      isAscii p = true) ->
  (forall path defContext,
      active = Some (path, defContext) -> isDefinitionFile c path = false) ->
  Decorations.buildDecorations fuel c active text = Ok r ->
  Forall (fun m =>
            exists d,
              Decorations.showPopoverForPhrase c active (phrase m)
              = Decorations.Show d
              /\ In d (stored (definitions c) (toLowerCase (phrase m)))) r.
Proof.
  intros Hr Hascii Hnote. unfold Decorations.buildDecorations.
  destruct (List.length _ =? 0); [intros [= <-]; constructor|].
  apply findPhrases_all. intros p li i e Hp He.
  destruct (candidate_any p text li i e He) as (_ & Hs & _ & _ & Ho).
  cbn [phrase]. rewrite Hs.
  destruct Ho as (_ & Hfold). apply folded_lower in Hfold.
  set (w := substring i (length p) text) in *.
  assert (Hlook : forall b,
             (forall f,
                 (Context.hasLength (Decorations.getContextFiles active) = true ->
                  Context.includes (Decorations.getContextFiles active) f
                  = true) ->
                 Context.hasLength b = true -> Context.includes b f = true) ->
             exists d, RawQueries.getDefinition c w b = Some d
                       /\ In d (stored (definitions c) (toLowerCase w))).
  { intros b Hb.
    destruct (listed_phrase_resolves c _ b p w Hr Hp Hfold Hb) as [d Hd].
    exists d. split; [assumption|].
    apply raw_getDefinition_In in Hd. tauto. }
  unfold Decorations.showPopoverForPhrase.
  destruct active as [[path defContext]|].
  - rewrite (Hnote path defContext eq_refl).
    destruct (Hlook (if Context.truthy defContext then defContext
                     else RawFalsy)) as (d & Hd & Hk).
    + intros f Hf. exact (hover_admits path defContext f Hf).
    + exists d. split; [|assumption].
      destruct (Context.truthy defContext); now rewrite Hd.
  - destruct (Hlook RawFalsy) as (d & Hd & Hk); [discriminate|].
    exists d. split; [|assumption]. now rewrite Hd.
Qed.

Lemma underlined_phrases_resolve_witness :
  Forall (fun m =>
            exists d,
              Decorations.showPopoverForPhrase
                (addToCache (addToCache emptyCache cpuDef) ramDef)
                (Some ("notes/today.md", RawString "defs/b.md")) (phrase m)
              = Decorations.Show d
              /\ In d (stored (definitions
                                 (addToCache (addToCache emptyCache cpuDef)
                                             ramDef))
                              (toLowerCase (phrase m))))
         [{| phrase := "Memory"; from := 0; to := 6 |};
          {| phrase := "ram"; from := 13; to := 16 |}].
Proof.
  apply (underlined_phrases_resolve
           (addToCache (addToCache emptyCache cpuDef) ramDef)
           (Some ("notes/today.md", RawString "defs/b.md"))
           30 "Memory means ram, not cpu").
  - apply Reachable_add, Reachable_add, Reachable_empty.
  - intros p Hp. vm_compute in Hp.
    repeat (destruct Hp as [<-|Hp]; [reflexivity|]). destruct Hp.
  - intros path defContext [= <- <-]. reflexivity.
  - vm_compute. reflexivity.
Defined.

Section OnePhrase.
Variables (p line : string) (pos : nat).
Hypothesis Hp : p <> "".

Lemma cursorScan_ok (fuel li : nat) :
  length line + 1 - li < fuel ->
  exists r,
    cursorScan fuel (wordRegExp p) line pos li = Ok r
    /\ match r with
       | Some w =>
           exists i, occursAt p line i /\ i <= pos <= i + length p
                     /\ w = substring i (length p) line
       | None =>
           forall i e, ExaminedFrom (wordRegExp p) line li i e ->
                       ~ (i <= pos <= e)
       end.
Proof.
  revert li; induction fuel as [|fuel IH]; intros li Hf; [lia|].
  cbn [cursorScan].
  destruct (exec (wordRegExp p) line li) as [[i0 e0]|] eqn:E.
  - destruct (candidate_any _ _ _ _ _ E) as (Hto & Hs & Hli & Hlen & Ho).
    cbv zeta. rewrite Hto.
    destruct ((i0 <=? pos) && (pos <=? e0)) eqn:T.
    + exists (Some (substring2 line i0 e0)). split; [reflexivity|].
      exists i0. apply andb_true_iff in T. destruct T as [T1 T2].
      apply Nat.leb_le in T1, T2. rewrite Hs.
      split; [exact Ho|]. split; [lia | reflexivity].
    + pose proof (length_pos p Hp) as Hpos.
      destruct Ho as ((_ & _ & Hle) & _).
      assert (Hadv : li < e0 /\ e0 <= length line) by lia.
      clear Hlen Hle Hto Hs.
      destruct (IH e0) as (r & Hr & Hspec); [lia|].
      exists r. split; [exact Hr|].
      destruct r as [w|]; [exact Hspec|].
      intros i e Hex. inversion Hex as [? ? ? H1|? ? ? ? ? H1 H2]; subst;
        rewrite E in H1; inversion H1; subst.
      * intros [A B]. apply andb_false_iff in T.
        destruct T as [T|T]; apply Nat.leb_gt in T; lia.
      * now apply Hspec.
  - exists None. split; [reflexivity|].
    intros i e Hex. inversion Hex; congruence.
Qed.

End OnePhrase.

Lemma cursorPhrases_ok (fuel : nat) (line : string) (pos : nat)
    (phrases : list string) :
  (forall p, In p phrases -> p <> "") ->
  length line + 1 < fuel ->
  exists r,
    cursorPhrases fuel line pos phrases = Ok r
    /\ match r with
       | Some w =>
           exists p i,
             In p phrases /\ occursAt p line i /\ i <= pos <= i + length p
             /\ w = substring i (length p) line
       | None =>
           forall p i e,
             In p phrases -> ExaminedFrom (wordRegExp p) line 0 i e ->
             ~ (i <= pos <= e)
       end.
Proof.
  intros Hne Hf. induction phrases as [|p ps IH].
  - exists None. split; [reflexivity|]. intros p i e [].
  - cbn [cursorPhrases]. rewrite compile_wordRegExp.
    destruct (cursorScan_ok p line pos (Hne p (or_introl eq_refl)) fuel 0)
      as (r & Hr & Hspec); [lia|].
    rewrite Hr. cbn [bind]. destruct r as [w|].
    + exists (Some w). split; [reflexivity|].
      destruct Hspec as (i & H). exists p, i. split; [now left | exact H].
    + destruct IH as (r & Hr' & Hspec');
        [intros q Hq; apply Hne; now right|].
      exists r. split; [exact Hr'|]. destruct r as [w|].
      * destruct Hspec' as (q & i & Hq & H). exists q, i.
        split; [now right | exact H].
      * intros q i e [<-|Hq]; [apply Hspec | now apply Hspec'].
Qed.

(** With no empty phrase listed and a budget above the length of the
    line, [getDefinitionAtCursor] returns, whatever the [def-context]
    value of the note is: an array, a single string, none, or another
    value that has no [length] of its own.  A word it returns stands for a phrase listed for that value:
    it is a whole word of the line, as long as the phrase, its span
    holds the cursor, ends included, and it is written as the line has
    it; when the phrase is made of ASCII characters it has the letters
    of the phrase, case apart.  It returns [null] only when no span that
    the loops examine holds the cursor. *)
Theorem getDefinitionAtCursor_covers (fuel : nat) (c : DefinitionCache)
    (active : ActiveNote) (line : string) (pos : nat) :
  (forall p,
      In p (RawQueries.getAllPhrases c (getContextFilesFromEditor active)) ->
      p <> "") ->
  length line + 1 < fuel ->
  exists r,
    getDefinitionAtCursor fuel c active line pos = Ok r
    /\ match r with
       | Some w =>
           exists p i,
             In p (RawQueries.getAllPhrases
                     c (getContextFilesFromEditor active))
             /\ wholeWordAt (length p) line i
             /\ i <= pos <= i + length p
             /\ w = substring i (length p) line
             /\ (isAscii p = true ->
                 folded w = folded p /\ toLowerCase w = toLowerCase p)
       | None =>
           forall p i e,
             In p (RawQueries.getAllPhrases
                     c (getContextFilesFromEditor active)) ->
             ExaminedFrom (wordRegExp p) line 0 i e ->
             ~ (i <= pos <= e)
       end.
Proof.
  intros Hne Hf. unfold getDefinitionAtCursor.
  destruct (cursorPhrases_ok fuel line pos _ Hne Hf) as (r & Hr & Hspec).
  exists r. split; [exact Hr|].
  destruct r as [w|]; [|exact Hspec].
  destruct Hspec as (p & i & Hp & [Hw Hfold] & Hpos & Heq).
  exists p, i. split; [assumption|]. split; [assumption|].
  split; [assumption|]. split; [assumption|]. intros _.
  rewrite Heq. split; [assumption | now apply folded_lower].
Qed.

Lemma getDefinitionAtCursor_covers_witness :
  exists r,
    getDefinitionAtCursor 20 (DefinitionManager.cache cpuManager)
      (Some ("notes/today.md", RawString "defs/a.md")) "the cpu is hot" 5
    = Ok r
    /\ match r with
       | Some w =>
           exists p i,
             In p (RawQueries.getAllPhrases
                     (DefinitionManager.cache cpuManager)
                     (getContextFilesFromEditor
                        (Some ("notes/today.md", RawString "defs/a.md"))))
             /\ wholeWordAt (length p) "the cpu is hot" i
             /\ i <= 5 <= i + length p
             /\ w = substring i (length p) "the cpu is hot"
             /\ (isAscii p = true ->
                 folded w = folded p /\ toLowerCase w = toLowerCase p)
       | None =>
           forall p i e,
             In p (RawQueries.getAllPhrases
                     (DefinitionManager.cache cpuManager)
                     (getContextFilesFromEditor
                        (Some ("notes/today.md", RawString "defs/a.md")))) ->
             ExaminedFrom (wordRegExp p) "the cpu is hot" 0 i e ->
             ~ (i <= 5 <= e)
       end.
Proof.
  apply (getDefinitionAtCursor_covers 20 (DefinitionManager.cache cpuManager)
           (Some ("notes/today.md", RawString "defs/a.md"))
           "the cpu is hot" 5).
  - intros p Hp. vm_compute in Hp.
    repeat (destruct Hp as [<-|Hp]; [discriminate|]). destruct Hp.
  - simpl. lia.
Defined.

End Resolution.

(* ------------------------------------------------------------------ *)
(** ** [findUsages] *)

Section UsageFacts.
Import Js RegExp DefinitionManager Usages.

Lemma test_occursAt (p l : string) :
  test (wordRegExp p) l = true <-> exists i, occursAt p l i.
Proof.
  unfold test. split.
  - destruct (exec (wordRegExp p) l 0) as [[i e]|] eqn:E; [|discriminate].
    intros _. exists i. apply exec_found in E. destruct E as [_ E].
    apply matchAt_occursAt. eauto.
  - intros [i Ho]. pose proof Ho as ((Hb & _) & _).
    apply matchAt_occursAt in Ho. destruct Ho as [e He].
    destruct (exec_complete _ _ 0 i e He) as (i' & e' & E & _);
      [lia | now apply boundary_le |].
    now rewrite E.
Qed.

Lemma scanLines_In (regex : list Atom) (f : string) (lines : list string)
    (i : nat) (us : list Usage) (u : Usage) :
  In u (scanLines regex f lines i us)
  <-> In u us
      \/ exists n l,
           nth_error lines n = Some l /\ test regex l = true
           /\ u = {| file := f; line := i + n + 1; text := trim l |}.
Proof.
  revert i us; induction lines as [|l0 rest IH]; intros i us;
    cbn [scanLines].
  - split; [now left|]. intros [H|(n & l & H & _)]; [assumption|].
    now destruct n.
  - cbv zeta. rewrite IH. split.
    + intros [H|(n & l & Hn & Ht & Hu)].
      * destruct (test regex l0) eqn:T; [|now left].
        apply in_app_or in H. destruct H as [H|[<-|[]]]; [now left|].
        right. exists 0, l0. rewrite Nat.add_0_r. auto.
      * right. exists (S n), l. repeat split; try assumption.
        rewrite Hu. f_equal. lia.
    + intros [H|(n & l & Hn & Ht & Hu)].
      * left. destruct (test regex l0); [|assumption].
        apply in_or_app. now left.
      * destruct n as [|n].
        -- simpl in Hn. inversion Hn; subst l0. rewrite Ht. left.
           apply in_or_app. right. left. rewrite Hu. f_equal. lia.
        -- right. exists n, l. repeat split; try assumption.
           rewrite Hu. f_equal. lia.
Qed.

Lemma scanFiles_In (regex : list Atom) (c : DefinitionCache)
    (files : list (string * option string)) (us : list Usage) (u : Usage) :
  In u (scanFiles regex c files us)
  <-> In u us
      \/ exists content n l,
           In (file u, Some content) files
           /\ isDefinitionFile c (file u) = false
           /\ nth_error (split (ascii_of_nat 10) content) n = Some l
           /\ test regex l = true
           /\ line u = n + 1 /\ text u = trim l.
Proof.
  revert us; induction files as [|[f rd] rest IH]; intros us;
    cbn [scanFiles].
  - split; [now left|]. intros [H|(? & ? & ? & [] & _)]. assumption.
  - destruct (isDefinitionFile c f) eqn:D; [|destruct rd as [content|]];
      rewrite IH; clear IH.
    + split; (intros [H|(ct & n & l & Hin & Hd & H)]; [now left|]);
        right; exists ct, n, l; (split; [|now split]).
      * now right.
      * destruct Hin as [Heq|Hin]; [|assumption].
        inversion Heq; subst. congruence.
    + rewrite scanLines_In. split.
      * intros [[H|(n & l & Hn & Ht & Hu)]|(ct & n & l & Hin & H)].
        -- now left.
        -- right. exists content, n, l. subst u. cbn [file line text].
           repeat split; try assumption. now left.
        -- right. exists ct, n, l. split; [now right | exact H].
      * intros [H|(ct & n & l & [Heq|Hin] & Hd & Hn & Ht & Hl & Hx)].
        -- left. now left.
        -- inversion Heq; subst. left. right. exists n, l.
           repeat split; try assumption.
           destruct u as [uf ul ut]. cbn [file line text] in *. now subst.
        -- right. exists ct, n, l. auto 10.
    + split; (intros [H|(ct & n & l & Hin & H)]; [now left|]);
        right; exists ct, n, l; (split; [|exact H]).
      * now right.
      * destruct Hin as [Heq|Hin]; [discriminate | assumption].
Qed.

(** [findUsages] for a phrase of ASCII characters always returns, and it
    reports exactly this: a usage names a file that is not a definition
    file and whose read succeeded, a line of it counted from 1, and that
    line trimmed as its text, for every line on which the phrase occurs
    as a whole word, case apart (a word boundary on either side, and
    between them the letters of the phrase as the [i] flag compares).
    Definition files and files whose read fails contribute nothing. *)
Theorem findUsages_exact (c : DefinitionCache)
    (files : list (string * option string)) (ph : string) :
  isAscii ph = true ->
  exists us,
    findUsages c files ph = Ok us
    /\ forall u,
         In u us
         <-> exists content l i,
               In (file u, Some content) files
               /\ isDefinitionFile c (file u) = false
               /\ 1 <= line u
               /\ nth_error (split (ascii_of_nat 10) content) (line u - 1)
                  = Some l
               /\ text u = trim l
               /\ occursAt ph l i.
Proof.
  intros _. unfold findUsages. rewrite compile_wordRegExp.
  eexists. split; [reflexivity|]. intros u. rewrite scanFiles_In. split.
  - intros [[]|(ct & n & l & Hin & Hd & Hn & Ht & Hl & Hx)].
    apply test_occursAt in Ht. destruct Ht as [i Ho].
    exists ct, l, i. rewrite Hl.
    replace (n + 1 - 1) with n by lia.
    split; [assumption|]. split; [assumption|]. split; [lia|].
    split; [assumption|]. split; assumption.
  - intros (ct & l & i & Hin & Hd & H1 & Hn & Hx & Ho). right.
    exists ct, (line u - 1), l. repeat split; try assumption.
    + apply test_occursAt. eauto.
    + lia.
Qed.

Lemma findUsages_exact_witness :
  exists us,
    findUsages (DefinitionManager.cache cpuManager) usageFiles "cpu" = Ok us
    /\ forall u,
         In u us
         <-> exists content l i,
               In (file u, Some content) usageFiles
               /\ isDefinitionFile (DefinitionManager.cache cpuManager) (file u)
                  = false
               /\ 1 <= line u
               /\ nth_error (split (ascii_of_nat 10) content) (line u - 1)
                  = Some l
               /\ text u = trim l
               /\ occursAt "cpu" l i.
Proof.
  apply (findUsages_exact (DefinitionManager.cache cpuManager) usageFiles
                          "cpu").
  reflexivity.
Defined.

End UsageFacts.

(* ------------------------------------------------------------------ *)
(** ** What [appendToConsolidatedFile] writes, read back by the parser *)

Section AppendFacts.
Import Js ConsolidatedParser Vault UIManager.

Lemma append_assoc (a b c : string) :
  ((a ++ b) ++ c = a ++ (b ++ c))%string.
Proof.
  induction a as [|x a IH]; simpl; [reflexivity | now rewrite IH].
Qed.

Lemma allSpace_trimStart (s : string) : allSpace s = true -> trimStart s = "".
Proof.
  induction s as [|c s IH]; simpl; [reflexivity|].
  intros H. apply andb_prop in H. destruct H as [Hc Hs]. now rewrite Hc, IH.
Qed.

Lemma trim_trimEnd_nonempty (s : string) : trim s <> "" -> trimEnd s <> "".
Proof.
  intros H E. apply H. apply trimEnd_empty in E. unfold trim.
  now rewrite (allSpace_trimStart s E).
Qed.

Lemma trimStart_trimEnd (s : string) :
  trimStart (trimEnd s) = trimEnd (trimStart s).
Proof.
  induction s as [|c s IH]; [reflexivity|].
  cbn [trimStart]. destruct (isSpace c) eqn:E.
  - cbn [trimEnd]. rewrite E. cbn [andb].
    destruct (trimEnd s == "") eqn:Z.
    + apply eqb_true_iff in Z. rewrite <- IH, Z. reflexivity.
    + cbn [trimStart]. now rewrite E.
  - cbn [trimEnd]. rewrite E. cbn [andb trimStart]. now rewrite E.
Qed.

Lemma trim_trimEnd (s : string) : trim (trimEnd s) = trim s.
Proof.
  unfold trim. now rewrite trimStart_trimEnd, trimEnd_idem.
Qed.

(** The header line [appendToConsolidatedFile] writes, as the parser
    reads it. *)
Lemma written_header (ph : string) :
  trim ph <> "" ->
  trim ("# " ++ ph) = ("# " ++ trimEnd ph)%string
  /\ isHeader (trim ("# " ++ ph)) = true
  /\ trim (substring1 (trim ("# " ++ ph)) 2) = trim ph.
Proof.
  intros H. apply trim_trimEnd_nonempty in H.
  assert (E : trim ("# " ++ ph) = ("# " ++ trimEnd ph)%string).
  { unfold trim. change ("# " ++ ph)%string with (String "#" (String " " ph)).
    cbn [trimStart]. change (isSpace "#") with false. cbn iota.
    cbn [trimEnd]. change (isSpace "#") with false.
    change (isSpace " ") with true. cbn [andb].
    apply eqb_false_iff in H. now rewrite H. }
  rewrite E. split; [reflexivity|]. split.
  - unfold isHeader, startsWith. cbn.
    destruct (trimEnd ph) as [|c r]; [congruence|]. cbn.
    destruct r; reflexivity.
  - unfold substring1, substring2. cbn [append length].
    replace (Nat.min 2 (S (S (length (trimEnd ph))))) with 2 by lia.
    rewrite Nat.min_id.
    replace (Nat.min 2 (S (S (length (trimEnd ph))))) with 2 by lia.
    replace (Nat.max 2 (S (S (length (trimEnd ph))))
             - 2) with (length (trimEnd ph)) by lia.
    cbn [substring]. rewrite substring_all. apply trim_trimEnd.
Qed.

(** The text of the file after a successful append: the old text, a
    newline, the header, a blank line, and the rest of the block. *)
Lemma append_written (filePath ph : string) (al : list string)
    (ct existing : string) (w w' : World) :
  getAbstractFileByPath w filePath = Some (File existing) ->
  appendToConsolidatedFile filePath ph al ct w = (Some tt, w') ->
  exists rest,
    getAbstractFileByPath w' filePath
    = Some (File (existing
                  ++ String (ascii_of_nat 10)
                       (("# " ++ ph)
                        ++ String (ascii_of_nat 10)
                             (String (ascii_of_nat 10) rest)))).
Proof.
  unfold appendToConsolidatedFile, getAbstractFileByPath.
  intros Hf. rewrite Hf. unfold bindIO.
  destruct (read filePath w) as [[c|] w1] eqn:R; [|discriminate].
  pose proof (read_files _ _ _ _ R) as Hw1.
  assert (Hc : c = existing).
  { unfold read, bindIO in R.
    destruct (hostCall w) as [[[]|] w0] eqn:H0; [|discriminate].
    apply hostCall_files in H0. rewrite H0, Hf in R. now inversion R. }
  subst c. intros M. apply modify_files in M. rewrite M, Hw1, get_set.
  rewrite String.eqb_refl.
  destruct (0 <? List.length al); eexists; do 2 f_equal;
    unfold nl; cbn [append]; rewrite ?append_assoc; cbn [append];
    reflexivity.
Qed.

Lemma split_written (existing ph rest : string) :
  oneLine ph = true ->
  split (ascii_of_nat 10)
        (existing
         ++ String (ascii_of_nat 10)
              (("# " ++ ph)
               ++ String (ascii_of_nat 10) (String (ascii_of_nat 10) rest)))
  = split (ascii_of_nat 10) existing
    ++ ("# " ++ ph)%string :: "" :: split (ascii_of_nat 10) rest.
Proof.
  intros H. rewrite !split_app_sep. f_equal.
  rewrite (split_oneLine ("# " ++ ph)) by (cbn; exact H).
  reflexivity.
Qed.

Lemma inFrontMatter_app (pre post : list string) :
  pre <> [] ->
  inFrontMatter (pre ++ post) (List.length pre) ->
  inFrontMatter pre (List.length pre).
Proof.
  intros Hne [(l0 & H0 & Ht) Hno]. split.
  - exists l0. split; [|assumption].
    destruct pre as [|x pre]; [congruence | exact H0].
  - intros j l Hj Hl. apply (Hno j l Hj).
    rewrite nth_error_app1 by lia. exact Hl.
Qed.

Lemma Forall2_In_r {A B} (R : A -> B -> Prop) (xs : list A) (ys : list B)
    (y : B) :
  Forall2 R xs ys -> In y ys -> exists x, In x xs /\ R x y.
Proof.
  induction 1 as [|x y0 xs ys Hxy _ IH]; [intros []|].
  intros [<-|Hy].
  - exists x. split; [now left | assumption].
  - destruct (IH Hy) as (x' & Hx' & HR). exists x'. split; [now right|].
    assumption.
Qed.

(** A header line followed by a blank line, outside the front matter:
    the parser returns a Definition for it, with the trimmed phrase and
    no aliases. *)
Lemma written_block_parsed (pat : DividerPattern) (filePath : string)
    (pre : list string) (ph : string) (post : list string) :
  trim ph <> "" ->
  ~ inFrontMatter (pre ++ ("# " ++ ph)%string :: "" :: post)
                  (List.length pre) ->
  exists defs d,
    parseLoop (S (List.length (pre ++ ("# " ++ ph)%string :: "" :: post)))
              pat (pre ++ ("# " ++ ph)%string :: "" :: post) filePath 0 []
    = Ok defs
    /\ In d defs
    /\ lineNumber d = Some (List.length pre + 1)
    /\ phrase d = trim ph
    /\ aliases d = []
    /\ sourceFile d = filePath.
Proof.
  intros Hph Hfm.
  set (lines := pre ++ ("# " ++ ph)%string :: "" :: post) in *.
  assert (Hn : nth_error lines (List.length pre) = Some ("# " ++ ph)%string).
  { unfold lines. rewrite nth_error_app2 by lia.
    now rewrite Nat.sub_diag. }
  assert (Hn1 : nth_error lines (List.length pre + 1) = Some "").
  { unfold lines. rewrite nth_error_app2 by lia.
    now replace (List.length pre + 1 - List.length pre) with 1 by lia. }
  destruct (written_header ph Hph) as (_ & Hhead & Hphrase).
  destruct (parseLoop_ok pat lines filePath (S (List.length lines)) 0 [])
    as (defs & E & Hfrom & Hcov); [lia|].
  destruct (parseLoop_blocks pat lines filePath (S (List.length lines)) 0 [])
    as (defs' & idxs & E' & Hblocks & _); [lia|].
  rewrite E in E'. inversion E' as [Heq]. subst defs'.
  change ([] ++ defs) with defs in E.
  destruct (Hcov (List.length pre) _ (Nat.le_0_l _) Hn Hhead Hfm)
    as (d & Hd & Hline).
  exists defs, d. split; [exact E|].
  split; [exact Hd|]. split; [exact Hline|].
  destruct (Forall2_In_r _ _ _ _ Hblocks Hd) as (i & _ & Hb).
  pose proof (parseBlock_shape pat lines filePath i d Hb)
    as (Hl & _ & _ & Hal & _ & Hsrc & _).
  rewrite Hline in Hl. assert (i = List.length pre) by (inversion Hl; lia).
  subst i. split; [|split; [|exact Hsrc]].
  - rewrite Forall_forall in Hfrom.
    destruct (Hfrom d Hd) as (n' & l' & Hl' & _ & Hline' & Hp' & _).
    rewrite Hline in Hline'.
    assert (n' = List.length pre) by (inversion Hline'; lia). subst n'.
    rewrite Hn in Hl'. inversion Hl'; subst l'.
    rewrite Hp'. exact Hphrase.
  - rewrite Hal. unfold aliasesAfter. rewrite Hn1. reflexivity.
Qed.

(** A block that [appendToConsolidatedFile] has written is read back by
    the parser without its aliases.  After a successful append to a file
    whose old text does not end inside an open front matter, [parse]
    returns, for the line of the new header, a Definition with the
    trimmed phrase and the path of the file, and its alias list is
    empty whatever aliases were given: the block has a blank line after
    the header, and the parser looks for the alias line only on the line
    right after the header. *)
Theorem appended_block_read_back (pat : DividerPattern)
    (filePath ph : string) (al : list string) (ct existing : string)
    (w w' : World) :
  getAbstractFileByPath w filePath = Some (File existing) ->
  appendToConsolidatedFile filePath ph al ct w = (Some tt, w') ->
  oneLine ph = true ->
  trim ph <> "" ->
  ~ inFrontMatter (split (ascii_of_nat 10) existing)
                  (List.length (split (ascii_of_nat 10) existing)) ->
  exists written defs d,
    getAbstractFileByPath w' filePath = Some (File written)
    /\ parse pat written filePath = Ok defs
    /\ In d defs
    /\ lineNumber d
       = Some (List.length (split (ascii_of_nat 10) existing) + 1)
    /\ phrase d = trim ph
    /\ aliases d = []
    /\ sourceFile d = filePath.
Proof.
  intros Hf Happ Hone Hph Hfm.
  destruct (append_written _ _ _ _ _ _ _ Hf Happ) as [rest Hw].
  exists (existing
          ++ String (ascii_of_nat 10)
               (("# " ++ ph)
                ++ String (ascii_of_nat 10) (String (ascii_of_nat 10) rest)))%string.
  unfold parse. rewrite (split_written existing ph rest Hone).
  destruct (written_block_parsed pat filePath
              (split (ascii_of_nat 10) existing) ph
              (split (ascii_of_nat 10) rest) Hph) as (defs & d & H).
  - intros Hin. apply Hfm.
    exact (inFrontMatter_app _ _ (split_nonempty _ existing) Hin).
  - exists defs, d. split; [exact Hw | exact H].
Qed.

Lemma appended_block_read_back_witness :
  exists written defs d,
    getAbstractFileByPath
      (snd (appendToConsolidatedFile "defs/a.md" " CPU"
              ["Central Processing Unit"; "processor"]
              "The part that runs the programs." ramVault))
      "defs/a.md" = Some (File written)
    /\ parse both written "defs/a.md" = Ok defs
    /\ In d defs
    /\ lineNumber d = Some 7
    /\ phrase d = "CPU"
    /\ aliases d = []
    /\ sourceFile d = "defs/a.md".
Proof.
  apply (appended_block_read_back both "defs/a.md" " CPU"
           ["Central Processing Unit"; "processor"]
           "The part that runs the programs." ramFile ramVault).
  - reflexivity.
  - reflexivity.
  - reflexivity.
  - discriminate.
  - intros [(l0 & H0 & Ht) _]. vm_compute in H0. inversion H0; subst l0.
    discriminate.
Defined.

End AppendFacts.

(* ------------------------------------------------------------------ *)
(** ** The block the editor deletes and the block the parser read *)

Section DeleteFacts.
Import Js ConsolidatedParser Vault UIManager.

Section OneFile.
Variables (pat : DividerPattern) (lines : list string).
Hypothesis Hpat : pat = both \/ Forall (fun l => trim l <> "___") lines.

Lemma divider_agrees (i : nat) (l : string) :
  nth_error lines i = Some l ->
  isDivider pat (trim l) = (trim l == "---") || (trim l == "___").
Proof.
  intros Hl. unfold isDivider.
  destruct (trim l == "---"); [reflexivity|]. cbn [orb].
  destruct Hpat as [->|Hno]; [reflexivity|].
  rewrite Forall_forall in Hno.
  assert (Hne : trim l <> "___") by (apply Hno; eapply nth_error_In; eauto).
  apply eqb_false_iff in Hne. rewrite Hne. now destruct pat.
Qed.

Lemma header_not_divider (l : string) :
  isHeader l = true -> (l == "---") || (l == "___") = false.
Proof.
  unfold isHeader, startsWith. intros H. apply andb_prop in H.
  destruct H as [H _]. apply prefix_app in H. destruct H as [r ->].
  reflexivity.
Qed.

(** Where the content loop of the parser stops is where the loop of the
    editor stops, one line further when that line is a divider. *)
Lemma blockEnd_contentLoop (fuel n i : nat) (cl : list string) (e : nat)
    (cl' : list string) :
  List.length lines - i <= n ->
  contentLoop fuel pat lines i cl = Ok (e, cl') ->
  (if (blockEnd n lines i <? List.length lines)
      && isDividerLine lines (blockEnd n lines i)
   then blockEnd n lines i + 1 else blockEnd n lines i) = e.
Proof.
  revert n i cl; induction fuel as [|fuel IH]; intros n i cl Hn;
    cbn [contentLoop]; [discriminate|].
  destruct (i <? List.length lines) eqn:Hi.
  - apply Nat.ltb_lt in Hi.
    destruct (at_in_range lines i Hi) as (l & Hl & ->). cbn [bind].
    destruct n as [|n]; [lia|]. cbn [blockEnd]. rewrite Hl. cbv zeta.
    rewrite <- (divider_agrees i l Hl).
    destruct (isDivider pat (trim l)) eqn:Hd.
    + intros [= <- <-]. cbn [orb].
      unfold isDividerLine. rewrite Hl, <- (divider_agrees i l Hl), Hd.
      apply Nat.ltb_lt in Hi. now rewrite Hi.
    + cbn [orb]. fold (isHeader (trim l)).
      destruct (isHeader (trim l)) eqn:Hh.
      * intros [= <- <-]. unfold isDividerLine.
        rewrite Hl, (header_not_divider _ Hh). now rewrite andb_false_r.
      * apply IH. lia.
  - intros [= <- <-]. apply Nat.ltb_ge in Hi.
    assert (E : blockEnd n lines i = i).
    { destruct n as [|n]; [reflexivity|]. cbn [blockEnd].
      assert (Hnone : nth_error lines i = None) by now apply nth_error_None.
      now rewrite Hnone. }
    rewrite E. apply Nat.ltb_ge in Hi. now rewrite Hi.
Qed.

Lemma blockEnd_skips_alias (n i : nat) (l1 : string) :
  nth_error lines i = Some l1 ->
  startsWith (trim l1) "*" = true ->
  blockEnd (S n) lines i = blockEnd n lines (i + 1).
Proof.
  intros Hl Hs. cbn [blockEnd]. rewrite Hl. cbv zeta.
  unfold startsWith in Hs. apply prefix_app in Hs. destruct Hs as [r Hr].
  rewrite Hr. reflexivity.
Qed.

Lemma parseBlock_end (filePath : string) (i : nat) (d : Defn) (e : nat) :
  parseBlock pat lines i filePath = Ok (Some d, e) ->
  (if (blockEnd (List.length lines) lines (i + 1) <? List.length lines)
      && isDividerLine lines (blockEnd (List.length lines) lines (i + 1))
   then blockEnd (List.length lines) lines (i + 1) + 1
   else blockEnd (List.length lines) lines (i + 1)) = e.
Proof.
  unfold parseBlock, at_.
  destruct (nth_error lines i) as [l|] eqn:Hl; [|discriminate].
  cbn [bind]. destruct (trim (substring1 (trim l) 2) == ""); [discriminate|].
  assert (Hlen : i < List.length lines)
    by (apply nth_error_Some; congruence).
  destruct (i + 1 <? List.length lines) eqn:Hi.
  - apply Nat.ltb_lt in Hi.
    destruct (nth_error lines (i + 1)) as [l1|] eqn:Hl1.
    2:{ apply nth_error_None in Hl1. lia. }
    cbn [bind].
    destruct (startsWith (trim l1) "*" && endsWith (trim l1) "*"
              && (2 <? length (trim l1))) eqn:Ha; cbn [bind].
    + destruct (contentLoop _ pat lines (i + 1 + 1) []) as [[e' cl]| |] eqn:Hc;
        cbn [bind]; try discriminate.
      intros [= _ <-].
      apply andb_prop in Ha. destruct Ha as [Ha _].
      apply andb_prop in Ha. destruct Ha as [Ha _].
      destruct (List.length lines) as [|n] eqn:En; [lia|].
      rewrite (blockEnd_skips_alias n (i + 1) l1 Hl1 Ha).
      rewrite <- En in *.
      eapply (blockEnd_contentLoop _ n (i + 1 + 1)); [lia | exact Hc].
    + destruct (contentLoop _ pat lines (i + 1) []) as [[e' cl]| |] eqn:Hc;
        cbn [bind]; try discriminate.
      intros [= _ <-].
      eapply blockEnd_contentLoop; [lia | exact Hc].
  - cbn [bind].
    destruct (contentLoop _ pat lines (i + 1) []) as [[e' cl]| |] eqn:Hc;
      cbn [bind]; try discriminate.
    intros [= _ <-].
    eapply blockEnd_contentLoop; [lia | exact Hc].
Qed.

End OneFile.

(** [deleteConsolidatedDefinition] removes the block the parser read.
    Take a Definition that [parse] returns for the text of a file, and
    let no line of the file be [___] unless the divider pattern accepts
    it.  Then a delete that goes through leaves the file with its lines
    before the header of the block and its lines from where the parser
    ended the block, the divider included in what is removed, and
    nothing else changed. *)
Theorem delete_removes_parsed_block (pat : DividerPattern)
    (file content_ : string) (defs : list Defn) (d : Defn) (w w' : World) :
  getAbstractFileByPath w file = Some (File content_) ->
  parse pat content_ file = Ok defs ->
  In d defs ->
  pat = both
  \/ Forall (fun l => trim l <> "___") (split (ascii_of_nat 10) content_) ->
  deleteConsolidatedDefinition file d w = (Some tt, w') ->
  exists i e,
    lineNumber d = Some (i + 1)
    /\ parseBlock pat (split (ascii_of_nat 10) content_) i file
       = Ok (Some d, e)
    /\ getAbstractFileByPath w' file
       = Some (File (join nl
                       (firstn i (split (ascii_of_nat 10) content_)
                        ++ skipn e (split (ascii_of_nat 10) content_)))).
Proof.
  intros Hf Hparse Hd Hpat Hdel.
  destruct (parse_blocks pat content_ file) as (defs' & idxs & E & Hb & _).
  rewrite Hparse in E. inversion E; subst defs'. clear E.
  destruct (Forall2_In_r _ _ _ _ Hb Hd) as (i & _ & Hblock).
  pose proof (parseBlock_shape pat _ file i d Hblock) as (Hline & _).
  destruct Hblock as (l & e & Hl & Hh & Hpb).
  exists i, e. split; [exact Hline|]. split; [exact Hpb|].
  unfold deleteConsolidatedDefinition, getAbstractFileByPath, bindIO in *.
  destruct (read file w) as [[c|] w1] eqn:R; [|discriminate].
  pose proof (read_files _ _ _ _ R) as Hw1.
  assert (Hc : c = content_).
  { unfold read, bindIO in R.
    destruct (hostCall w) as [[[]|] w0] eqn:H0; [|discriminate].
    apply hostCall_files in H0. rewrite H0, Hf in R. now inversion R. }
  subst c. rewrite Hline in Hdel.
  replace (i + 1) with (S i) in Hdel by lia. cbv zeta in Hdel.
  rewrite (parseBlock_end pat _ Hpat file i d e Hpb) in Hdel.
  apply modify_files in Hdel. rewrite Hdel, Hw1, get_set, String.eqb_refl.
  unfold slice, sliceFrom. rewrite Nat.sub_0_r. reflexivity.
Qed.

Lemma delete_removes_parsed_block_witness :
  exists i e,
    lineNumber ramBlock = Some (i + 1)
    /\ parseBlock both (split (ascii_of_nat 10) ramFile) i "defs/a.md"
       = Ok (Some ramBlock, e)
    /\ getAbstractFileByPath
         (snd (deleteConsolidatedDefinition "defs/a.md" ramBlock ramVault))
         "defs/a.md"
       = Some (File (join nl
                       (firstn i (split (ascii_of_nat 10) ramFile)
                        ++ skipn e (split (ascii_of_nat 10) ramFile)))).
Proof.
  apply (delete_removes_parsed_block both "defs/a.md" ramFile [ramBlock]
           ramBlock ramVault).
  - reflexivity.
  - vm_compute. reflexivity.
  - now left.
  - now left.
  - reflexivity.
Defined.

End DeleteFacts.

(* ------------------------------------------------------------------ *)
(** ** What [updateConsolidatedDefinition] writes, read back by the parser *)

Section UpdateFacts.
Import Js ConsolidatedParser Vault UIManager.

Lemma split_join_flat (ls : list string) :
  ls <> [] ->
  split (ascii_of_nat 10) (join nl ls) = flat_map (split (ascii_of_nat 10)) ls.
Proof.
  induction ls as [|x ls IH]; [congruence|]. intros _.
  destruct ls as [|y r].
  - cbn. now rewrite app_nil_r.
  - rewrite join_cons, split_app_sep, IH by discriminate. reflexivity.
Qed.

Lemma flat_map_split_oneLine (ls : list string) :
  Forall (fun l => oneLine l = true) ls ->
  flat_map (split (ascii_of_nat 10)) ls = ls.
Proof.
  induction 1 as [|x ls Hx _ IH]; [reflexivity|].
  cbn [flat_map]. now rewrite (split_oneLine x Hx), IH.
Qed.

Lemma Forall_firstn {A} (P : A -> Prop) (n : nat) (l : list A) :
  Forall P l -> Forall P (firstn n l).
Proof.
  intros H. revert n; induction H as [|x l Hx _ IH]; intros [|n];
    simpl; constructor; auto.
Qed.

Lemma Forall_skipn {A} (P : A -> Prop) (n : nat) (l : list A) :
  Forall P l -> Forall P (skipn n l).
Proof.
  intros H. revert n; induction H as [|x l Hx Hl IH]; intros [|n];
    simpl; auto.
Qed.

Lemma nth_error_firstn_lt {A} (l : list A) (i j : nat) :
  j < i -> nth_error (firstn i l) j = nth_error l j.
Proof.
  revert i j; induction l as [|x l IH]; intros [|i] [|j] H; simpl;
    try reflexivity; try lia.
  apply IH. lia.
Qed.

(** The lines of the file after a successful update: the lines before
    the header, the new header, a blank line, the rest of the new block
    and the lines from the end the editor found. *)
Lemma update_written (file : string) (d : Defn) (np : string)
    (na : list string) (nc content_ : string) (w w' : World) (i : nat) :
  getAbstractFileByPath w file = Some (File content_) ->
  updateConsolidatedDefinition file d np na nc w = (Some tt, w') ->
  lineNumber d = Some (i + 1) ->
  oneLine np = true ->
  exists written post,
    getAbstractFileByPath w' file = Some (File written)
    /\ split (ascii_of_nat 10) written
       = firstn i (split (ascii_of_nat 10) content_)
         ++ ("# " ++ np)%string :: "" :: post.
Proof.
  intros Hf Hup Hline Hone.
  unfold updateConsolidatedDefinition, getAbstractFileByPath, bindIO in *.
  destruct (read file w) as [[c|] w1] eqn:R; [|discriminate].
  pose proof (read_files _ _ _ _ R) as Hw1.
  assert (Hc : c = content_).
  { unfold read, bindIO in R.
    destruct (hostCall w) as [[[]|] w0] eqn:H0; [|discriminate].
    apply hostCall_files in H0. rewrite H0, Hf in R. now inversion R. }
  subst c. rewrite Hline in Hup.
  replace (i + 1) with (S i) in Hup by lia. cbv zeta in Hup.
  apply modify_files in Hup.
  set (lines := split (ascii_of_nat 10) content_) in *.
  set (e := blockEnd (List.length lines) lines (i + 1)) in *.
  assert (Hblock : exists rest,
             ((if (0 <? List.length na)%nat
               then ("# " ++ np) ++ nl ++ nl ++ "*" ++ join ", " na ++ "*"
               else "# " ++ np) ++ nl ++ nl ++ nc)%string
             = (("# " ++ np)
                ++ String (ascii_of_nat 10) (String (ascii_of_nat 10) rest))%string).
  { destruct (0 <? List.length na); eexists; unfold nl; cbn [append];
      rewrite ?append_assoc; cbn [append]; reflexivity. }
  destruct Hblock as [rest Hblock].
  eexists. exists (split (ascii_of_nat 10) rest ++ skipn e lines).
  split.
  - rewrite Hup, Hw1, get_set, String.eqb_refl. reflexivity.
  - rewrite split_join_flat
      by (intros Hnil; apply app_eq_nil in Hnil; destruct Hnil as [_ Hnil];
          discriminate).
    unfold slice, sliceFrom. rewrite Nat.sub_0_r. cbn [skipn].
    rewrite !flat_map_app. cbn [flat_map]. rewrite app_nil_r.
    rewrite (flat_map_split_oneLine (firstn i lines))
      by apply Forall_firstn, split_lines_oneLine.
    rewrite (flat_map_split_oneLine (skipn e lines))
      by apply Forall_skipn, split_lines_oneLine.
    f_equal.
    rewrite Hblock, split_app_sep.
    rewrite (split_oneLine ("# " ++ np)) by (cbn; exact Hone).
    reflexivity.
Qed.

(** A block that [updateConsolidatedDefinition] has rewritten is read
    back by the parser without its aliases.  After a successful update
    of the Definition at a line of the file that is not inside the front
    matter, [parse] returns for that same line a Definition with the new
    phrase, trimmed, the path of the file, and an empty alias list
    whatever new aliases were given: here too the alias line is written
    after a blank line. *)
Theorem updated_block_read_back (pat : DividerPattern) (file : string)
    (d : Defn) (np : string) (na : list string) (nc content_ : string)
    (w w' : World) (i : nat) :
  getAbstractFileByPath w file = Some (File content_) ->
  updateConsolidatedDefinition file d np na nc w = (Some tt, w') ->
  lineNumber d = Some (i + 1) ->
  i < List.length (split (ascii_of_nat 10) content_) ->
  oneLine np = true ->
  trim np <> "" ->
  ~ inFrontMatter (split (ascii_of_nat 10) content_) i ->
  exists written defs d',
    getAbstractFileByPath w' file = Some (File written)
    /\ parse pat written file = Ok defs
    /\ In d' defs
    /\ lineNumber d' = Some (i + 1)
    /\ phrase d' = trim np
    /\ aliases d' = []
    /\ sourceFile d' = file.
Proof.
  intros Hf Hup Hline Hi Hone Hnp Hfm.
  destruct (update_written _ _ _ _ _ _ _ _ i Hf Hup Hline Hone)
    as (written & post & Hw & Hsplit).
  exists written. unfold parse. rewrite Hsplit.
  set (pre := firstn i (split (ascii_of_nat 10) content_)).
  assert (Hlen : List.length pre = i)
    by (unfold pre; apply firstn_length_le; lia).
  destruct (written_block_parsed pat file pre np post Hnp)
    as (defs & d' & H).
  - rewrite Hlen. intros [(l0 & H0 & Ht) Hno].
    destruct i as [|i].
    + assert (Hnil : pre = []) by (now destruct pre).
      rewrite Hnil in H0. cbn [nth_error app] in H0.
      injection H0 as <-.
      destruct (written_header np Hnp) as (E & _).
      change (trim ("# " ++ np) = "---") in Ht.
      rewrite E in Ht. discriminate.
    + apply Hfm. split.
      * exists l0. split; [|assumption].
        rewrite nth_error_app1 in H0 by lia.
        unfold pre in H0. rewrite nth_error_firstn_lt in H0 by lia.
        exact H0.
      * intros j l Hj Hl. apply (Hno j l Hj).
        rewrite nth_error_app1 by lia.
        unfold pre. rewrite nth_error_firstn_lt by lia. exact Hl.
  - rewrite Hlen in H. exists defs, d'. split; [exact Hw | exact H].
Qed.

Lemma updated_block_read_back_witness :
  exists written defs d',
    getAbstractFileByPath
      (snd (updateConsolidatedDefinition "defs/a.md" ramBlock "Memory"
              ["RAM"; "main memory"] "Where running programs live."
              ramVault))
      "defs/a.md" = Some (File written)
    /\ parse both written "defs/a.md" = Ok defs
    /\ In d' defs
    /\ lineNumber d' = Some 1
    /\ phrase d' = "Memory"
    /\ aliases d' = []
    /\ sourceFile d' = "defs/a.md".
Proof.
  apply (updated_block_read_back both "defs/a.md" ramBlock "Memory"
           ["RAM"; "main memory"] "Where running programs live."
           ramFile ramVault _ 0).
  - reflexivity.
  - reflexivity.
  - reflexivity.
  - vm_compute. lia.
  - reflexivity.
  - discriminate.
  - intros [(l0 & H0 & Ht) _]. vm_compute in H0. inversion H0; subst l0.
    discriminate.
Defined.

End UpdateFacts.

(* ------------------------------------------------------------------ *)
(** ** From a blank alias in a note to the scanner *)

Section BlankAlias.
Import Js RegExp DefinitionManager.

(** An atomic note whose front matter gives [aliases] as a string of
    white space only stops the scanner.  Loading the note files a
    Definition with the empty alias; unless another stored Definition
    hides it behind the same [sourceFile:phrase] string,
    [getAllPhrases] then lists the empty phrase, and [findPhrases] on
    these phrases does not return on any text with a word character,
    whatever the budget. *)
Theorem blank_alias_hangs_scanner (parseYaml : string -> Yaml)
    (pat : DividerPattern) (file : TFile) (content_ : string)
    (c : DefinitionCache) (fm : string) (parsed : FrontMatter) (s : string)
    (text : string) (j : nat) :
  Loader.getDefinitionType parseYaml content_ = atomic ->
  AtomicParser.extractFrontmatter content_ = Some fm ->
  fm <> "" ->
  parseYaml fm = YamlObject parsed ->
  fmAliases parsed = AliasString s ->
  s <> "" ->
  trim s = "" ->
  (forall e, In e (allStored c) ->
             seenKey e <> seenKey (AtomicParser.parse parseYaml file content_)) ->
  wordAt text j = true ->
  forall fuel,
    EditorManager.findPhrases fuel text
      (getAllPhrases
         (Loader.loadDefinitionFile parseYaml pat file (Some content_) c) None)
    = OutOfFuel.
Proof.
  intros Ht Hfm Hne Hy Ha Hs Hts Hfresh Hj fuel.
  set (d := AtomicParser.parse parseYaml file content_) in *.
  assert (Hload : Loader.loadDefinitionFile parseYaml pat file (Some content_) c
                  = addToCache c d).
  { unfold Loader.loadDefinitionFile, Loader.parsedDefinitions.
    now rewrite Ht. }
  rewrite Hload.
  assert (Hal : In "" (aliases d)).
  { unfold d. cbn [AtomicParser.parse aliases].
    unfold AtomicParser.extractAliases. rewrite Hfm.
    apply eqb_false_iff in Hne, Hs. rewrite Hne, Hy, Ha, Hs, Hts.
    now left. }
  assert (Hd : In d (getAllDefinitions (addToCache c d) None)).
  { rewrite getAllDefinitions_firstSeen.
    apply (count_occ_In Defn_eq_dec).
    rewrite (firstSeen_count [] _ d); [lia | | intros [] |].
    - apply (stored_allStored _ (toLowerCase (phrase d))).
      apply In_stored_addToCache. now left.
    - intros e He Hk. apply allStored_addToCache in He.
      destruct He as [->|He]; [reflexivity|].
      now apply Hfresh in He. }
  assert (Hin : In "" (getAllPhrases (addToCache c d) None)).
  { unfold getAllPhrases.
    apply (getAllPhrases_fold _ [] (NoDup_nil _)). right.
    exists d. split; [exact Hd | now right]. }
  unfold EditorManager.findPhrases.
  rewrite (scanPhrases_empty_phrase text j); [reflexivity | exact Hj |].
  eapply Permutation_in; [apply Permutation_sym, sort_perm | exact Hin].
Qed.

Lemma blank_alias_hangs_scanner_witness :
  EditorManager.findPhrases 1000 "see the cpu"
    (getAllPhrases
       (Loader.loadDefinitionFile blankAliasYaml both
          {| path := "defs/CPU.md"; basename := "CPU" |} (Some atomicNote)
          emptyCache) None)
  = OutOfFuel.
Proof.
  eapply (blank_alias_hangs_scanner blankAliasYaml both
            {| path := "defs/CPU.md"; basename := "CPU" |} atomicNote
            emptyCache _ _ " " "see the cpu" 0).
  - reflexivity.
  - reflexivity.
  - discriminate.
  - reflexivity.
  - reflexivity.
  - discriminate.
  - reflexivity.
  - intros e [].
  - reflexivity.
Defined.

End BlankAlias.

(* ------------------------------------------------------------------ *)
(** ** Loading the folder *)

Section FolderFacts.
Import Js DefinitionManager FolderLoad.
Variable parseYaml : string -> Yaml.
Variable pat : DividerPattern.

Lemma loadChild_folder (children : list Entry) (c : DefinitionCache) :
  loadChild parseYaml pat (EFolder children) c
  = fold_left (fun c child => loadChild parseYaml pat child c) children c.
Proof.
  cbn [loadChild]. revert c.
  induction children as [|x r IH]; intros c; [reflexivity|].
  cbn [fold_left]. apply IH.
Qed.

Lemma Forall_Entry (P : Entry -> Prop) :
  (forall file extension read, P (EFile file extension read)) ->
  (forall children, Forall P children -> P (EFolder children)) ->
  forall e, P e.
Proof.
  intros Hf Hd.
  fix IH 1. intros [file extension read|children]; [apply Hf|].
  apply Hd. induction children as [|x r IHr]; constructor; [apply IH | exact IHr].
Qed.

(** Walking an entry adds, in depth-first order, what its [md] files
    parse to. *)
Lemma loadChild_flat (e : Entry) :
  forall c,
    loadChild parseYaml pat e c
    = fold_left addToCache
        (flat_map (fun fr => Loader.parsedDefinitions parseYaml pat
                               (fst fr) (snd fr))
                  (mdFiles e)) c.
Proof.
  induction e as [file extension read|children IH] using Forall_Entry;
    intros c.
  - cbn [loadChild mdFiles]. destruct (extension == "md"); [|reflexivity].
    cbn [flat_map fst snd]. now rewrite app_nil_r.
  - rewrite loadChild_folder. cbn [mdFiles]. revert c.
    induction IH as [|x r Hx _ IHr]; intros c; [reflexivity|].
    cbn [fold_left flat_map]. rewrite flat_map_app, fold_left_app, <- Hx.
    apply IHr.
Qed.

Lemma parsedDefinitions_own (file : TFile) (read : option string) :
  Forall (fun d => sourceFile d = path file)
         (Loader.parsedDefinitions parseYaml pat file read).
Proof.
  unfold Loader.parsedDefinitions. destruct read as [content_|]; [|constructor].
  destruct (Loader.getDefinitionType parseYaml content_).
  - now destruct (parse_sourceFile pat content_ (path file)) as (defs & -> & H).
  - repeat constructor.
Qed.

(** [loadDefinitions] with a folder set starts from nothing: under each
    key the cache then holds exactly what the [md] files below the
    folder parse to, filed in depth-first order, and nothing of what it
    held before; every Definition it holds carries the path of one of
    these files, and the invariants of the index hold.  A path that is
    missing or names a file leaves the cache empty. *)
Theorem loadDefinitions_rebuilds (definitionFolder : string)
    (folder : option Entry) (now later : nat) (c : DefinitionCache) :
  definitionFolder <> "" ->
  (forall k,
      stored (definitions
                (loadDefinitions parseYaml pat definitionFolder folder now
                                 later c)) k
      = filedUnder k
          (flat_map (fun fr => Loader.parsedDefinitions parseYaml pat
                                 (fst fr) (snd fr))
                    (mdFilesOf folder)))
  /\ (forall k d,
        In d (stored (definitions
                        (loadDefinitions parseYaml pat definitionFolder folder
                                         now later c)) k) ->
        exists file read,
          In (file, read) (mdFilesOf folder) /\ sourceFile d = path file)
  /\ CacheInv (loadDefinitions parseYaml pat definitionFolder folder now
                               later c).
Proof.
  intros Hne. apply eqb_false_iff in Hne.
  set (loaded := flat_map (fun fr => Loader.parsedDefinitions parseYaml pat
                                       (fst fr) (snd fr))
                          (mdFilesOf folder)).
  assert (Hinv0 : CacheInv (clearCache c now)).
  { destruct CacheInv_empty as [H1 H2 H3 H4].
    split; [exact H1 | exact H2 | exact H3 | exact H4]. }
  assert (Hfold : forall ds c0, CacheInv c0 ->
                                CacheInv (fold_left addToCache ds c0)).
  { induction ds as [|d ds IH]; intros c0 H0; [exact H0|].
    cbn [fold_left]. apply IH. now apply CacheInv_add. }
  assert (E : definitions (loadDefinitions parseYaml pat definitionFolder
                                           folder now later c)
              = definitions (fold_left addToCache loaded (clearCache c now))
              /\ fileIndex (loadDefinitions parseYaml pat definitionFolder
                                            folder now later c)
                 = fileIndex (fold_left addToCache loaded (clearCache c now))).
  { unfold loadDefinitions, loaded. rewrite Hne.
    destruct folder as [[file extension read|children]|];
      [split; reflexivity | | split; reflexivity].
    cbn [definitions fileIndex mdFilesOf].
    unfold loadDefinitionsFromFolder.
    rewrite <- (loadChild_folder children), loadChild_flat.
    split; reflexivity. }
  destruct E as [Ed Ef].
  assert (Hstored : forall k,
             stored (definitions
                       (loadDefinitions parseYaml pat definitionFolder folder
                                        now later c)) k
             = filedUnder k loaded).
  { intros k. rewrite Ed, stored_fold_addToCache. reflexivity. }
  split; [exact Hstored|]. split.
  - intros k d Hd. rewrite Hstored in Hd. unfold filedUnder in Hd.
    apply in_flat_map in Hd. destruct Hd as (d' & Hd' & Hrep).
    apply repeat_spec in Hrep. subst d'.
    unfold loaded in Hd'. apply in_flat_map in Hd'.
    destruct Hd' as ([file read] & Hin & Hd'). cbn [fst snd] in Hd'.
    exists file, read. split; [exact Hin|].
    pose proof (parsedDefinitions_own file read) as Hown.
    rewrite Forall_forall in Hown. now apply Hown.
  - destruct (Hfold loaded _ Hinv0) as [H1 H2 H3 H4].
    split.
    + now rewrite Ed.
    + intros k. rewrite Ed. apply H2.
    + intros k d. rewrite Ed. unfold isDefinitionFile, JsMap.has in *.
      rewrite Ef. apply H3.
    + intros f phs ph. rewrite Ef, Ed. apply H4.
Qed.

End FolderFacts.

Lemma loadDefinitions_rebuilds_witness :
  (forall k,
      stored (definitions
                (FolderLoad.loadDefinitions atomicYaml both "defs"
                   (Some sampleFolder) 1 2
                   (DefinitionManager.cache cpuManager))) k
      = filedUnder k
          (flat_map (fun fr => Loader.parsedDefinitions atomicYaml both
                                 (fst fr) (snd fr))
                    (mdFilesOf (Some sampleFolder))))
  /\ (forall k d,
        In d (stored (definitions
                        (FolderLoad.loadDefinitions atomicYaml both "defs"
                           (Some sampleFolder) 1 2
                           (DefinitionManager.cache cpuManager))) k) ->
        exists file read,
          In (file, read) (mdFilesOf (Some sampleFolder))
          /\ sourceFile d = path file)
  /\ CacheInv (FolderLoad.loadDefinitions atomicYaml both "defs"
                 (Some sampleFolder) 1 2
                 (DefinitionManager.cache cpuManager)).
Proof.
  apply (loadDefinitions_rebuilds atomicYaml both "defs" (Some sampleFolder)
           1 2 (DefinitionManager.cache cpuManager)).
  discriminate.
Defined.
